(** * The Taskfile reader of go-task (taskfile/reader.go)

    A shallow embedding of [Reader.include], [Reader.readNode] and
    [Reader.loadNode], and the properties of the include graph and of the
    remote trust workflow that the reader is specified to have.

    Layout: the data model (errors, AST, events), the collaborators of the
    reader as a type class, a state-and-error monad for the sequential code
    of [loadNode] and [readNode], the document graph, and [include] twice:
    as a machine of goroutines driven by an arbitrary schedule, and as the
    function reads, one goroutine after the other. Theorems follow the
    definitions: the facts of each part, that every result of the function
    is the result of a run of the machine, and the claims, each with an
    example of its use. *)

From Stdlib Require Import ZArith String Ascii List.
From stdpp Require Import base option gmap strings list fin_maps fin_sets.

Set Warnings "-register-all".
Open Scope string_scope.
Open Scope list_scope.
Open Scope Z_scope.

(** ** Errors *)

(** The error values the reader distinguishes. [Wrapped] is an error that
    wraps a cause (what [fmt.Errorf] with a percent-w verb, or an
    [os.PathError], builds); [ErrOther] is any other error of a collaborator. *)
Inductive error :=
| ErrNotExist                                              (* os.ErrNotExist *)
| ErrVertexAlreadyExists                                   (* graph.ErrVertexAlreadyExists *)
| ErrEdgeNotFound                                          (* graph.ErrEdgeNotFound *)
| ErrEdgeCreatesCycle                                      (* graph.ErrEdgeCreatesCycle *)
| TaskfileCacheNotFoundError (URI : string)
| TaskfileNetworkTimeoutError (URI : string) (Timeout : Z) (CheckedCache : bool)
| TaskfileNotTrustedError (URI : string)
| TaskfileVersionCheckError (URI : string)
| TaskfileDecodeError (Message : string) (FileInfo : option (string * string * Z))
| TaskfileInvalidError (URI : string) (Err : error)
| TaskfileCycleError (Source Destination : string)
| Wrapped (msg : string) (cause : error)
| ErrOther (msg : string).

#[global] Instance error_eq_dec : EqDecision error.
Proof. solve_decision. Defined.

Abbreviation result A := (error + A)%type.


(** [errors.Is]: the target is the error or one of the causes it wraps. *)
Fixpoint errors_Is (err target : error) : bool :=
  if decide (err = target) then true
  else match err with
       | Wrapped _ cause => errors_Is cause target
       | _ => false
       end.

(** [errors.As] with a [TaskfileNetworkTimeoutError] target: the first timeout
    error of the chain, with its fields. *)
Fixpoint errors_As_timeout (err : error) : option (string * Z * bool) :=
  match err with
  | TaskfileNetworkTimeoutError u t c => Some (u, t, c)
  | Wrapped _ cause => errors_As_timeout cause
  | _ => None
  end.

(** [errors.As] with a [TaskfileDecodeError] pointer target. *)
Fixpoint errors_As_decode (err : error) : option (string * option (string * string * Z)) :=
  match err with
  | TaskfileDecodeError m fi => Some (m, fi)
  | Wrapped _ cause => errors_As_decode cause
  | _ => None
  end.

(** [TaskfileDecodeError.WithFileInfo]. *)
Definition WithFileInfo (d : string * option (string * string * Z))
    (location content : string) (padding : Z) : error :=
  TaskfileDecodeError (fst d) (Some (location, content, padding)).

(** ** The AST (package ast), as far as the reader touches it *)

Record Location := mkLocation {
  Location_Taskfile : string;
  Location_TaskfileDir : string }.

Record Task := mkTask {
  Task_Name : string;
  Task_Location : Location }.

#[global] Instance Location_eq_dec : EqDecision Location.
Proof. solve_decision. Defined.
#[global] Instance Task_eq_dec : EqDecision Task.
Proof. solve_decision. Defined.

(** [&ast.Task{}]: every field at its zero value. *)
Definition Task_zero : Task := mkTask EmptyString (mkLocation EmptyString EmptyString).

Record Include := mkInclude {
  Include_Namespace : string;
  Include_Taskfile : string;
  Include_Dir : string;
  Include_Optional : bool;
  Include_Internal : bool;
  Include_Flatten : bool;
  Include_Aliases : list string;
  Include_AdvancedImport : bool;
  Include_Vars : list (string * string) }.

#[global] Instance Include_eq_dec : EqDecision Include.
Proof. solve_decision. Defined.

(** [ast.Taskfile]. [Taskfile_Version] is a pointer ([None] is nil);
    [Taskfile_Tasks] and [Taskfile_Includes] are ordered maps, kept in their
    iteration order; a task is a pointer ([None] is a nil [ast.Task] pointer). The
    tasks of a freshly unmarshalled document are separate allocations, so
    they are kept by value. *)
Record Taskfile := mkTaskfile {
  Taskfile_Location : string;
  Taskfile_Version : option string;
  Taskfile_Vars : gmap string string;
  Taskfile_Tasks : list (string * option Task);
  Taskfile_Includes : list (string * Include) }.

(** What [Node.Read] returns. *)
Record source := mkSource {
  FileContent : string;
  FileDirectory : string }.

(** ** The reader's configuration (the fields of [Reader] that are inputs) *)

Record Reader := mkReader {
  insecure : bool;
  download : bool;
  offline : bool;
  timeout : Z;
  tempDir : string }.

(** ** Effects: the remote cache and the trace of what the reader did *)

(** Modelled from the spec: the entry of the remote cache (the cache of
    package taskfile, which [reader.go] only calls), which section 3
    describes as the last-fetched content with its checksum digest, keyed by
    the identity of the remote source. *)
Record CacheEntry := mkCacheEntry {
  ce_source : source;
  ce_checksum : string }.

Section Effects.
Context {Node : Type}.

(** One entry per call the reader makes to a collaborator that is visible
    outside it. *)
Inductive Event :=
| EvNewCache (dir : string)          (* NewCache(r.tempDir) *)
| EvCacheRead (n : Node)             (* cache.read of the remote *)
| EvCacheReadChecksum (n : Node)     (* cache.readChecksum of the remote *)
| EvCacheWrite (n : Node)            (* cache.write of the remote and its source *)
| EvRead (n : Node)                  (* n.Read(): file or network access *)
| EvChecksum (n : Node)              (* checksumSource of the source *)
| EvUnmarshal (n : Node)             (* yaml.Unmarshal of the document of n *)
| EvPrompt (msg : string)            (* r.logger.Prompt *)
| EvLog (msg : string).              (* r.logger.VerboseOutf *)

Record World := mkWorld {
  cache : gmap string CacheEntry;
  trace : list Event }.

Definition is_prompt (e : Event) : bool :=
  match e with EvPrompt _ => true | _ => false end.
Definition is_cache_write (e : Event) : bool :=
  match e with EvCacheWrite _ => true | _ => false end.
Definition is_read (e : Event) : bool :=
  match e with EvRead _ => true | _ => false end.
Definition is_checksum (e : Event) : bool :=
  match e with EvChecksum _ | EvCacheReadChecksum _ => true | _ => false end.
Definition is_unmarshal (e : Event) : bool :=
  match e with EvUnmarshal _ => true | _ => false end.

(** How often a trace parses a document. *)
Definition parses (evs : list Event) : nat :=
  length (List.filter is_unmarshal evs).
End Effects.
Arguments Event : clear implicits.
Arguments World : clear implicits.

(** ** The collaborators of the reader

    The [Node] interface and everything else [reader.go] calls but does not
    define. Pure helpers are functions; a collaborator that touches the
    outside world (file system, network, terminal) answers as a function of
    the trace so far, so that two calls may answer differently. *)
Class Collaborators (Node RemoteNode : Type) := {
  (* the Node interface *)
  Location_of : Node → string;
  ResolveEntrypoint : Node → string → result string;
  ResolveDir : Node → string → result string;
  (* the type assertion to a RemoteNode pointer, and the conversion back *)
  asRemote : Node → option RemoteNode;
  ofRemote : RemoteNode → Node;
  (* NewNode(logger, entrypoint, dir, insecure, timeout, WithParent(parent)) *)
  NewNode : string → string → bool → Z → Node → result Node;
  (* Node.Read *)
  Read : list (Event Node) → Node → result source;
  (* yaml.Unmarshal into an ast.Taskfile *)
  Unmarshal : string → result Taskfile;
  (* templater.Replace on a string, with the variables of the cache *)
  Replace : string → gmap string string → result string;
  (* compiler.GetEnviron *)
  GetEnviron : gmap string string;
  (* filepathext.TryAbsToRel *)
  TryAbsToRel : string → string;
  (* the quoting of the percent-q verb of fmt.Sprintf *)
  Quote : string → string;
  (* checksumSource *)
  checksumSource : source → result string;
  (* NewCache: the error, if any *)
  NewCache : list (Event Node) → string → option error;
  (* an I/O failure of cache.read or cache.write, if any *)
  cache_read_fault : list (Event Node) → RemoteNode → option error;
  cache_write_fault : list (Event Node) → RemoteNode → option error;
  (* the node handles the cache gives back *)
  cachedNode : RemoteNode → source → Node;
  writtenNode : RemoteNode → source → RemoteNode;
  (* r.logger.Prompt(color, msg, "n", "y", "yes"): the error, if any *)
  Prompt : list (Event Node) → string → option error }.

(** ** A state-and-error monad for the sequential code

    A computation takes the world and gives a result or an error, and the
    world it leaves. The world after an error is kept: what was written or
    logged before a failure stays written. *)
Section Monad.
Context {Node : Type}.

Definition M (A : Type) : Type := World Node → result A * World Node.

Definition ret {A} (a : A) : M A := λ w, (inr a, w).
Definition fail {A} (e : error) : M A := λ w, (inl e, w).
Definition bind {A B} (m : M A) (k : A → M B) : M B :=
  λ w, match m w with
       | (inr a, w') => k a w'
       | (inl e, w') => (inl e, w')
       end.
(** Run [m] and hand its error to the caller as a value
    ([x, err := f()] followed by tests on [err]). *)
Definition try {A} (m : M A) : M (result A) :=
  λ w, let '(x, w') := m w in (inr x, w').
Definition emit (e : Event Node) : M unit :=
  λ w, (inr tt, mkWorld (cache w) (trace w ++ [e])).
(** Ask a collaborator that answers from the trace so far. *)
Definition ask {A} (f : list (Event Node) → A) : M A :=
  λ w, (inr (f (trace w)), w).
Definition lift {A} (x : result A) : M A := λ w, (x, w).
End Monad.
Arguments M : clear implicits.

Notation "x <- m ;; k" := (bind m (λ x, k))
  (at level 100, m at next level, right associativity).
Notation "m ;;; k" := (bind m (λ _, k))
  (at level 100, right associativity).

(** ** The prompts *)

Definition nl : string := String (ascii_of_nat 10) EmptyString.

(** The two prompt formats, each split at its one percent-q verb. *)
Definition taskfileUntrustedPrompt : string * string :=
  ("The task you are attempting to run depends on the remote Taskfile at ",
   "." +:+ nl +:+ "--- Make sure you trust the source of this Taskfile before continuing ---"
       +:+ nl +:+ "Continue?").
Definition taskfileChangedPrompt : string * string :=
  ("The Taskfile at ",
   " has changed since you last used it!" +:+ nl
     +:+ "--- Make sure you trust the source of this Taskfile before continuing ---"
     +:+ nl +:+ "Continue?").

Section ReaderSequential.
Context {Node RemoteNode : Type} `{!Collaborators Node RemoteNode}.

(** [fmt.Sprintf] of a prompt format and a location. *)
Definition Sprintf (format : string * string) (location : string) : string :=
  fst format +:+ Quote location +:+ snd format.

(** The location of a remote node ([remote.Location()]). *)
Definition remote_Location (remote : RemoteNode) : string :=
  Location_of (ofRemote remote).

(** *** The remote cache

    The cache of package taskfile is only called by [reader.go]; its three
    operations follow the contract of section 6 of the spec. As [reader.go]
    uses them, [read] and [write] return a node handle, and either may also
    fail with an I/O error. *)

(** Modelled from the spec: [Cache.read], which gives the stored copy of the
    remote source, or a not-found error when there is none. *)
Definition cache_read (remote : RemoteNode) : M Node Node :=
  fault <- ask (λ t, cache_read_fault t remote) ;;
  emit (EvCacheRead (ofRemote remote)) ;;;
  match fault with
  | Some e => fail e
  | None =>
      λ w, match cache w !! remote_Location remote with
           | None => (inl ErrNotExist, w)
           | Some ce => (inr (cachedNode remote (ce_source ce)), w)
           end
  end.

(** Modelled from the spec: [Cache.readChecksum], which gives the stored
    checksum of the remote source, or the empty string when there is none. *)
Definition cache_readChecksum (remote : RemoteNode) : M Node string :=
  emit (EvCacheReadChecksum (ofRemote remote)) ;;;
  λ w, match cache w !! remote_Location remote with
       | None => (inr EmptyString, w)
       | Some ce => (inr (ce_checksum ce), w)
       end.

(** Modelled from the spec: [Cache.write], which stores the content and its
    checksum, replacing any prior entry of the source, and gives a new node
    handle. *)
Definition cache_write (remote : RemoteNode) (src : source) : M Node RemoteNode :=
  fault <- ask (λ t, cache_write_fault t remote) ;;
  emit (EvCacheWrite (ofRemote remote)) ;;;
  match fault with
  | Some e => fail e
  | None =>
      sum <- lift (checksumSource src) ;;
      λ w, (inr (writtenNode remote src),
            mkWorld (<[remote_Location remote := mkCacheEntry src sum]> (cache w)) (trace w))
  end.

(** *** Calls to the other collaborators, with their trace entries *)

Definition node_Read (n : Node) : M Node source :=
  x <- ask (λ t, Read t n) ;; emit (EvRead n) ;;; lift x.

Definition newCache (dir : string) : M Node unit :=
  x <- ask (λ t, NewCache t dir) ;; emit (EvNewCache dir) ;;;
  match x with Some e => fail e | None => ret tt end.

Definition logger_Prompt (msg : string) : M Node unit :=
  x <- ask (λ t, Prompt t msg) ;; emit (EvPrompt msg) ;;;
  match x with Some e => fail e | None => ret tt end.

Definition VerboseOutf (pre location post : string) : M Node unit :=
  emit (EvLog (pre +:+ location +:+ post)).

Definition checksum_of (remote : RemoteNode) (src : source) : M Node string :=
  emit (EvChecksum (ofRemote remote)) ;;; lift (checksumSource src).

(** *** [Reader.loadNode] (reader.go, lines 227 to 307) *)

(** Lines 285 to 292: the prompt to show, empty when there is none. *)
Definition trust_prompt (location cachedChecksum checksum : string) : string :=
  if decide (cachedChecksum = EmptyString)
  then Sprintf taskfileUntrustedPrompt location
  else if decide (checksum ≠ cachedChecksum)
       then Sprintf taskfileChangedPrompt location
       else EmptyString.

Definition loadNode (r : Reader) (n : Node) : M Node Node :=
  match asRemote n with
  | None => ret n                                                 (* 228-231 *)
  | Some remote =>
      newCache (tempDir r) ;;;                                    (* 233-236 *)
      if offline r then                                           (* 238 *)
        c <- try (cache_read remote) ;;                           (* 240 *)
        match c with
        | inl err =>
            if errors_Is err ErrNotExist
            then fail (TaskfileCacheNotFoundError (remote_Location remote))
            else fail err
        | inr cached =>
            VerboseOutf "task: [" (remote_Location remote) ("] Fetched cached copy" +:+ nl) ;;;
            ret cached                                            (* 248 *)
        end
      else
        s <- try (node_Read (ofRemote remote)) ;;                 (* 251 *)
        match s with
        | inl err =>
            match errors_As_timeout err with                      (* 254 *)
            | Some (_, te_Timeout, _) =>
                if download r then                                (* 258 *)
                  fail (TaskfileNetworkTimeoutError (remote_Location remote) te_Timeout false)
                else
                  c <- try (cache_read remote) ;;                 (* 263 *)
                  match c with
                  | inl err =>
                      if errors_Is err ErrNotExist
                      then fail (TaskfileNetworkTimeoutError
                                   (remote_Location remote) (timeout r) true)
                      else fail err
                  | inr cached =>
                      VerboseOutf "task: [" (remote_Location remote)
                        ("] Network timeout. Fetched cached copy" +:+ nl) ;;;
                      ret cached                                  (* 271 *)
                  end
            | None => fail err                                    (* 273-275 *)
            end
        | inr src =>
            VerboseOutf "task: [" (remote_Location remote) ("] Fetched remote copy" +:+ nl) ;;;
            cachedChecksum <- cache_readChecksum remote ;;        (* 279 *)
            checksum <- checksum_of remote src ;;                 (* 280-283 *)
            let prompt :=                                         (* 285-292 *)
              trust_prompt (remote_Location remote) cachedChecksum checksum in
            if decide (prompt ≠ EmptyString) then                 (* 294 *)
              p <- try (logger_Prompt prompt) ;;                  (* 295 *)
              match p with
              | inl _ => fail (TaskfileNotTrustedError (remote_Location remote))
              | inr _ =>
                  VerboseOutf "task: [" (remote_Location remote)
                    ("] Caching downloaded file" +:+ nl) ;;;
                  remote' <- cache_write remote src ;;            (* 301 *)
                  ret (ofRemote remote')                          (* 306 *)
              end
            else ret (ofRemote remote)                            (* 306 *)
        end
  end.

(** *** [Reader.readNode] (reader.go, lines 182 to 225) *)

(** The body of the loop of lines 210 to 222 for a task that is not nil:
    each of the two location fields is written only when it is empty. *)
Definition stamp (location dir : string) (task : Task) : Task :=
  let task :=                                                     (* 216-218 *)
    if decide (Location_Taskfile (Task_Location task) = EmptyString)
    then mkTask (Task_Name task)
           (mkLocation location (Location_TaskfileDir (Task_Location task)))
    else task in
  if decide (Location_TaskfileDir (Task_Location task) = EmptyString)  (* 219-221 *)
  then mkTask (Task_Name task)
         (mkLocation (Location_Taskfile (Task_Location task)) dir)
  else task.

(** One turn of the loop on a value of [tf.Tasks.Values()]. For a nil
    pointer the loop variable is pointed at a fresh task, which is stamped
    and then dropped: the entry of the map stays nil. Otherwise the task is
    stamped through its pointer. *)
Definition stamp_value (location dir : string) (task : option Task) : option Task :=
  match task with
  | None => let _ := stamp location dir Task_zero in None         (* 212-214 *)
  | Some task => Some (stamp location dir task)
  end.

Definition stamp_tasks (location dir : string)
    (tasks : list (string * option Task)) : list (string * option Task) :=
  map (λ kv, (fst kv, stamp_value location dir (snd kv))) tasks.

Definition readNode (r : Reader) (node : Node) : M Node (Taskfile * Node) :=
  node <- loadNode r node ;;                                      (* 183-186 *)
  src <- node_Read node ;;                                        (* 188-191 *)
  emit (EvUnmarshal node) ;;;
  match Unmarshal (FileContent src) with                          (* 194 *)
  | inl err =>
      match errors_As_decode err with                             (* 197 *)
      | Some d => fail (WithFileInfo d (Location_of node) (FileContent src) 2)
      | None => fail (TaskfileInvalidError (TryAbsToRel (Location_of node)) err)
      end
  | inr tf =>
      match Taskfile_Version tf with                              (* 204 *)
      | None => fail (TaskfileVersionCheckError (Location_of node))
      | Some _ =>
          let location := Location_of node in                     (* 209 *)
          ret (mkTaskfile location (Taskfile_Version tf) (Taskfile_Vars tf)
                 (stamp_tasks location (FileDirectory src) (Taskfile_Tasks tf))
                 (Taskfile_Includes tf),
               node)                                              (* 224 *)
      end
  end.

(** The events a computation adds to the trace of [w]. *)
Definition events_of {A} (m : M Node A) (w : World Node) : list (Event Node) :=
  drop (length (trace w)) (trace (snd (m w))).

(** *** The answers of the collaborators along a run of [loadNode]

    A collaborator answers from the trace so far; these are the answers at
    the points where [loadNode], started in [w] on a remote node, asks. *)

(** [NewCache] at line 233 gives no error. *)
Definition cache_opened (r : Reader) (w : World Node) : Prop :=
  NewCache (trace w) (tempDir r) = None.

(** The fault of [cache.read] at line 240 (offline mode). *)
Definition read_fault_offline (r : Reader) (remote : RemoteNode) (w : World Node)
    : option error :=
  cache_read_fault (trace w ++ [EvNewCache (tempDir r)]) remote.

(** The answer of [remote.Read()] at line 251. *)
Definition fetch_answer (r : Reader) (remote : RemoteNode) (w : World Node)
    : result source :=
  Read (trace w ++ [EvNewCache (tempDir r)]) (ofRemote remote).

(** The fault of [cache.read] at line 263 (after a timeout). *)
Definition read_fault_fallback (r : Reader) (remote : RemoteNode) (w : World Node)
    : option error :=
  cache_read_fault (trace w ++ [EvNewCache (tempDir r); EvRead (ofRemote remote)]) remote.

(** The checksum [cache.readChecksum] gives at line 279. *)
Definition cachedChecksum_of (remote : RemoteNode) (w : World Node) : string :=
  match cache w !! remote_Location remote with
  | None => EmptyString
  | Some ce => ce_checksum ce
  end.

(** The answer of [r.logger.Prompt] at line 295 to the prompt [msg]. *)
Definition prompt_answer (r : Reader) (remote : RemoteNode) (w : World Node)
    (msg : string) : option error :=
  Prompt (trace w ++ [EvNewCache (tempDir r); EvRead (ofRemote remote);
                      EvLog ("task: [" +:+ remote_Location remote +:+
                             "] Fetched remote copy" +:+ nl);
                      EvCacheReadChecksum (ofRemote remote);
                      EvChecksum (ofRemote remote)]) msg.
End ReaderSequential.

(** ** The document graph (ast.TaskfileGraph) *)

(** The properties of an edge the reader sets: [graph.EdgeData] and
    [graph.EdgeWeight]. *)
Record Edge := mkEdge {
  Edge_Data : list Include;
  Edge_Weight : Z }.

(** Vertices are keyed by location and hold the parsed document, nil until it
    has been read; edges are keyed by the pair of locations. *)
Record TaskfileGraph := mkGraph {
  vertices : gmap string (option Taskfile);
  edges : gmap (string * string) Edge }.

(** [ast.NewTaskfileGraph()]. *)
Definition NewTaskfileGraph : TaskfileGraph := mkGraph ∅ ∅.

(** The locations an edge leads to from [a]. *)
Definition successors (E : gmap (string * string) Edge) (a : string) : list string :=
  omap (λ kv, if decide (fst (fst kv) = a) then Some (snd (fst kv)) else None)
       (map_to_list E).

(** Depth-first search for a path from [a] to [b] that stays clear of the
    locations already on the way ([seen]). *)
Fixpoint reaches (E : gmap (string * string) Edge) (fuel : nat) (seen : gset string)
    (a b : string) : bool :=
  if decide (a = b) then true
  else match fuel with
       | O => false
       | S fuel =>
           existsb (λ c, if decide (c ∈ {[a]} ∪ seen) then false
                         else reaches E fuel ({[a]} ∪ seen) c b)
                   (successors E a)
       end.

(** *** The operations of the graph

    ast.TaskfileGraph is a directed acyclic graph of the graph library the
    reader imports; [reader.go] only calls its operations, which follow
    section 4.3 of the spec. *)

(** Modelled from the spec: the cycle check of [AddEdge], which finds that
    the new edge would close a path back to its source. *)
Definition createsCycle (g : TaskfileGraph) (src dst : string) : bool :=
  reaches (edges g) (size (edges g)) ∅ dst src.

(** Modelled from the spec: [AddVertex], which fails distinguishably when
    the vertex exists. *)
Definition AddVertex (g : TaskfileGraph) (URI : string) (tf : option Taskfile)
    : result TaskfileGraph :=
  match vertices g !! URI with
  | Some _ => inl ErrVertexAlreadyExists
  | None => inr (mkGraph (<[URI := tf]> (vertices g)) (edges g))
  end.

(** Modelled from the spec: [Edge], the edge of a pair of locations, with
    the error [reader.go] tests for when there is none. *)
Definition Edge_of (g : TaskfileGraph) (src dst : string) : result Edge :=
  match edges g !! (src, dst) with
  | Some e => inr e
  | None => inl ErrEdgeNotFound
  end.

(** Modelled from the spec: [AddEdge], which fails with a cycle error when
    the new edge would close a cycle. As in the graph library, an edge
    between locations that are not both vertices, or one that exists, is
    refused as well. *)
Definition AddEdge (g : TaskfileGraph) (src dst : string) (data : list Include)
    (weight : Z) : result TaskfileGraph :=
  match vertices g !! src, vertices g !! dst with
  | None, _ => inl (Wrapped "source vertex" (ErrOther "vertex not found"))
  | _, None => inl (Wrapped "target vertex" (ErrOther "vertex not found"))
  | Some _, Some _ =>
      match edges g !! (src, dst) with
      | Some _ => inl (ErrOther "edge already exists")
      | None =>
          if createsCycle g src dst then inl ErrEdgeCreatesCycle
          else inr (mkGraph (vertices g) (<[(src, dst) := mkEdge data weight]> (edges g)))
      end
  end.

(** Modelled from the spec: [UpdateEdge], which rewrites the list and the
    weight of an edge that exists. No edge is new here, so there is no cycle
    to check for. *)
Definition UpdateEdge (g : TaskfileGraph) (src dst : string) (data : list Include)
    (weight : Z) : result TaskfileGraph :=
  match edges g !! (src, dst) with
  | None => inl ErrEdgeNotFound
  | Some _ => inr (mkGraph (vertices g) (<[(src, dst) := mkEdge data weight]> (edges g)))
  end.

(** Every edge carries at least one include, and its weight is the number
    of includes it carries. *)
Definition weighted (g : TaskfileGraph) : Prop :=
  ∀ pair edge, edges g !! pair = Some edge →
    Edge_Data edge ≠ [] ∧ Edge_Weight edge = Z.of_nat (length (Edge_Data edge)).

(** The edge relation of a graph, and what it is for it to have no cycle. *)
Definition edge_rel (E : gmap (string * string) Edge) (a b : string) : Prop :=
  is_Some (E !! (a, b)).
Definition acyclic (E : gmap (string * string) Edge) : Prop :=
  ∀ a, ¬ tc (edge_rel E) a a.

(** A path along the edges from one location to another that stays clear of
    the locations in [X]. *)
Inductive walk (E : gmap (string * string) Edge) (X : gset string)
    : string → string → Prop :=
| walk_here a : a ∉ X → walk E X a a
| walk_edge a c b : a ∉ X → edge_rel E a c → walk E X c b → walk E X a b.

(** The edges that leave a location outside [X]: what bounds the search. *)
Definition unexplored (E : gmap (string * string) Edge) (X : gset string) : nat :=
  size (filter (λ k, fst k ∉ X) (dom E)).

(** ** [Reader.include] (reader.go, lines 72 to 180)

    [include] starts one goroutine per include of the document it has read
    and waits for all of them; each goroutine calls [include] again. The
    calls in flight form a tree, and what the goroutines share is the graph,
    the world, and (for the proofs) the list of locations handed to
    [readNode]. One step of the machine is one step of one goroutine: the
    resolution of an include, the claim of a vertex, a call of [readNode],
    the return of [g.Wait()], or the update of an edge under the lock. Which
    goroutine moves is for the schedule to choose. *)
Section ReaderInclude.
Context {Node RemoteNode : Type} `{!Collaborators Node RemoteNode}.

Record Shared := mkShared {
  graph : TaskfileGraph;
  world : World Node;
  loaded : list string }.

(** Where a call of [include] returns to: [Reader.Read] (line 65), or the
    goroutine that called it at line 141 for an include of [node]. *)
Inductive kont :=
| KRead
| KGo (node : Node) (include : Include) (includeNode : Node).

(** A goroutine, or the caller of [Read], by the line it is about to run. *)
Inductive thread :=
| Spawned (node : Node) (vars : gmap string string) (include : Include)  (* 104 *)
| Claiming (k : kont) (node : Node)                                      (* 74 *)
| Reading (k : kont) (node : Node)                                       (* 90 *)
| Waiting (k : kont) (first : option error) (gs : list thread)           (* 179 *)
| Linking (node : Node) (include : Include) (includeNode : Node)         (* 146 *)
| Finished (err : option error).

Definition is_finished (t : thread) : bool :=
  match t with Finished _ => true | _ => false end.

(** Modelled from the spec: [ast.Vars.Merge] (which [reader.go] only
    calls), after section 4.4, step 5a: the process environment merged with
    the variables of the document, which take precedence. *)
Definition Merge (vars other : gmap string string) : gmap string string :=
  other ∪ vars.

(** Modelled from the spec: the substitution of the two template fields of
    an include with one [templater.Cache], and [cache.Err()] after it (the
    templater is only called by [reader.go]), after section 6: a
    substitution error does not stop the next substitution, and the error
    observed afterwards is the first one. *)
Definition Replace_fields (taskfile dir : string) (vars : gmap string string)
    : result (string * string) :=
  match Replace taskfile vars, Replace dir vars with
  | inl err, _ => inl err
  | inr _, inl err => inl err
  | inr taskfile, inr dir => inr (taskfile, dir)
  end.

(** Lines 104 to 138: the resolved include and the node of its target,
    [None] when an optional include is dropped. *)
Definition resolve (r : Reader) (node : Node) (vars : gmap string string)
    (include : Include) : result (option (Include * Node)) :=
  match Replace_fields (Include_Taskfile include) (Include_Dir include) vars with
  | inl err => inl err                                            (* 105-118 *)
  | inr (taskfile, dir) =>
      match ResolveEntrypoint node taskfile with                  (* 120-123 *)
      | inl err => inl err
      | inr entrypoint =>
          match ResolveDir node dir with                          (* 125-128 *)
          | inl err => inl err
          | inr dir =>
              let include :=
                mkInclude (Include_Namespace include) taskfile dir
                  (Include_Optional include) (Include_Internal include)
                  (Include_Flatten include) (Include_Aliases include)
                  (Include_AdvancedImport include) (Include_Vars include) in
              match NewNode entrypoint dir (insecure r) (timeout r) node with  (* 130 *)
              | inl err => if Include_Optional include then inr None else inl err
              | inr includeNode => inr (Some (include, includeNode))
              end
          end
      end
  end.

(** Lines 146 to 173, run under the lock of the graph. [Edge_of] has no
    error but [ErrEdgeNotFound] to give, so the branch of line 157 is taken
    with an edge that exists; the first case below never takes its second
    branch. *)
Definition link (g : TaskfileGraph) (node : Node) (include : Include)
    (includeNode : Node) : TaskfileGraph * option error :=
  let src := Location_of node in
  let dst := Location_of includeNode in
  let updated :=
    match Edge_of g src dst with                                  (* 148 *)
    | inl err =>
        if decide (err = ErrEdgeNotFound)
        then AddEdge g src dst [include] 1                        (* 151-156 *)
        else UpdateEdge g src dst [include] 1
    | inr edge =>
        let edgeData := Edge_Data edge ++ [include] in            (* 159 *)
        UpdateEdge g src dst edgeData (Z.of_nat (length edgeData))
    end in
  match updated with
  | inr g' => (g', None)
  | inl err =>
      if errors_Is err ErrEdgeCreatesCycle                        (* 167 *)
      then (g, Some (TaskfileCycleError src dst))
      else (g, Some err)                                          (* 173 *)
  end.

(** The return of [include] with [err] to its caller: [Read] returns it;
    the goroutine of line 141 returns an error at once and goes on to
    the edge otherwise. *)
Definition return_to (k : kont) (err : option error) : thread :=
  match k, err with
  | KRead, _ => Finished err
  | KGo _ _ _, Some e => Finished (Some e)                        (* 141-143 *)
  | KGo node include includeNode, None => Linking node include includeNode
  end.

(** What [errgroup.Group] keeps of a goroutine that has just moved from
    [g] to [g']: the first error returned by any of its goroutines. *)
Definition record (first : option error) (g g' : thread) : option error :=
  match first, is_finished g, g' with
  | None, false, Finished (Some e) => Some e
  | _, _, _ => first
  end.

(** Lines 99 to 176: one goroutine per include, in the order of [Range]. *)
Definition spawn (node : Node) (tf : Taskfile) : list thread :=
  map (λ kv, Spawned node (Merge GetEnviron (Taskfile_Vars tf)) (snd kv))
      (Taskfile_Includes tf).

(** One step of the thread that [path] leads to: at a [Waiting] thread the
    head of the path picks one of its goroutines, and the empty path is the
    return of [g.Wait()], possible once they have all finished. *)
Fixpoint step (r : Reader) (path : list nat) (t : thread) (σ : Shared)
    {struct path} : thread * Shared :=
  match t with
  | Spawned node vars include =>
      match resolve r node vars include with
      | inl err => (Finished (Some err), σ)
      | inr None => (Finished None, σ)                            (* 135 *)
      | inr (Some (include, includeNode)) =>
          (Claiming (KGo node include includeNode) includeNode, σ) (* 141 *)
      end
  | Claiming k node =>
      match AddVertex (graph σ) (Location_of node) None with      (* 74-82 *)
      | inl err =>
          if decide (err = ErrVertexAlreadyExists)
          then (return_to k None, σ)                              (* 83 *)
          else (return_to k (Some err), σ)                        (* 85 *)
      | inr g => (Reading k node, mkShared g (world σ) (loaded σ))
      end
  | Reading k node =>
      let '(x, w) := readNode r node (world σ) in                 (* 90 *)
      let seen := loaded σ ++ [Location_of node] in
      match x with
      | inl err => (return_to k (Some err), mkShared (graph σ) w seen)  (* 92 *)
      | inr (tf, node') =>
          let g := mkGraph (alter (λ _, Some tf) (Location_of node) (vertices (graph σ)))
                         (edges (graph σ)) in                     (* 90: vertex.Taskfile *)
          (Waiting k None (spawn node' tf), mkShared g w seen)
      end
  | Waiting k first gs =>
      match path with
      | [] =>
          if forallb is_finished gs
          then (return_to k first, σ)                             (* 179 *)
          else (t, σ)
      | i :: path =>
          match gs !! i with
          | None => (t, σ)
          | Some g =>
              let '(g', σ') := step r path g σ in
              (Waiting k (record first g g') (<[i := g']> gs), σ')
          end
      end
  | Linking node include includeNode =>
      let '(g, err) := link (graph σ) node include includeNode in  (* 146-173 *)
      (Finished err, mkShared g (world σ) (loaded σ))
  | Finished _ => (t, σ)
  end.

(** The thread that [step] moves when given [path]. *)
Fixpoint focus (path : list nat) (t : thread) {struct path} : option thread :=
  match t, path with
  | Waiting _ _ gs, i :: path => g ← gs !! i; focus path g
  | _, _ => Some t
  end.

(** A run under a schedule: one path per step. *)
Definition run (r : Reader) (schedule : list (list nat)) (c : thread * Shared)
    : thread * Shared :=
  fold_left (λ c path, step r path (fst c) (snd c)) schedule c.

(** *** [include] as it reads

    The function with its goroutines run one after the other, each to its
    end, in the order of [Range]: one of the schedules of the machine
    ([include_is_a_run] below). The fuel bounds the depth of the recursion;
    [None] is a run that would go deeper. *)

(** The first error of a group ([errOnce] of [errgroup.Group]). *)
Definition first_error (first err : option error) : option error :=
  match first with Some _ => first | None => err end.

(** The body of the goroutine of lines 103 to 174, given [include] for the
    recursion. *)
Definition goroutine (r : Reader)
    (include : Node → Shared → option (option error * Shared))
    (node : Node) (vars : gmap string string) (inc : Include) (σ : Shared)
    : option (option error * Shared) :=
  match resolve r node vars inc with                               (* 104-138 *)
  | inl err => Some (Some err, σ)
  | inr None => Some (None, σ)
  | inr (Some (inc, includeNode)) =>
      match include includeNode σ with                             (* 141 *)
      | None => None
      | Some (Some err, σ) => Some (Some err, σ)
      | Some (None, σ) =>
          let '(g, err) := link (graph σ) node inc includeNode in  (* 146-173 *)
          Some (err, mkShared g (world σ) (loaded σ))
      end
  end.

(** Lines 99 to 179: the goroutines of the includes, one after the other,
    and what [g.Wait()] returns. *)
Fixpoint goroutines (run1 : Include → Shared → option (option error * Shared))
    (incs : list (string * Include)) (first : option error) (σ : Shared)
    : option (option error * Shared) :=
  match incs with
  | [] => Some (first, σ)
  | kv :: incs =>
      match run1 (snd kv) σ with
      | None => None
      | Some (err, σ) => goroutines run1 incs (first_error first err) σ
      end
  end.

(** Lines 72 to 180, given [include] for the recursion. *)
Definition include_body (r : Reader)
    (include : Node → Shared → option (option error * Shared))
    (node : Node) (σ : Shared) : option (option error * Shared) :=
  match AddVertex (graph σ) (Location_of node) None with           (* 74-82 *)
  | inl err =>
      if decide (err = ErrVertexAlreadyExists)
      then Some (None, σ)                                          (* 83 *)
      else Some (Some err, σ)                                      (* 85 *)
  | inr g =>
      let '(x, w) := readNode r node (world σ) in                  (* 90 *)
      let seen := loaded σ ++ [Location_of node] in
      match x with
      | inl err => Some (Some err, mkShared g w seen)              (* 92 *)
      | inr (tf, node') =>
          let g := mkGraph (alter (λ _, Some tf) (Location_of node) (vertices g))
                           (edges g) in                            (* 90: vertex.Taskfile *)
          goroutines
            (goroutine r include node' (Merge GetEnviron (Taskfile_Vars tf)))
            (Taskfile_Includes tf) None (mkShared g w seen)        (* 99-179 *)
      end
  end.

Fixpoint include (r : Reader) (fuel : nat) : Node → Shared → option (option error * Shared) :=
  include_body r (match fuel with
                  | O => λ _ _, None
                  | S fuel => include r fuel
                  end).

(** [Reader.Read] (lines 63 to 70) as it reads. *)
Definition Reader_Read (r : Reader) (fuel : nat) (node : Node) (w : World Node)
    : option (result TaskfileGraph) :=
  match include r fuel node (mkShared NewTaskfileGraph w []) with
  | None => None
  | Some (Some err, _) => Some (inl err)
  | Some (None, σ) => Some (inr (graph σ))
  end.

(** What it is for [include], or a function in its place, to be matched by
    the machine of goroutines: its result is the result of a run. *)
Definition matched (r : Reader) (include : Node → Shared → option (option error * Shared))
    : Prop :=
  ∀ node σ err σ' k,
    include node σ = Some (err, σ') →
    ∃ schedule, run r schedule (Claiming k node, σ) = (return_to k err, σ').

(** [Reader.Read] (lines 63 to 70) starts [include] on the node of the
    reader, over the empty graph of [NewReader]. *)
Definition start (node : Node) (w : World Node) : thread * Shared :=
  (Claiming KRead node, mkShared NewTaskfileGraph w []).

(** What [Read] has returned, if it has. *)
Definition Read_result (c : thread * Shared) : option (result TaskfileGraph) :=
  match fst c with
  | Finished None => Some (inr (graph (snd c)))
  | Finished (Some err) => Some (inl err)
  | _ => None
  end.

(** The locations that have been claimed and not yet handed to [readNode]. *)
Fixpoint pending (t : thread) : list string :=
  match t with
  | Reading _ node => [Location_of node]
  | Waiting _ _ gs => flat_map pending gs
  | _ => []
  end.

(** A thread has failed when a goroutine under it has returned an error
    that its group has recorded or that is its own result. *)
Fixpoint failed (t : thread) : bool :=
  match t with
  | Finished (Some _) => true
  | Waiting _ first gs => bool_decide (is_Some first) || existsb failed gs
  | _ => false
  end.

(** The threads that wait for goroutines. *)
Definition is_waiting (t : thread) : bool :=
  match t with Waiting _ _ _ => true | _ => false end.

(** The goroutines that have returned an error. *)
Definition returned_error (t : thread) : bool :=
  match t with Finished (Some _) => true | _ => false end.

(** A group has recorded an error as soon as one of its goroutines has
    returned one. *)
Fixpoint recorded (t : thread) : bool :=
  match t with
  | Waiting _ first gs =>
      forallb recorded gs &&
      (bool_decide (is_Some first) || forallb (λ g, negb (returned_error g)) gs)
  | _ => true
  end.

(** Two schedulers, to run examples: the path to the leftmost thread that
    can move, and the paths to all of them. *)
Fixpoint leftmost (t : thread) : option (list nat) :=
  match t with
  | Finished _ => None
  | Waiting _ _ gs =>
      match (fix first (i : nat) (gs : list thread) : option (list nat) :=
               match gs with
               | [] => None
               | g :: gs => match leftmost g with
                            | Some p => Some (i :: p)
                            | None => first (S i) gs
                            end
               end) O gs with
      | Some p => Some p
      | None => Some []
      end
  | _ => Some []
  end.

Fixpoint frontier (t : thread) : list (list nat) :=
  match t with
  | Finished _ => []
  | Waiting _ _ gs =>
      match (fix all (i : nat) (gs : list thread) : list (list nat) :=
               match gs with
               | [] => []
               | g :: gs => map (cons i) (frontier g) ++ all (S i) gs
               end) O gs with
      | [] => [[]]
      | ps => ps
      end
  | _ => [[]]
  end.

(** Depth first: the schedule that always moves the leftmost thread. *)
Fixpoint leftmost_schedule (r : Reader) (steps : nat) (c : thread * Shared)
    : list (list nat) :=
  match steps with
  | O => []
  | S steps =>
      match leftmost (fst c) with
      | None => []
      | Some p => p :: leftmost_schedule r steps (step r p (fst c) (snd c))
      end
  end.

(** Round robin: the schedule in which every thread that can move takes one
    step per round. *)
Fixpoint rounds_schedule (r : Reader) (rounds : nat) (c : thread * Shared)
    : list (list nat) :=
  match rounds with
  | O => []
  | S rounds =>
      frontier (fst c) ++ rounds_schedule r rounds (run r (frontier (fst c)) c)
  end.

Definition run_leftmost (r : Reader) (steps : nat) (c : thread * Shared)
    : thread * Shared :=
  run r (leftmost_schedule r steps c) c.

Definition run_rounds (r : Reader) (rounds : nat) (c : thread * Shared)
    : thread * Shared :=
  run r (rounds_schedule r rounds c) c.
End ReaderInclude.
Arguments Shared : clear implicits.
Arguments kont : clear implicits.
Arguments thread : clear implicits.

(** ** Example collaborators

    A small world to run the reader in: local files, remote files and cached
    copies, named by their location. The content of a document is its
    location, so that [Unmarshal] can look the parsed document up. *)
Module Example.
Inductive ENode :=
| ELocal (path : string)
| ERemote (url : string)
| ECached (url : string).

Record Scenario := mkScenario {
  sc_docs : string → option Taskfile;          (* what a content parses to *)
  sc_fetch : string → result source;           (* what the network answers *)
  sc_node : string → result ENode;             (* what NewNode builds *)
  sc_prompt : option error }.                  (* what the user answers *)

Definition location (n : ENode) : string :=
  match n with ELocal p => p | ERemote u => u | ECached u => u end.

#[local] Instance collaborators (sc : Scenario) : Collaborators ENode string := {|
  Location_of := location;
  ResolveEntrypoint := λ _ s, inr s;
  ResolveDir := λ _ s, inr s;
  asRemote := λ n, match n with ERemote u => Some u | _ => None end;
  ofRemote := ERemote;
  NewNode := λ entrypoint _ _ _ _, sc_node sc entrypoint;
  Read := λ _ n, match n with
                 | ELocal p => inr (mkSource p "/work")
                 | ERemote u => sc_fetch sc u
                 | ECached u => inr (mkSource u "/cache")
                 end;
  Unmarshal := λ content, match sc_docs sc content with
                          | Some tf => inr tf
                          | None => inl (ErrOther "not a taskfile")
                          end;
  Replace := λ s _, inr s;
  GetEnviron := ∅;
  TryAbsToRel := λ s, s;
  Quote := λ s, "'" +:+ s +:+ "'";
  checksumSource := λ src, inr ("sum of " +:+ FileContent src);
  NewCache := λ _ _, None;
  cache_read_fault := λ _ _, None;
  cache_write_fault := λ _ _, None;
  cachedNode := λ u _, ECached u;
  writtenNode := λ u _, u;
  Prompt := λ _ _, sc_prompt sc |}.

Definition plain (namespace target : string) (optional : bool) : Include :=
  mkInclude namespace target EmptyString optional false false [] false [].

Definition doc (tasks : list (string * option Task)) (includes : list (string * Include))
    : Taskfile :=
  mkTaskfile EmptyString (Some "3") ∅ tasks includes.

Definition local_node (entrypoint : string) : result ENode := inr (ELocal entrypoint).

Definition no_fetch (url : string) : result source := inl (ErrOther "no network").

(** A includes B and C, and both include D. *)
Definition diamond : Scenario :=
  mkScenario
    (λ content,
       if decide (content = "A") then Some (doc [] [("b", plain "b" "B" false);
                                                    ("c", plain "c" "C" false)])
       else if decide (content = "B") then Some (doc [] [("d", plain "d" "D" false)])
       else if decide (content = "C") then Some (doc [] [("d", plain "d" "D" false)])
       else if decide (content = "D") then Some (doc [] [])
       else None)
    no_fetch local_node None.

(** A includes B twice, under two namespaces. *)
Definition twice : Scenario :=
  mkScenario
    (λ content,
       if decide (content = "A") then Some (doc [] [("x", plain "x" "B" false);
                                                    ("y", plain "y" "B" false)])
       else if decide (content = "B") then Some (doc [] [])
       else None)
    no_fetch local_node None.

(** A includes B and B includes A. *)
Definition loop : Scenario :=
  mkScenario
    (λ content,
       if decide (content = "A") then Some (doc [] [("b", plain "b" "B" false)])
       else if decide (content = "B") then Some (doc [] [("a", plain "a" "A" false)])
       else None)
    no_fetch local_node None.

(** A includes B and a target for which no node can be built. *)
Definition unreachable (optional : bool) : Scenario :=
  mkScenario
    (λ content,
       if decide (content = "A") then Some (doc [] [("b", plain "b" "B" false);
                                                    ("u", plain "u" "U" optional)])
       else if decide (content = "B") then Some (doc [] [])
       else None)
    no_fetch
    (λ entrypoint, if decide (entrypoint = "U") then inl (ErrOther "unreachable host")
                   else inr (ELocal entrypoint))
    None.

(** A remote document, fetched as the scenario says. *)
Definition remote_doc (fetch : string → result source) (answer : option error) : Scenario :=
  mkScenario
    (λ content, if decide (content = "T") then
                  Some (doc [("build", Some (mkTask "build" (mkLocation EmptyString EmptyString)));
                             ("lint", Some (mkTask "lint" (mkLocation "elsewhere" EmptyString)));
                             ("none", None)] [])
                else None)
    fetch local_node answer.

Definition fetched (url : string) : result source := inr (mkSource "T" "/remote").
Definition timed_out (t : Z) (url : string) : result source :=
  inl (Wrapped "fetch" (TaskfileNetworkTimeoutError url t false)).

(** The vertices and the edges of the graph that [Read] returns. *)
Definition shape (res : option (result TaskfileGraph))
    : option (result (gset string * gset (string * string))) :=
  match res with
  | None => None
  | Some (inl err) => Some (inl err)
  | Some (inr g) => Some (inr (dom (vertices g), dom (edges g)))
  end.

Definition url : string := "https://example.com/Taskfile.yml".
Definition online : Reader := mkReader false false false 10 "/tmp".
Definition offline_reader : Reader := mkReader false false true 10 "/tmp".
Definition forced : Reader := mkReader false true false 10 "/tmp".

Definition empty_world : World ENode := mkWorld ∅ [].
(** The cache holds the checksum of the content that [fetched] gives. *)
Definition trusted_world : World ENode :=
  mkWorld {[ url := mkCacheEntry (mkSource "T" "/remote") "sum of T" ]} [].
(** The cache holds the checksum of some other content. *)
Definition stale_world : World ENode :=
  mkWorld {[ url := mkCacheEntry (mkSource "T0" "/remote") "sum of T0" ]} [].
End Example.


(** ** What a run is observed to do, and how a graph grows *)

Section Observations.
Context {Node RemoteNode : Type} `{!Collaborators Node RemoteNode}.

(** How many events of a kind a trace has. *)
Definition count (kind : Event Node → bool) (evs : list (Event Node)) : nat :=
  length (List.filter kind evs).

Definition is_cache_read (e : Event Node) : bool :=
  match e with EvCacheRead _ => true | _ => false end.

(** The two events of a file that is read and parsed. *)
Definition is_file_event (e : Event Node) : bool :=
  match e with EvRead _ | EvUnmarshal _ => true | _ => false end.

(** A node that is not a [RemoteNode] pointer (the type assertion of line
    228 fails). *)
Definition is_local (n : Node) : bool :=
  match asRemote n with None => true | Some _ => false end.

(** The nodes a thread is about to hand to [readNode] are local. *)
Fixpoint reads_local (t : thread Node) : bool :=
  match t with
  | Claiming _ node | Reading _ node => is_local node
  | Waiting _ _ gs => forallb reads_local gs
  | _ => true
  end.

(** The events of [loadNode] up to the checksums (lines 233 to 283), when
    the fetch gives a document. *)
Definition fetched_events (r : Reader) (remote : RemoteNode) : list (Event Node) :=
  [EvNewCache (tempDir r); EvRead (ofRemote remote);
   EvLog ("task: [" +:+ remote_Location remote +:+ "] Fetched remote copy" +:+ nl);
   EvCacheReadChecksum (ofRemote remote); EvChecksum (ofRemote remote)].

(** The events of an accepted prompt up to the write of line 301. *)
Definition accepted_events (r : Reader) (remote : RemoteNode) (prompt : string)
    : list (Event Node) :=
  fetched_events r remote ++
  [EvPrompt prompt;
   EvLog ("task: [" +:+ remote_Location remote +:+ "] Caching downloaded file" +:+ nl)].

(** The fault of [cache.write] at line 301. *)
Definition write_fault (r : Reader) (remote : RemoteNode) (w : World Node)
    (prompt : string) : option error :=
  cache_write_fault (trace w ++ accepted_events r remote prompt) remote.

(** The reader with another answer to whether a download is forced. *)
Definition with_download (r : Reader) (download : bool) : Reader :=
  mkReader (insecure r) download (offline r) (timeout r) (tempDir r).

(** Lines 193 to 224 of [readNode]: the document of a source that has been
    read, or the error that refuses it. *)
Definition readNode_decode (node : Node) (src : source) : result (Taskfile * Node) :=
  match Unmarshal (FileContent src) with                          (* 194 *)
  | inl err =>
      match errors_As_decode err with                             (* 197 *)
      | Some d => inl (WithFileInfo d (Location_of node) (FileContent src) 2)
      | None => inl (TaskfileInvalidError (TryAbsToRel (Location_of node)) err)
      end
  | inr tf =>
      match Taskfile_Version tf with                              (* 204 *)
      | None => inl (TaskfileVersionCheckError (Location_of node))
      | Some _ =>
          inr (mkTaskfile (Location_of node) (Taskfile_Version tf) (Taskfile_Vars tf)
                 (stamp_tasks (Location_of node) (FileDirectory src) (Taskfile_Tasks tf))
                 (Taskfile_Includes tf),
               node)
      end
  end.

(** Every vertex holds a document, and the document has a schema version. *)
Definition filled (g : TaskfileGraph) : Prop :=
  ∀ l v, vertices g !! l = Some v → ∃ tf, v = Some tf ∧ is_Some (Taskfile_Version tf).

(** [g'] has what [g] has: its vertices, the documents they hold, and its
    edges, whose lists of includes may be longer at the end. *)
Definition grows (g g' : TaskfileGraph) : Prop :=
  (∀ l, is_Some (vertices g !! l) → is_Some (vertices g' !! l)) ∧
  (∀ l tf, vertices g !! l = Some (Some tf) → vertices g' !! l = Some (Some tf)) ∧
  (∀ pair e, edges g !! pair = Some e →
     ∃ e', edges g' !! pair = Some e' ∧ Edge_Data e `prefix_of` Edge_Data e').

(** The node handles that [loadNode] can return in place of a remote node
    (the node itself, the copy that [cache.read] gives, the node that
    [cache.write] gives) have the location of the node. *)
Definition handles_keep_location : Prop :=
  (∀ n remote, asRemote n = Some remote → remote_Location remote = Location_of n) ∧
  (∀ remote src, Location_of (cachedNode remote src) = remote_Location remote) ∧
  (∀ remote src, remote_Location (writtenNode remote src) = remote_Location remote).

(** The vertices along a run: the claimed locations are the vertices, each
    of them once; the vertex of a location that waits for [readNode] holds
    nil; a vertex that holds nil waits for [readNode], unless a goroutine
    has failed; and a document that a vertex holds has a schema version. *)
Definition consistent (t : thread Node) (σ : Shared Node) : Prop :=
  NoDup (loaded σ ++ pending t) ∧
  dom (vertices (graph σ)) = list_to_set (loaded σ ++ pending t) ∧
  recorded t = true ∧
  (∀ l, l ∈ pending t → vertices (graph σ) !! l = Some None) ∧
  (∀ l, vertices (graph σ) !! l = Some None → l ∈ pending t ∨ failed t = true) ∧
  (∀ l tf, vertices (graph σ) !! l = Some (Some tf) → is_Some (Taskfile_Version tf)).

(** An include of a document that was read from [node] is in the graph:
    it was not refused; and unless it was optional and dropped, the location
    of its node is a vertex, and the edge from the location of [node] to it
    carries the include as the goroutine resolved it. *)
Definition linked (r : Reader) (g : TaskfileGraph) (node : Node)
    (vars : gmap string string) (inc : Include) : Prop :=
  match resolve r node vars inc with
  | inl _ => False
  | inr None => True
  | inr (Some (inc', child)) =>
      is_Some (vertices g !! Location_of child) ∧
      ∃ e, edges g !! (Location_of node, Location_of child) = Some e ∧
           inc' ∈ Edge_Data e
  end.

(** The document [tf] at the vertex [l] came from [readNode] on a node of
    that location, and each of its includes is in the graph. *)
Definition document_linked (r : Reader) (g : TaskfileGraph) (l : string) (tf : Taskfile)
    : Prop :=
  ∃ n w node,
    Location_of n = l ∧ fst (readNode r n w) = inr (tf, node) ∧
    Forall (λ kv, linked r g node (Merge GetEnviron (Taskfile_Vars tf)) (snd kv))
           (Taskfile_Includes tf).

(** [g'] has the vertices of [g] and its edges, whose lists of includes
    may be longer at the end. *)
Definition extends (g g' : TaskfileGraph) : Prop :=
  (∀ l, is_Some (vertices g !! l) → is_Some (vertices g' !! l)) ∧
  (∀ pair e, edges g !! pair = Some e →
     ∃ e', edges g' !! pair = Some e' ∧ Edge_Data e `prefix_of` Edge_Data e').

(** A goroutine of the document that was read from [node] is at work on
    the include [inc] of the document: it is about to resolve it, or it
    has resolved it to the include and the node it holds, or it has
    returned, with an error or with the include in the graph. *)
Definition works_on (r : Reader) (g : TaskfileGraph) (node : Node)
    (vars : gmap string string) (inc : Include) (th : thread Node) : Prop :=
  match th with
  | Spawned node0 vars0 inc0 => node0 = node ∧ vars0 = vars ∧ inc0 = inc
  | Claiming (KGo node0 inc' child) child' =>
      node0 = node ∧ child' = child ∧ resolve r node vars inc = inr (Some (inc', child))
  | Reading (KGo node0 inc' child) child' =>
      node0 = node ∧ child' = child ∧ resolve r node vars inc = inr (Some (inc', child)) ∧
      is_Some (vertices g !! Location_of child)
  | Waiting (KGo node0 inc' child) _ _ | Linking node0 inc' child =>
      node0 = node ∧ resolve r node vars inc = inr (Some (inc', child)) ∧
      is_Some (vertices g !! Location_of child)
  | Finished None => linked r g node vars inc
  | Finished (Some _) => True
  | _ => False
  end.

(** The includes of the document [tf] at [l] are still being explored: a
    call of [include] in the thread waits for the goroutines of the
    document. *)
Fixpoint tending (r : Reader) (g : TaskfileGraph) (l : string) (tf : Taskfile)
    (t : thread Node) : Prop :=
  match t with
  | Waiting _ _ gs =>
      (∃ n w node,
         Location_of n = l ∧ fst (readNode r n w) = inr (tf, node) ∧
         Forall2 (λ kv th, works_on r g node (Merge GetEnviron (Taskfile_Vars tf)) (snd kv) th)
                 (Taskfile_Includes tf) gs) ∨
      (fix any (gs : list (thread Node)) : Prop :=
         match gs with
         | [] => False
         | th :: gs => tending r g l tf th ∨ any gs
         end) gs
  | _ => False
  end.

(** The documents along a run: a document at a vertex has its includes in
    the graph, unless a goroutine has failed or the includes of the document
    are still being explored. *)
Definition linking (r : Reader) (t : thread Node) (σ : Shared Node) : Prop :=
  ∀ l tf, vertices (graph σ) !! l = Some (Some tf) →
    document_linked r (graph σ) l tf ∨ failed t = true ∨ tending r (graph σ) l tf t.

(** [Reader.Read] (lines 63 to 70) on a reader whose graph is [g] already:
    [include] runs over the graph the reader holds. *)
Definition Reader_Read_again (r : Reader) (fuel : nat) (node : Node) (σ : Shared Node)
    : option (result TaskfileGraph * Shared Node) :=
  match include r fuel node σ with
  | None => None
  | Some (Some err, σ') => Some (inl err, σ')
  | Some (None, σ') => Some (inr (graph σ'), σ')
  end.
End Observations.

(** ** Example collaborators that fail

    The world of [Example] with a cache, a checksum and a parser that can
    fail, and a network whose answers may change from one read to the next. *)
Module Faulty.
Import Example.

Record Faults := mkFaults {
  fl_newCache : option error;            (* what NewCache answers *)
  fl_cache_read : option error;          (* the fault of cache.read *)
  fl_cache_write : option error;         (* the fault of cache.write *)
  fl_checksum : option error;            (* the fault of checksumSource *)
  fl_fetch : nat → result source;        (* the answer to the n-th read of the network *)
  fl_docs : string → result Taskfile;    (* what a content parses to *)
  fl_prompt : option error }.            (* what the user answers *)

#[local] Instance faulty (f : Faults) : Collaborators ENode string := {|
  Location_of := location;
  ResolveEntrypoint := λ _ s, inr s;
  ResolveDir := λ _ s, inr s;
  asRemote := λ n, match n with ERemote u => Some u | _ => None end;
  ofRemote := ERemote;
  NewNode := λ entrypoint _ _ _ _, inr (ELocal entrypoint);
  Read := λ t n, match n with
                 | ELocal p => inr (mkSource p "/work")
                 | ERemote u => fl_fetch f (length (List.filter is_read t))
                 | ECached u => inr (mkSource u "/cache")
                 end;
  Unmarshal := fl_docs f;
  Replace := λ s _, inr s;
  GetEnviron := ∅;
  TryAbsToRel := λ s, "./" +:+ s;
  Quote := λ s, "'" +:+ s +:+ "'";
  checksumSource := λ src, match fl_checksum f with
                           | Some e => inl e
                           | None => inr ("sum of " +:+ FileContent src)
                           end;
  NewCache := λ _ _, fl_newCache f;
  cache_read_fault := λ _ _, fl_cache_read f;
  cache_write_fault := λ _ _, fl_cache_write f;
  cachedNode := λ u _, ECached u;
  writtenNode := λ u _, u;
  Prompt := λ _ _, fl_prompt f |}.

(** Every content parses to a document with one task and no include. *)
Definition any_doc (content : string) : result Taskfile :=
  inr (doc [(content, Some (mkTask content (mkLocation EmptyString EmptyString)))] []).

(** The network answers with the content T every time. *)
Definition steady (n : nat) : result source := inr (mkSource "T" "/remote").

(** The network answers with T first and with another content afterwards. *)
Definition swapped (n : nat) : result source :=
  match n with
  | O => inr (mkSource "T" "/remote")
  | S _ => inr (mkSource "T2" "/remote")
  end.

(** T does not decode, V parses to a document without a schema version,
    and nothing else is a document at all. *)
Definition broken_doc (content : string) : result Taskfile :=
  if decide (content = "T")
  then inl (Wrapped "yaml" (TaskfileDecodeError "line 3: bad indentation" None))
  else if decide (content = "V")
       then inr (mkTaskfile EmptyString None ∅ [] [])
       else inl (ErrOther "not yaml").

(** A includes B, and B is not a document. *)
Definition half_read : Scenario :=
  mkScenario
    (λ content,
       if decide (content = "A") then Some (doc [] [("b", plain "b" "B" false)])
       else None)
    no_fetch local_node None.

Definition no_faults : Faults := mkFaults None None None None steady any_doc None.
Definition no_cache : Faults :=
  mkFaults (Some (ErrOther "no temp dir")) None None None steady any_doc None.
Definition no_checksum : Faults :=
  mkFaults None None None (Some (ErrOther "unreadable")) steady any_doc None.
Definition disk_full : Faults :=
  mkFaults None None (Some (ErrOther "disk full")) None steady any_doc None.
Definition moving : Faults := mkFaults None None None None swapped any_doc None.
Definition broken : Faults := mkFaults None None None None steady broken_doc None.
End Faulty.
(** * Theorems *)

(** ** Tactics for the sequential code *)

(** Unfold the monad and the calls to the collaborators. *)
Ltac run_monad :=
  repeat (progress (unfold bind, ret, fail, try, emit, ask, lift, newCache, node_Read,
                      cache_read, cache_readChecksum, cache_write, logger_Prompt,
                      VerboseOutf, checksum_of;
                    cbn [fst snd cache trace])).

(** Follow every branch the code can take. *)
Ltac run_cases :=
  run_monad; repeat (case_match; run_monad; simplify_eq); cbn [fst snd cache trace].

(** Decide a closed proposition by evaluation. *)
Ltac by_evaluation :=
  first [apply bool_decide_unpack; vm_compute; exact I | vm_compute; reflexivity].

(** Go through the events added to a trace, one goal for each. *)
Ltac each_event He :=
  repeat (rewrite <- app_assoc in He); rewrite ?drop_app_length in He; cbn [app] in He;
  repeat (apply elem_of_cons in He as [->|He]); [..| by apply elem_of_nil in He].

Section LoadNodeFacts.
Context {Node RemoteNode : Type} `{!Collaborators Node RemoteNode}.
Implicit Types (r : Reader) (n : Node) (remote : RemoteNode) (w : World Node).

Lemma Sprintf_nonempty format location :
  fst format ≠ EmptyString → Sprintf format location ≠ EmptyString.
Proof.
  unfold Sprintf. destruct (fst format); [done|]. intros _. simpl. discriminate.
Qed.

(** No prompt is shown exactly when a checksum is cached and the fetched
    content has it. *)
Lemma trust_prompt_empty location cached sum :
  trust_prompt location cached sum = EmptyString ↔ cached ≠ EmptyString ∧ sum = cached.
Proof.
  unfold trust_prompt. repeat case_decide; split; try tauto.
  all: intros E; by apply Sprintf_nonempty in E.
Qed.

(** A local node passes through unchanged. *)
Lemma loadNode_local r n w : asRemote n = None → loadNode r n w = (inr n, w).
Proof. intros Hn. unfold loadNode. by rewrite Hn. Qed.

(** [loadNode] never parses, whatever it does. *)
Lemma loadNode_no_unmarshal r n w e :
  e ∈ events_of (loadNode r n) w → is_unmarshal e = false.
Proof.
  unfold events_of, loadNode. destruct (asRemote n) as [remote|].
  - run_cases; intros He; each_event He; done.
  - run_monad. rewrite drop_all. by intros ?%elem_of_nil.
Qed.

(** When [loadNode] fails, [readNode] fails with its error and does
    nothing more. *)
Lemma readNode_load_error r n w err :
  fst (loadNode r n w) = inl err →
  readNode r n w = (inl err, snd (loadNode r n w)).
Proof.
  intros Hl. unfold readNode, bind. destruct (loadNode r n w) as [[e|n'] w']; simpl in *; congruence.
Qed.

(** The run of [loadNode] when the fetch gives a document and a prompt is
    shown and declined. *)
Lemma loadNode_declined r n remote w src sum e :
  asRemote n = Some remote → offline r = false → cache_opened r w →
  fetch_answer r remote w = inr src → checksumSource src = inr sum →
  trust_prompt (remote_Location remote) (cachedChecksum_of remote w) sum ≠ EmptyString →
  prompt_answer r remote w
    (trust_prompt (remote_Location remote) (cachedChecksum_of remote w) sum) = Some e →
  loadNode r n w =
    (inl (TaskfileNotTrustedError (remote_Location remote)),
     mkWorld (cache w)
       (trace w ++ [EvNewCache (tempDir r); EvRead (ofRemote remote);
                    EvLog ("task: [" +:+ remote_Location remote +:+
                           "] Fetched remote copy" +:+ nl);
                    EvCacheReadChecksum (ofRemote remote);
                    EvChecksum (ofRemote remote);
                    EvPrompt (trust_prompt (remote_Location remote)
                                (cachedChecksum_of remote w) sum)])).
Proof.
  intros Hn Hoff Hopen Hfetch Hsum Hp Hans.
  unfold cache_opened, fetch_answer, prompt_answer, cachedChecksum_of, loadNode in *.
  rewrite Hn, Hoff. run_monad. rewrite Hopen. run_monad. rewrite Hfetch. run_monad.
  destruct (cache w !! remote_Location remote) as [ce|]; run_monad; rewrite Hsum;
    (case_decide; [|done]); run_monad; rewrite <- !app_assoc; cbn [app];
    rewrite Hans; reflexivity.
Qed.

(** The run of [loadNode] when the fetch times out and the cache is
    consulted. *)
Lemma loadNode_timeout r n remote w err te :
  asRemote n = Some remote → offline r = false → cache_opened r w →
  fetch_answer r remote w = inl err → errors_As_timeout err = Some te →
  loadNode r n w =
    if download r then
      (inl (TaskfileNetworkTimeoutError (remote_Location remote) (snd (fst te)) false),
       mkWorld (cache w) (trace w ++ [EvNewCache (tempDir r); EvRead (ofRemote remote)]))
    else
      match read_fault_fallback r remote w, cache w !! remote_Location remote with
      | Some e, _ =>
          (inl (if errors_Is e ErrNotExist
                then TaskfileNetworkTimeoutError (remote_Location remote) (timeout r) true
                else e),
           mkWorld (cache w) (trace w ++ [EvNewCache (tempDir r); EvRead (ofRemote remote);
                                          EvCacheRead (ofRemote remote)]))
      | None, None =>
          (inl (TaskfileNetworkTimeoutError (remote_Location remote) (timeout r) true),
           mkWorld (cache w) (trace w ++ [EvNewCache (tempDir r); EvRead (ofRemote remote);
                                          EvCacheRead (ofRemote remote)]))
      | None, Some ce =>
          (inr (cachedNode remote (ce_source ce)),
           mkWorld (cache w)
             (trace w ++ [EvNewCache (tempDir r); EvRead (ofRemote remote);
                          EvCacheRead (ofRemote remote);
                          EvLog ("task: [" +:+ remote_Location remote +:+
                                 "] Network timeout. Fetched cached copy" +:+ nl)]))
      end.
Proof.
  intros Hn Hoff Hopen Hfetch Hte. destruct te as [[u t] c].
  unfold cache_opened, fetch_answer, read_fault_fallback, loadNode in *.
  rewrite Hn, Hoff. run_monad. rewrite Hopen. run_monad. rewrite Hfetch. run_monad.
  rewrite Hte. destruct (download r); run_monad; rewrite <- ?app_assoc; cbn [app]; [done|].
  destruct (cache_read_fault _ remote) as [e|]; run_monad.
  - by destruct (errors_Is e ErrNotExist).
  - destruct (cache w !! remote_Location remote); run_monad;
      rewrite <- ?app_assoc; cbn [app]; done.
Qed.

(** The events of a run whose final trace is known. *)
Lemma events_of_run {A} (m : M Node A) w x c evs :
  m w = (x, mkWorld c (trace w ++ evs)) → events_of m w = evs.
Proof. intros E. unfold events_of. rewrite E. simpl. apply drop_app_length. Qed.

(** C4. In the remote load workflow, when the checksum of the freshly
    fetched content equals the checksum the cache holds for the source (the
    cache holds one: the empty string stands for none), [loadNode] shows no
    prompt and writes nothing to the cache: it returns the fetched node and
    leaves the cache as it was. *)
Theorem matching_checksum_is_noop r n remote w src sum :
  asRemote n = Some remote →
  offline r = false →
  cache_opened r w →
  fetch_answer r remote w = inr src →
  checksumSource src = inr sum →
  cachedChecksum_of remote w = sum →
  sum ≠ EmptyString →
  fst (loadNode r n w) = inr (ofRemote remote) ∧
  cache (snd (loadNode r n w)) = cache w ∧
  ∀ e, e ∈ events_of (loadNode r n) w → is_prompt e = false ∧ is_cache_write e = false.
Proof.
  intros Hn Hoff Hopen Hfetch Hsum Hcached Hne.
  assert (trust_prompt (remote_Location remote) (cachedChecksum_of remote w) sum
          = EmptyString) as Hp by (apply trust_prompt_empty; by subst).
  assert (loadNode r n w =
          (inr (ofRemote remote),
           mkWorld (cache w)
             (trace w ++ [EvNewCache (tempDir r); EvRead (ofRemote remote);
                          EvLog ("task: [" +:+ remote_Location remote +:+
                                 "] Fetched remote copy" +:+ nl);
                          EvCacheReadChecksum (ofRemote remote);
                          EvChecksum (ofRemote remote)]))) as Hrun.
  { clear Hcached. unfold cache_opened, fetch_answer, cachedChecksum_of, loadNode in *.
    rewrite Hn, Hoff. run_monad. rewrite Hopen. run_monad. rewrite Hfetch. run_monad.
    destruct (cache w !! remote_Location remote) as [ce|]; run_monad; rewrite Hsum;
      rewrite Hp; (case_decide; [done|]); rewrite <- !app_assoc; reflexivity. }
  rewrite (events_of_run _ _ _ _ _ Hrun), Hrun. split; [done|]. split; [done|].
  intros e He. repeat (apply elem_of_cons in He as [->|He]); try done.
  by apply elem_of_nil in He.
Qed.

(** C5. If a prompt is shown (no checksum is cached, or the cached one
    differs from that of the fetched content) and the user declines,
    [loadNode] fails with the not-trusted error of the location of the
    remote source; nothing is written to the cache, and [readNode], which
    fails with the same error, does not parse the content. *)
Theorem declined_prompt_not_trusted r n remote w src sum e :
  asRemote n = Some remote →
  offline r = false →
  cache_opened r w →
  fetch_answer r remote w = inr src →
  checksumSource src = inr sum →
  cachedChecksum_of remote w = EmptyString ∨ sum ≠ cachedChecksum_of remote w →
  prompt_answer r remote w
    (trust_prompt (remote_Location remote) (cachedChecksum_of remote w) sum) = Some e →
  fst (loadNode r n w) = inl (TaskfileNotTrustedError (remote_Location remote)) ∧
  fst (readNode r n w) = inl (TaskfileNotTrustedError (remote_Location remote)) ∧
  cache (snd (readNode r n w)) = cache w ∧
  (∃ msg, EvPrompt msg ∈ events_of (readNode r n) w) ∧
  ∀ ev, ev ∈ events_of (readNode r n) w →
        is_cache_write ev = false ∧ is_unmarshal ev = false.
Proof.
  intros Hn Hoff Hopen Hfetch Hsum Hshown Hans.
  assert (trust_prompt (remote_Location remote) (cachedChecksum_of remote w) sum
          ≠ EmptyString) as Hp.
  { intros [? ?]%trust_prompt_empty. destruct Hshown; congruence. }
  pose proof (loadNode_declined _ _ _ _ _ _ _ Hn Hoff Hopen Hfetch Hsum Hp Hans) as Hrun.
  pose proof (readNode_load_error r n w (TaskfileNotTrustedError (remote_Location remote)))
    as Hread.
  rewrite Hrun in Hread. specialize (Hread eq_refl). cbn [snd] in Hread.
  rewrite (events_of_run _ _ _ _ _ Hread), Hread, Hrun. cbn [fst snd cache].
  split; [done|]. split; [done|]. split; [done|]. split.
  - eexists. do 5 apply list_elem_of_further. apply list_elem_of_here.
  - intros ev Hev. repeat (apply elem_of_cons in Hev as [->|Hev]); try done.
    by apply elem_of_nil in Hev.
Qed.

(** C6. In offline mode the load of a remote node reads the cache and
    never calls [Read] on a node (no network fetch); if the cache has no
    entry for the source, [loadNode] fails with the cache-not-found error
    of the location of the source. *)
Theorem offline_reads_only_the_cache r n remote w :
  asRemote n = Some remote →
  offline r = true →
  (∀ e, e ∈ events_of (loadNode r n) w → is_read e = false) ∧
  (cache_opened r w → EvCacheRead (ofRemote remote) ∈ events_of (loadNode r n) w) ∧
  (cache_opened r w →
   read_fault_offline r remote w = None →
   cache w !! remote_Location remote = None →
   fst (loadNode r n w) = inl (TaskfileCacheNotFoundError (remote_Location remote))).
Proof.
  intros Hn Hoff. split; [|split].
  - intros e. unfold events_of, loadNode. rewrite Hn, Hoff.
    run_cases; intros He; each_event He; done.
  - intros Hopen. unfold events_of, loadNode, cache_opened in *. rewrite Hn, Hoff.
    run_monad. rewrite Hopen.
    run_cases; rewrite <- ?app_assoc, drop_app_length; cbn [app];
      apply list_elem_of_further, list_elem_of_here.
  - intros Hopen Hfault Hmiss.
    unfold loadNode, cache_opened, read_fault_offline in *. rewrite Hn, Hoff.
    run_monad. rewrite Hopen. run_monad. rewrite Hfault. run_monad. by rewrite Hmiss.
Qed.


(** C10. On the fallback after a timeout (neither offline nor forced
    download, and the cache has an entry), [loadNode] returns the cached
    copy as it is: it computes no checksum, shows no prompt and writes
    nothing to the cache. *)
Theorem timeout_fallback_skips_trust r n remote w err te ce :
  asRemote n = Some remote →
  offline r = false →
  download r = false →
  cache_opened r w →
  fetch_answer r remote w = inl err →
  errors_As_timeout err = Some te →
  read_fault_fallback r remote w = None →
  cache w !! remote_Location remote = Some ce →
  fst (loadNode r n w) = inr (cachedNode remote (ce_source ce)) ∧
  cache (snd (loadNode r n w)) = cache w ∧
  ∀ e, e ∈ events_of (loadNode r n) w →
       is_checksum e = false ∧ is_prompt e = false ∧ is_cache_write e = false.
Proof.
  intros Hn Hoff Hd Hopen Hfetch Hte Hfault Hhit.
  pose proof (loadNode_timeout _ _ _ _ _ _ Hn Hoff Hopen Hfetch Hte) as Hrun.
  rewrite Hd, Hfault, Hhit in Hrun.
  rewrite (events_of_run _ _ _ _ _ Hrun), Hrun. split; [done|]. split; [done|].
  intros e He. repeat (apply elem_of_cons in He as [->|He]); try done.
  by apply elem_of_nil in He.
Qed.
End LoadNodeFacts.

Section ReadNodeFacts.
Context {Node RemoteNode : Type} `{!Collaborators Node RemoteNode}.

(** What the loop of [readNode] leaves in each location field. *)
Lemma stamp_fields location dir task :
  Task_Name (stamp location dir task) = Task_Name task ∧
  Location_Taskfile (Task_Location (stamp location dir task)) =
    (if decide (Location_Taskfile (Task_Location task) = EmptyString)
     then location else Location_Taskfile (Task_Location task)) ∧
  Location_TaskfileDir (Task_Location (stamp location dir task)) =
    (if decide (Location_TaskfileDir (Task_Location task) = EmptyString)
     then dir else Location_TaskfileDir (Task_Location task)).
Proof. unfold stamp. repeat case_decide; simpl in *; done. Qed.

(** A second pass of the loop, with whatever location, changes nothing
    that the first has written. *)
Lemma stamp_again location dir location' dir' task :
  location ≠ EmptyString → dir ≠ EmptyString →
  stamp location' dir' (stamp location dir task) = stamp location dir task.
Proof.
  intros Hl Hd. destruct task as [name [tf td]].
  unfold stamp. simpl.
  destruct (decide (tf = EmptyString)), (decide (td = EmptyString)); simpl;
    repeat (case_decide; simpl in *; try congruence).
Qed.

(** A nil entry of the task map is still nil after the loop. *)
Lemma stamp_tasks_nil location dir tasks i name :
  tasks !! i = Some (name, None) →
  stamp_tasks location dir tasks !! i = Some (name, None).
Proof. intros Hi. unfold stamp_tasks. by rewrite list_lookup_fmap, Hi. Qed.

(** What a successful [readNode] has done. *)
Lemma readNode_success r n w tf node :
  fst (readNode r n w) = inr (tf, node) →
  ∃ src parsed,
    fst (loadNode r n w) = inr node ∧
    Read (trace (snd (loadNode r n w))) node = inr src ∧
    Unmarshal (FileContent src) = inr parsed ∧
    is_Some (Taskfile_Version parsed) ∧
    tf = mkTaskfile (Location_of node) (Taskfile_Version parsed) (Taskfile_Vars parsed)
           (stamp_tasks (Location_of node) (FileDirectory src) (Taskfile_Tasks parsed))
           (Taskfile_Includes parsed).
Proof.
  unfold readNode. unfold bind at 1.
  destruct (loadNode r n w) as [[e|node'] w1]; [done|]. unfold bind at 1.
  destruct (node_Read node' w1) as [[e|src] w2] eqn:Hsrc; [done|].
  run_monad. destruct (Unmarshal (FileContent src)) as [e|parsed] eqn:Hp.
  { by destruct (errors_As_decode e). }
  destruct (Taskfile_Version parsed) eqn:Hv; [|done]. simpl.
  intros [= <- <-]. exists src, parsed. rewrite Hv.
  repeat split; try done.
  revert Hsrc. unfold node_Read. run_monad. destruct (Read (trace w1) node'); congruence.
Qed.

(** [readNode] only adds to the trace, and parses once at most. *)
Lemma readNode_parses_once r n w :
  ∃ evs, trace (snd (readNode r n w)) = trace w ++ evs ∧ (parses evs ≤ 1)%nat.
Proof.
  unfold readNode, loadNode.
  run_cases;
    (eexists; split; [rewrite <- ?app_assoc; try reflexivity; symmetry; apply app_nil_r
                     |unfold parses; simpl; lia]).
Qed.

(** C9. For every task of a document that [readNode] has parsed, the
    Taskfile location and directory of the task are written once, and the
    first write wins: a field gets the location of the document, or the
    directory of what was read, only when it is empty; a field that is set
    keeps its value, also when the loop runs on the task again. *)
Theorem tasks_stamped_first_write_wins r n w tf node :
  fst (readNode r n w) = inr (tf, node) →
  ∃ src parsed,
    Read (trace (snd (loadNode r n w))) node = inr src ∧
    Unmarshal (FileContent src) = inr parsed ∧
    Taskfile_Location tf = Location_of node ∧
    length (Taskfile_Tasks tf) = length (Taskfile_Tasks parsed) ∧
    (∀ i name task,
       Taskfile_Tasks parsed !! i = Some (name, Some task) →
       ∃ task',
         Taskfile_Tasks tf !! i = Some (name, Some task') ∧
         Task_Name task' = Task_Name task ∧
         Location_Taskfile (Task_Location task') =
           (if decide (Location_Taskfile (Task_Location task) = EmptyString)
            then Location_of node else Location_Taskfile (Task_Location task)) ∧
         Location_TaskfileDir (Task_Location task') =
           (if decide (Location_TaskfileDir (Task_Location task) = EmptyString)
            then FileDirectory src else Location_TaskfileDir (Task_Location task)) ∧
         (Location_of node ≠ EmptyString → FileDirectory src ≠ EmptyString →
          ∀ location dir, stamp location dir task' = task')).
Proof.
  intros Hok. apply readNode_success in Hok as (src & parsed & _ & Hsrc & Hp & _ & ->).
  exists src, parsed. simpl. split; [done|]. split; [done|]. split; [done|].
  split; [unfold stamp_tasks; by rewrite length_map|].
  intros i name task Hi. exists (stamp (Location_of node) (FileDirectory src) task).
  split; [unfold stamp_tasks; by rewrite list_lookup_fmap, Hi|].
  destruct (stamp_fields (Location_of node) (FileDirectory src) task) as (? & ? & ?).
  repeat split; try done. intros ?? ??. by apply stamp_again.
Qed.
End ReadNodeFacts.

(** ** The theorems of the sequential code at work *)
Module LoadNodeExamples.
Import Example.

Lemma matching_checksum_is_noop_witness :
  let C := collaborators (remote_doc fetched None) in
  (asRemote (ERemote url) = Some url ∧ offline online = false ∧
   cache_opened online trusted_world ∧
   fetch_answer online url trusted_world = inr (mkSource "T" "/remote") ∧
   checksumSource (mkSource "T" "/remote") = inr "sum of T" ∧
   cachedChecksum_of url trusted_world = "sum of T" ∧ "sum of T" ≠ EmptyString) ∧
  (fst (loadNode online (ERemote url) trusted_world) = inr (ofRemote url) ∧
   cache (snd (loadNode online (ERemote url) trusted_world)) = cache trusted_world ∧
   ∀ e, e ∈ events_of (loadNode online (ERemote url)) trusted_world →
        is_prompt e = false ∧ is_cache_write e = false).
Proof.
  intros C. split.
  - repeat split; try reflexivity. discriminate.
  - apply (matching_checksum_is_noop (Collaborators0:=C) online (ERemote url) url trusted_world
             (mkSource "T" "/remote") "sum of T"); try reflexivity. discriminate.
Defined.

Lemma declined_prompt_not_trusted_witness :
  let C := collaborators (remote_doc fetched (Some (ErrOther "declined"))) in
  let n := ERemote url in
  let src := mkSource "T" "/remote" in
  (asRemote n = Some url ∧ offline online = false ∧ cache_opened online stale_world ∧
   fetch_answer online url stale_world = inr src ∧
   checksumSource src = inr "sum of T" ∧
   (cachedChecksum_of url stale_world = EmptyString ∨
    "sum of T" ≠ cachedChecksum_of url stale_world) ∧
   prompt_answer online url stale_world
     (trust_prompt (remote_Location url) (cachedChecksum_of url stale_world) "sum of T")
     = Some (ErrOther "declined")) ∧
  (fst (loadNode online n stale_world) = inl (TaskfileNotTrustedError url) ∧
   fst (readNode online n stale_world) = inl (TaskfileNotTrustedError url) ∧
   cache (snd (readNode online n stale_world)) = cache stale_world ∧
   (∃ msg, EvPrompt msg ∈ events_of (readNode online n) stale_world) ∧
   ∀ ev, ev ∈ events_of (readNode online n) stale_world →
         is_cache_write ev = false ∧ is_unmarshal ev = false).
Proof.
  intros C n src.
  assert (cachedChecksum_of url stale_world = EmptyString ∨
          "sum of T" ≠ cachedChecksum_of url stale_world) as Hshown.
  { right. vm_compute. discriminate. }
  split.
  - repeat split; try reflexivity. exact Hshown.
  - exact (declined_prompt_not_trusted online n url stale_world src "sum of T"
             (ErrOther "declined") eq_refl eq_refl eq_refl eq_refl eq_refl Hshown eq_refl).
Defined.

Lemma offline_reads_only_the_cache_witness :
  let C := collaborators (remote_doc fetched None) in
  let n := ERemote url in
  (asRemote n = Some url ∧ offline offline_reader = true ∧
   cache_opened offline_reader empty_world ∧
   read_fault_offline offline_reader url empty_world = None ∧
   cache empty_world !! remote_Location url = None) ∧
  ((∀ e, e ∈ events_of (loadNode offline_reader n) empty_world → is_read e = false) ∧
   EvCacheRead (ofRemote url) ∈ events_of (loadNode offline_reader n) empty_world ∧
   fst (loadNode offline_reader n empty_world) = inl (TaskfileCacheNotFoundError url)).
Proof.
  intros C n. split.
  - repeat split; reflexivity.
  - assert (asRemote n = Some url) as Hn by reflexivity.
    destruct (offline_reads_only_the_cache offline_reader n url empty_world Hn eq_refl)
      as (Hread & Hcache & Hmiss).
    split; [exact Hread|]. split; [exact (Hcache eq_refl)|].
    exact (Hmiss eq_refl eq_refl eq_refl).
Defined.



Lemma timeout_fallback_skips_trust_witness :
  let C := collaborators (remote_doc (timed_out 10) None) in
  let n := ERemote url in
  let err := Wrapped "fetch" (TaskfileNetworkTimeoutError url 10 false) in
  let ce := mkCacheEntry (mkSource "T0" "/remote") "sum of T0" in
  (asRemote n = Some url ∧ offline online = false ∧ download online = false ∧
   cache_opened online stale_world ∧
   fetch_answer online url stale_world = inl err ∧
   errors_As_timeout err = Some (url, 10, false) ∧
   read_fault_fallback online url stale_world = None ∧
   cache stale_world !! remote_Location url = Some ce) ∧
  (fst (loadNode online n stale_world) = inr (ECached url) ∧
   cache (snd (loadNode online n stale_world)) = cache stale_world ∧
   ∀ e, e ∈ events_of (loadNode online n) stale_world →
        is_checksum e = false ∧ is_prompt e = false ∧ is_cache_write e = false).
Proof.
  intros C n err ce. split.
  - repeat split; reflexivity.
  - exact (timeout_fallback_skips_trust online n url stale_world err (url, 10, false) ce
             eq_refl eq_refl eq_refl eq_refl eq_refl eq_refl eq_refl eq_refl).
Defined.

(** A remote document whose task [build] has no location yet and whose task
    [lint] has a Taskfile location already. *)
Lemma tasks_stamped_first_write_wins_witness :
  let C := collaborators (remote_doc fetched None) in
  let n := ERemote url in
  let tf := mkTaskfile url (Some "3") ∅
              [("build", Some (mkTask "build" (mkLocation url "/remote")));
               ("lint", Some (mkTask "lint" (mkLocation "elsewhere" "/remote")));
               ("none", None)] [] in
  fst (readNode online n empty_world) = inr (tf, n) ∧
  ∃ src parsed,
    Read (trace (snd (loadNode online n empty_world))) n = inr src ∧
    Unmarshal (FileContent src) = inr parsed ∧
    Taskfile_Location tf = Location_of n ∧
    length (Taskfile_Tasks tf) = length (Taskfile_Tasks parsed) ∧
    (∀ i name task,
       Taskfile_Tasks parsed !! i = Some (name, Some task) →
       ∃ task',
         Taskfile_Tasks tf !! i = Some (name, Some task') ∧
         Task_Name task' = Task_Name task ∧
         Location_Taskfile (Task_Location task') =
           (if decide (Location_Taskfile (Task_Location task) = EmptyString)
            then Location_of n else Location_Taskfile (Task_Location task)) ∧
         Location_TaskfileDir (Task_Location task') =
           (if decide (Location_TaskfileDir (Task_Location task) = EmptyString)
            then FileDirectory src else Location_TaskfileDir (Task_Location task)) ∧
         (Location_of n ≠ EmptyString → FileDirectory src ≠ EmptyString →
          ∀ location dir, stamp location dir task' = task')).
Proof.
  intros C n tf.
  assert (fst (readNode online n empty_world) = inr (tf, n)) as Hok
    by (vm_compute; reflexivity).
  split; [exact Hok|].
  exact (tasks_stamped_first_write_wins online n empty_world tf n Hok).
Defined.
End LoadNodeExamples.

(** ** The document graph *)
Section GraphFacts.
Implicit Types (E : gmap (string * string) Edge) (X : gset string).

Lemma elem_of_successors E a c : c ∈ successors E a ↔ edge_rel E a c.
Proof.
  unfold successors, edge_rel. rewrite list_elem_of_omap. split.
  - intros ([[s d] e] & Hin & Hf). simpl in Hf. case_decide; simplify_eq.
    apply elem_of_map_to_list in Hin. eauto.
  - intros [e He]. exists ((a, c), e). split; [by apply elem_of_map_to_list|].
    simpl. by rewrite decide_True.
Qed.

Lemma unexplored_lt E X a c :
  a ∉ X → edge_rel E a c → (unexplored E ({[a]} ∪ X) < unexplored E X)%nat.
Proof.
  intros Ha [e He]. unfold unexplored. apply subset_size.
  assert ((a, c) ∈ dom E) as Hd by (apply elem_of_dom; eauto).
  split.
  - intros k. rewrite !elem_of_filter, not_elem_of_union. tauto.
  - intros Hsub. specialize (Hsub (a, c)). rewrite !elem_of_filter in Hsub.
    simpl in Hsub. destruct Hsub as [Hsub _]; [done|].
    apply Hsub, elem_of_union_l, elem_of_singleton. done.
Qed.

(** From a path that starts at [x], either a path that avoids [a] as well,
    or a path from a successor of [a], taken after the last visit to [a]. *)
Lemma walk_last_visit E X x b a :
  walk E X x b →
  walk E ({[a]} ∪ X) x b ∨ a = b ∨ ∃ c, edge_rel E a c ∧ walk E ({[a]} ∪ X) c b.
Proof.
  induction 1 as [x Hx|x c b Hx Hxc Hcb IH].
  - destruct (decide (a = x)) as [->|Hne]; [by right; left|].
    left. apply walk_here. rewrite not_elem_of_union, elem_of_singleton. done.
  - destruct IH as [IH|[->|IH]]; [|by right; left|by right; right].
    destruct (decide (a = x)) as [->|Hne].
    + right; right. eauto.
    + left. apply walk_edge with c; [|done..].
      rewrite not_elem_of_union, elem_of_singleton. done.
Qed.

Lemma walk_start E X a b : walk E X a b → a ∉ X.
Proof. by destruct 1. Qed.

Lemma walk_not_from_seen E X a b : ¬ walk E ({[a]} ∪ X) a b.
Proof.
  intros Hw%walk_start. apply Hw, elem_of_union_l, elem_of_singleton. done.
Qed.

Lemma rtc_walk E a b : rtc (edge_rel E) a b → walk E ∅ a b.
Proof.
  induction 1 as [a|a c b Hac _ IH].
  - apply walk_here, not_elem_of_empty.
  - apply walk_edge with c; [apply not_elem_of_empty|done..].
Qed.

Lemma reaches_complete E fuel X a b :
  walk E X a b → (unexplored E X ≤ fuel)%nat → reaches E fuel X a b = true.
Proof.
  revert X a. induction fuel as [|fuel IH]; intros X a Hw Hfuel.
  - simpl. case_decide; [done|]. exfalso.
    pose proof (walk_start _ _ _ _ Hw) as Ha.
    destruct (walk_last_visit _ _ _ _ a Hw) as [Hw'|[?|(c & Hac & _)]]; [|done|].
    + by apply walk_not_from_seen in Hw'.
    + pose proof (unexplored_lt _ _ _ _ Ha Hac). lia.
  - simpl. case_decide; [done|].
    pose proof (walk_start _ _ _ _ Hw) as Ha.
    destruct (walk_last_visit _ _ _ _ a Hw) as [Hw'|[?|(c & Hac & Hw')]]; [|done|].
    + by apply walk_not_from_seen in Hw'.
    + apply existsb_exists. exists c. split.
      * apply list_elem_of_In, elem_of_successors, Hac.
      * rewrite decide_False by (by apply walk_start in Hw').
        apply IH; [done|]. pose proof (unexplored_lt _ _ _ _ Ha Hac). lia.
Qed.

Lemma reaches_sound E fuel X a b :
  reaches E fuel X a b = true → rtc (edge_rel E) a b.
Proof.
  revert X a. induction fuel as [|fuel IH]; intros X a; simpl;
    (case_decide; [subst; reflexivity|]); [done|].
  intros (c & Hc & Hr)%existsb_exists. case_decide; [done|].
  apply rtc_l with c; [|by eapply IH].
  by apply elem_of_successors, list_elem_of_In.
Qed.

Lemma unexplored_le_size E X : (unexplored E X ≤ size E)%nat.
Proof.
  unfold unexplored. rewrite <- size_dom. apply subseteq_size.
  intros k. rewrite elem_of_filter. tauto.
Qed.

(** The cycle check finds exactly the paths from the target of the new edge
    back to its source. *)
Lemma createsCycle_spec g src dst :
  createsCycle g src dst = true ↔ rtc (edge_rel (edges g)) dst src.
Proof.
  unfold createsCycle. split; [apply reaches_sound|].
  intros Hp. apply reaches_complete; [by apply rtc_walk|apply unexplored_le_size].
Qed.

(** A path in the graph with one more edge is a path of the graph, or goes
    through the new edge. *)
Lemma tc_insert E src dst e x y :
  tc (edge_rel (<[(src, dst) := e]> E)) x y →
  tc (edge_rel E) x y ∨ (rtc (edge_rel E) x src ∧ rtc (edge_rel E) dst y).
Proof.
  assert (∀ x y, edge_rel (<[(src, dst) := e]> E) x y →
                 edge_rel E x y ∨ (x = src ∧ y = dst)) as Hedge.
  { intros x' y'. unfold edge_rel. rewrite lookup_insert.
    case_decide; simplify_eq; eauto. }
  induction 1 as [x y Hxy|x y z Hxy Hyz IH].
  - destruct (Hedge _ _ Hxy) as [?|[-> ->]]; [left; by apply tc_once|right; done].
  - destruct (Hedge _ _ Hxy) as [Hxy'|[-> ->]].
    + destruct IH as [IH|[IH1 IH2]].
      * left. by apply tc_l with y.
      * right. split; [by apply rtc_l with y|done].
    + right. split; [done|]. destruct IH as [IH|[_ IH]]; [by apply tc_rtc|done].
Qed.

Lemma acyclic_insert E src dst e :
  acyclic E → ¬ rtc (edge_rel E) dst src → acyclic (<[(src, dst) := e]> E).
Proof.
  intros Hac Hno a Hcycle. apply tc_insert in Hcycle as [Hcycle|[H1 H2]].
  - by apply (Hac a).
  - apply Hno. by etrans.
Qed.

(** Rewriting the properties of an edge that exists changes no path. *)
Lemma acyclic_update E k e :
  is_Some (E !! k) → acyclic E → acyclic (<[k := e]> E).
Proof.
  intros Hk Hac a Hcycle. apply (Hac a). revert Hcycle. apply (tc_congruence id).
  intros x y. unfold edge_rel. rewrite lookup_insert. case_decide; simplify_eq; eauto.
Qed.

(** An edge of a graph without cycle closes none: the cycle check has
    nothing to refuse when the properties of an edge are rewritten. *)
Lemma edge_closes_no_cycle g src dst :
  acyclic (edges g) → is_Some (edges g !! (src, dst)) → createsCycle g src dst = false.
Proof.
  intros Hac He. destruct (createsCycle g src dst) eqn:Hc; [|done].
  apply createsCycle_spec in Hc. destruct (Hac src). by apply tc_rtc_r with dst; [apply tc_once|].
Qed.

Lemma acyclic_empty : acyclic ∅.
Proof.
  intros a Hcycle. destruct Hcycle as [? ? [e He]|? ? ? [e He] _];
    by rewrite lookup_empty in He.
Qed.
End GraphFacts.

(** ** The goroutines of [include] *)
Section IncludeFacts.
Context {Node RemoteNode : Type} `{!Collaborators Node RemoteNode}.
Implicit Types (t : thread Node) (gs : list (thread Node)) (σ : Shared Node) (k : kont Node).

Lemma step_Finished r path e σ : step r path (Finished e) σ = (Finished e, σ).
Proof. by destruct path. Qed.

Lemma pending_return_to k e : pending (return_to k e) = [].
Proof. by destruct k, e. Qed.

Lemma pending_spawn node tf : flat_map pending (spawn node tf) = [].
Proof. unfold spawn. by induction (Taskfile_Includes tf). Qed.

Lemma pending_finished gs : forallb is_finished gs = true → flat_map pending gs = [].
Proof.
  induction gs as [|g gs IH]; [done|]. simpl. intros [Hg Hgs]%andb_prop.
  rewrite IH by done. by destruct g.
Qed.

(** Replacing one element of a list moves its share of a flat map only. *)
Lemma flat_map_insert {A B} (f : A → list B) (l : list A) i x y :
  l !! i = Some x →
  ∃ rest, flat_map f l ≡ₚ f x ++ rest ∧ flat_map f (<[i := y]> l) ≡ₚ f y ++ rest.
Proof.
  revert i. induction l as [|a l IH]; intros [|i] Hi; simplify_eq/=.
  - by exists (flat_map f l).
  - destruct (IH _ Hi) as (rest & H1 & H2). exists (f a ++ rest). split.
    + rewrite H1. apply Permutation_app_swap_app.
    + rewrite H2. apply Permutation_app_swap_app.
Qed.

(** What [link] does, case by case. *)
Lemma link_existing g node include includeNode edge :
  edges g !! (Location_of node, Location_of includeNode) = Some edge →
  link g node include includeNode =
    (mkGraph (vertices g)
       (<[(Location_of node, Location_of includeNode) :=
            mkEdge (Edge_Data edge ++ [include])
                   (Z.of_nat (length (Edge_Data edge ++ [include])))]> (edges g)),
     None).
Proof. intros He. unfold link, Edge_of, UpdateEdge. by rewrite He. Qed.

Lemma link_new g node include includeNode :
  edges g !! (Location_of node, Location_of includeNode) = None →
  is_Some (vertices g !! Location_of node) →
  is_Some (vertices g !! Location_of includeNode) →
  link g node include includeNode =
    if createsCycle g (Location_of node) (Location_of includeNode)
    then (g, Some (TaskfileCycleError (Location_of node) (Location_of includeNode)))
    else (mkGraph (vertices g)
            (<[(Location_of node, Location_of includeNode) := mkEdge [include] 1]> (edges g)),
          None).
Proof.
  intros He [? Hs] [? Hd]. unfold link, Edge_of, AddEdge. rewrite He, Hs, Hd. simpl.
  by destruct (createsCycle _ _ _).
Qed.

Lemma link_vertices g node include includeNode :
  vertices (fst (link g node include includeNode)) = vertices g.
Proof.
  unfold link, Edge_of, AddEdge, UpdateEdge.
  repeat (case_match; simplify_eq; simpl); done.
Qed.

Lemma link_acyclic g node include includeNode :
  acyclic (edges g) → acyclic (edges (fst (link g node include includeNode))).
Proof.
  intros Hac. unfold link, Edge_of, AddEdge, UpdateEdge.
  repeat (case_match; simplify_eq; simpl); try done.
  - apply acyclic_insert; [done|]. intros Hp%createsCycle_spec. congruence.
  - apply acyclic_update; [|done]. eauto.
Qed.

(** Every step is a step of a thread at the root, no step at all, or a step
    of one of the goroutines a waiting thread has started. *)
Lemma step_ind (P : thread Node → Shared Node → thread Node → Shared Node → Prop) r :
  (∀ t σ, P t σ (fst (step r [] t σ)) (snd (step r [] t σ))) →
  (∀ t σ, P t σ t σ) →
  (∀ k first gs i th th' σ σ',
     gs !! i = Some th → P th σ th' σ' →
     P (Waiting k first gs) σ (Waiting k (record first th th') (<[i := th']> gs)) σ') →
  ∀ path t σ, P t σ (fst (step r path t σ)) (snd (step r path t σ)).
Proof.
  intros Hlocal Hstutter Hinner. induction path as [|i path IH]; intros t σ; [done|].
  destruct t as [| | |k first gs| |]; try exact (Hlocal _ σ).
  simpl. destruct (gs !! i) as [th|] eqn:Hi; [|apply Hstutter].
  specialize (IH th σ). destruct (step r path th σ) as [th' σ']. by apply Hinner.
Qed.

(** One step claims at most one location, a fresh one, and moves a location
    from pending to loaded at most. *)
Lemma step_claims r path t σ :
  ∃ new,
    (new = [] ∨ ∃ l, new = [l] ∧ vertices (graph σ) !! l = None) ∧
    dom (vertices (graph (snd (step r path t σ)))) =
      list_to_set new ∪ dom (vertices (graph σ)) ∧
    loaded (snd (step r path t σ)) ++ pending (fst (step r path t σ))
      ≡ₚ new ++ loaded σ ++ pending t.
Proof.
  revert path t σ.
  apply (step_ind (λ t σ t' σ',
    ∃ new, (new = [] ∨ ∃ l, new = [l] ∧ vertices (graph σ) !! l = None) ∧
           dom (vertices (graph σ')) = list_to_set new ∪ dom (vertices (graph σ)) ∧
           loaded σ' ++ pending t' ≡ₚ new ++ loaded σ ++ pending t)).
  - intros t σ. destruct t as [node vars inc|k node|k node|k first gs|node inc child|e]; simpl.
    + exists []. split; [by left|]. cbn [list_to_set]. rewrite (left_id_L ∅ (∪)).
      by destruct (resolve r node vars inc) as [|[[]|]].
    + unfold AddVertex. destruct (vertices (graph σ) !! Location_of node) eqn:Hv; simpl.
      * exists []. split; [by left|]. cbn [list_to_set]. by rewrite (left_id_L ∅ (∪)), pending_return_to.
      * exists [Location_of node]. split; [right; eauto|]. split.
        { cbn [list_to_set]. by rewrite dom_insert_L, (right_id_L ∅ (∪)). }
        simpl. by rewrite app_nil_r, <- Permutation_cons_append.
    + exists []. split; [by left|]. cbn [list_to_set]. rewrite (left_id_L ∅ (∪)).
      destruct (readNode r node (world σ)) as [[err|[tf node']] w]; simpl.
      * by rewrite pending_return_to, app_nil_r.
      * by rewrite dom_alter_L, pending_spawn, app_nil_r.
    + exists []. split; [by left|]. cbn [list_to_set]. rewrite (left_id_L ∅ (∪)).
      destruct (forallb is_finished gs) eqn:Hf; simpl; [|done].
      by rewrite pending_return_to, pending_finished.
    + exists []. split; [by left|]. cbn [list_to_set]. rewrite (left_id_L ∅ (∪)).
      pose proof (link_vertices (graph σ) node inc child) as Hv.
      destruct (link (graph σ) node inc child) as [g err]. simpl in *. by rewrite Hv.
    + exists []. split; [by left|]. cbn [list_to_set]. by rewrite (left_id_L ∅ (∪)).
  - intros t σ. exists []. split; [by left|]. cbn [list_to_set]. by rewrite (left_id_L ∅ (∪)).
  - intros k first gs i th th' σ σ' Hi (new & Hnew & Hdom & Hperm).
    exists new. split; [done|]. split; [done|]. simpl.
    destruct (flat_map_insert pending gs i th th' Hi) as (rest & H1 & H2).
    rewrite H1, H2, !app_assoc. apply Permutation_app_tail. by rewrite <- !app_assoc.
Qed.

(** The invariant of the claims: the locations that are loaded or pending
    are the vertices of the graph, each of them once. *)
Lemma step_claimed_once r path t σ :
  NoDup (loaded σ ++ pending t) →
  dom (vertices (graph σ)) = list_to_set (loaded σ ++ pending t) →
  NoDup (loaded (snd (step r path t σ)) ++ pending (fst (step r path t σ))) ∧
  dom (vertices (graph (snd (step r path t σ)))) =
    list_to_set (loaded (snd (step r path t σ)) ++ pending (fst (step r path t σ))).
Proof.
  intros Hnd Hdom. destruct (step_claims r path t σ) as (new & Hnew & Hdom' & Hperm).
  split.
  - rewrite Hperm. destruct Hnew as [->|(l & -> & Hl)]; [done|].
    simpl. apply NoDup_cons. split; [|done].
    intros Hin. apply not_elem_of_dom in Hl. apply Hl. rewrite Hdom.
    by apply elem_of_list_to_set.
  - rewrite Hdom', Hdom. apply set_eq. intros l.
    rewrite elem_of_union, !elem_of_list_to_set, Hperm, !elem_of_app. done.
Qed.

Lemma run_claimed_once r schedule c :
  NoDup (loaded (snd c) ++ pending (fst c)) →
  dom (vertices (graph (snd c))) = list_to_set (loaded (snd c) ++ pending (fst c)) →
  NoDup (loaded (snd (run r schedule c)) ++ pending (fst (run r schedule c))) ∧
  dom (vertices (graph (snd (run r schedule c)))) =
    list_to_set (loaded (snd (run r schedule c)) ++ pending (fst (run r schedule c))).
Proof.
  revert c. induction schedule as [|path schedule IH]; intros c Hnd Hdom; [done|].
  simpl. destruct (step_claimed_once r path (fst c) (snd c) Hnd Hdom). by apply IH.
Qed.

(** No step closes a cycle. *)
Lemma step_acyclic r path t σ :
  acyclic (edges (graph σ)) → acyclic (edges (graph (snd (step r path t σ)))).
Proof.
  revert path t σ.
  apply (step_ind (λ t σ t' σ',
    acyclic (edges (graph σ)) → acyclic (edges (graph σ')))); [|done..].
  intros t σ Hac. destruct t as [node vars inc|k node|k node|k first gs|node inc child|e]; simpl.
  - by destruct (resolve r node vars inc) as [|[[]|]].
  - unfold AddVertex. destruct (vertices (graph σ) !! Location_of node); simpl; [|done].
    try case_decide; done.
  - by destruct (readNode r node (world σ)) as [[err|[tf node']] w].
  - by destruct (forallb is_finished gs).
  - pose proof (link_acyclic (graph σ) node inc child Hac).
    by destruct (link (graph σ) node inc child).
  - done.
Qed.

Lemma run_acyclic r schedule c :
  acyclic (edges (graph (snd c))) → acyclic (edges (graph (snd (run r schedule c)))).
Proof.
  revert c. induction schedule as [|path schedule IH]; intros c Hac; [done|].
  simpl. apply IH. by apply step_acyclic.
Qed.

(** A step only adds to the trace, and for every parse it adds a location
    to the loaded ones. *)
Lemma step_parses r path t σ :
  ∃ evs,
    trace (world (snd (step r path t σ))) = trace (world σ) ++ evs ∧
    (parses evs + length (loaded σ) ≤ length (loaded (snd (step r path t σ))))%nat.
Proof.
  revert path t σ.
  apply (step_ind (λ t σ t' σ',
    ∃ evs, trace (world σ') = trace (world σ) ++ evs ∧
           (parses evs + length (loaded σ) ≤ length (loaded σ'))%nat)); [| |done].
  - intros t σ.
    destruct t as [node vars inc|k node|k node|k first gs|node inc child|e]; simpl.
    + exists []. rewrite app_nil_r. by destruct (resolve r node vars inc) as [|[[]|]].
    + exists []. rewrite app_nil_r. destruct (AddVertex _ _ _); [case_decide|]; done.
    + destruct (readNode_parses_once r node (world σ)) as (evs & Htrace & Hparses).
      exists evs. destruct (readNode r node (world σ)) as [[err|[tf node']] w];
        simpl in *; rewrite length_app; simpl; (split; [done|lia]).
    + exists []. rewrite app_nil_r. by destruct (forallb is_finished gs).
    + exists []. rewrite app_nil_r. by destruct (link (graph σ) node inc child).
    + exists []. by rewrite app_nil_r.
  - intros t σ. exists []. by rewrite app_nil_r.
Qed.

Lemma parses_app (evs evs' : list (Event Node)) :
  parses (evs ++ evs') = (parses evs + parses evs')%nat.
Proof. unfold parses. by rewrite List.filter_app, length_app. Qed.

Lemma run_parses r schedule c :
  ∃ evs,
    trace (world (snd (run r schedule c))) = trace (world (snd c)) ++ evs ∧
    (parses evs + length (loaded (snd c)) ≤ length (loaded (snd (run r schedule c))))%nat.
Proof.
  revert c. induction schedule as [|path schedule IH]; intros c.
  - exists []. by rewrite app_nil_r.
  - simpl. destruct (step_parses r path (fst c) (snd c)) as (evs & Htrace & Hparses).
    destruct (IH (step r path (fst c) (snd c))) as (evs' & Htrace' & Hparses').
    exists (evs ++ evs'). rewrite Htrace', Htrace, app_assoc, parses_app. split; [done|lia].
Qed.

Lemma link_weighted g node include includeNode :
  weighted g → weighted (fst (link g node include includeNode)).
Proof.
  intros Hg.
  assert (∀ data, data ≠ [] →
            weighted (mkGraph (vertices g)
                        (<[(Location_of node, Location_of includeNode) :=
                             mkEdge data (Z.of_nat (length data))]> (edges g)))) as Hinsert.
  { intros data Hdata pair edge. simpl. rewrite lookup_insert.
    case_decide; [|by apply Hg]. by intros [= <-]. }
  unfold link, Edge_of, AddEdge, UpdateEdge.
  repeat (case_match; simplify_eq; simpl); try done.
  - by apply (Hinsert [include]).
  - apply Hinsert. by intros [? ?]%app_eq_nil.
Qed.

Lemma step_weighted r path t σ :
  weighted (graph σ) → weighted (graph (snd (step r path t σ))).
Proof.
  revert path t σ.
  apply (step_ind (λ t σ t' σ', weighted (graph σ) → weighted (graph σ'))); [|done..].
  intros t σ Hg. destruct t as [node vars inc|k node|k node|k first gs|node inc child|e]; simpl.
  - by destruct (resolve r node vars inc) as [|[[]|]].
  - unfold AddVertex. destruct (vertices (graph σ) !! Location_of node); simpl; [|done].
    try case_decide; done.
  - by destruct (readNode r node (world σ)) as [[err|[tf node']] w].
  - by destruct (forallb is_finished gs).
  - pose proof (link_weighted (graph σ) node inc child Hg).
    by destruct (link (graph σ) node inc child).
  - done.
Qed.

Lemma run_weighted r schedule c :
  weighted (graph (snd c)) → weighted (graph (snd (run r schedule c))).
Proof.
  revert c. induction schedule as [|path schedule IH]; intros c Hg; [done|].
  simpl. apply IH. by apply step_weighted.
Qed.

(** *** Errors are not lost *)

Lemma forallb_Forall {A} (f : A → bool) (l : list A) :
  forallb f l = true ↔ Forall (λ x, f x = true) l.
Proof.
  induction l as [|x l IH]; simpl; [by split|].
  rewrite andb_true_iff, Forall_cons, IH. done.
Qed.

Lemma existsb_Exists {A} (f : A → bool) (l : list A) :
  existsb f l = true ↔ Exists (λ x, f x = true) l.
Proof.
  induction l as [|x l IH]; simpl; [split; [done|by inversion 1]|].
  rewrite orb_true_iff, Exists_cons, IH. done.
Qed.

Lemma recorded_Waiting k first gs :
  recorded (Waiting k first gs) = true ↔
  Forall (λ th, recorded th = true) gs ∧
  (first = None → Forall (λ th, returned_error th = false) gs).
Proof.
  simpl. rewrite andb_true_iff, orb_true_iff, !forallb_Forall, bool_decide_eq_true.
  split; intros [H1 H2]; (split; [done|]).
  - intros ->. destruct H2 as [[? [=]]|H2].
    eapply Forall_impl; [exact H2|]. intros th. simpl. by destruct (returned_error th).
  - destruct first; [left; eauto|right].
    eapply Forall_impl; [by apply H2|]. intros th. simpl. by intros ->.
Qed.

Lemma failed_Waiting k first gs :
  failed (Waiting k first gs) = true ↔
  is_Some first ∨ Exists (λ th, failed th = true) gs.
Proof. simpl. by rewrite orb_true_iff, existsb_Exists, bool_decide_eq_true. Qed.

Lemma recorded_return_to k err : recorded (return_to k err) = true.
Proof. by destruct k, err. Qed.

Lemma recorded_spawn k node tf : recorded (Waiting k None (spawn node tf)) = true.
Proof.
  apply recorded_Waiting. unfold spawn.
  split; [|intros _]; apply Forall_fmap, Forall_true; done.
Qed.

(** A step keeps the record of the groups up to date, and a thread that has
    failed stays so: the error a goroutine returns is what [g.Wait()] gives
    back, and [include] hands it to its caller. *)
Lemma step_failed r path t σ :
  recorded t = true →
  recorded (fst (step r path t σ)) = true ∧
  (failed t = true → failed (fst (step r path t σ)) = true).
Proof.
  cut ((is_finished t = true → fst (step r path t σ) = t) ∧
       (recorded t = true →
        recorded (fst (step r path t σ)) = true ∧
        (failed t = true → failed (fst (step r path t σ)) = true))); [tauto|].
  revert path t σ.
  apply (step_ind (λ t σ t' σ',
    (is_finished t = true → t' = t) ∧
    (recorded t = true → recorded t' = true ∧ (failed t = true → failed t' = true)))).
  - intros t σ.
    destruct t as [node vars inc|k node|k node|k first gs|node inc child|e]; simpl;
      (split; [done|intros Hrec]).
    + by destruct (resolve r node vars inc) as [|[[]|]].
    + destruct (AddVertex _ _ _); [case_decide|]; simpl; by rewrite ?recorded_return_to.
    + destruct (readNode r node (world σ)) as [[err|[tf node']] w]; simpl.
      * by rewrite recorded_return_to.
      * split; [apply (recorded_spawn k)|done].
    + destruct (forallb is_finished gs) eqn:Hfin; simpl; [|done].
      split; [apply recorded_return_to|]. intros Hfailed.
      apply (failed_Waiting k) in Hfailed.
      apply (recorded_Waiting k) in Hrec as [_ Hrec].
      destruct Hfailed as [[e ->]|Hfailed]; [by destruct k|].
      destruct first as [e|]; [by destruct k|]. exfalso.
      apply Exists_exists in Hfailed as (th & Hin & Hth).
      apply forallb_Forall in Hfin.
      pose proof (proj1 (Forall_forall _ _) Hfin th Hin) as Hf.
      pose proof (proj1 (Forall_forall _ _) (Hrec eq_refl) th Hin) as Hr.
      by destruct th as [| | | | |[]].
    + by destruct (link (graph σ) node inc child).
    + done.
  - done.
  - intros k first gs i th th' σ σ' Hi [Hfin IH]. split; [done|]. intros Hrec.
    apply (recorded_Waiting k) in Hrec as [Hall Hrec].
    pose proof (Forall_lookup_1 _ _ _ _ Hall Hi) as Hth.
    destruct (IH Hth) as [Hth' Hfail]. split.
    + apply recorded_Waiting. split; [by apply Forall_insert|].
      destruct first as [e|]; [done|]. specialize (Hrec eq_refl).
      unfold record. destruct (is_finished th) eqn:Hf.
      * intros _. rewrite (Hfin eq_refl), list_insert_id by done. done.
      * destruct th' as [| | | | |[e|]]; try done; intros _; by apply Forall_insert.
    + intros [Hfirst|Hex]%failed_Waiting; apply failed_Waiting.
      * left. destruct Hfirst as [e ->]. unfold record. eauto.
      * right. apply Exists_exists in Hex as (th0 & Hin & Hth0).
        apply list_elem_of_lookup in Hin as [j Hj].
        apply Exists_exists. destruct (decide (i = j)) as [->|Hne].
        { exists th'. simplify_eq. split; [|by apply Hfail].
          apply list_elem_of_lookup. exists j. apply list_lookup_insert_eq.
          by eapply lookup_lt_Some. }
        exists th0. split; [|done]. apply list_elem_of_lookup. exists j.
        by rewrite list_lookup_insert_ne.
Qed.

Lemma run_failed r schedule c :
  recorded (fst c) = true → failed (fst c) = true →
  recorded (fst (run r schedule c)) = true ∧ failed (fst (run r schedule c)) = true.
Proof.
  revert c. induction schedule as [|path schedule IH]; intros c Hrec Hfailed; [done|].
  simpl. destruct (step_failed r path (fst c) (snd c) Hrec). apply IH; auto.
Qed.

Lemma run_recorded r schedule c :
  recorded (fst c) = true → recorded (fst (run r schedule c)) = true.
Proof.
  revert c. induction schedule as [|path schedule IH]; intros c Hrec; [done|].
  simpl. apply IH. by apply step_failed.
Qed.

End IncludeFacts.

(** ** [include] as it reads is a run of the machine *)
Section IncludeRefinement.
Context {Node RemoteNode : Type} `{!Collaborators Node RemoteNode}.
Implicit Types (t th : thread Node) (gs : list (thread Node)) (σ : Shared Node) (k : kont Node).

Lemma run_app r schedule schedule' (c : thread Node * Shared Node) :
  run r (schedule ++ schedule') c = run r schedule' (run r schedule c).
Proof. apply fold_left_app. Qed.

Lemma run_Finished r schedule e σ : run r schedule (Finished e, σ) = (Finished e, σ).
Proof.
  induction schedule as [|path schedule IH]; [done|]. simpl. by rewrite step_Finished.
Qed.

Lemma run_cons r path schedule (c : thread Node * Shared Node) :
  run r (path :: schedule) c = run r schedule (step r path (fst c) (snd c)).
Proof. done. Qed.

(** A goroutine that has finished does not move. *)
Lemma run_finished_goroutine r k first gs i e schedule σ :
  gs !! i = Some (Finished e) →
  run r (map (cons i) schedule) (Waiting k first gs, σ) = (Waiting k first gs, σ).
Proof.
  intros Hi. induction schedule as [|path schedule IH]; [done|].
  simpl map. rewrite run_cons. simpl. rewrite Hi, step_Finished.
  rewrite list_insert_id by done. unfold record. simpl.
  by destruct first.
Qed.

(** The run of a goroutine to its end is a run of the thread that waits for
    it, which records the error. *)
Lemma run_goroutine r k first gs i th schedule σ e σ' :
  gs !! i = Some th → is_finished th = false →
  run r schedule (th, σ) = (Finished e, σ') →
  run r (map (cons i) schedule) (Waiting k first gs, σ)
    = (Waiting k (first_error first e) (<[i := Finished e]> gs), σ').
Proof.
  revert gs th σ. induction schedule as [|path schedule IH]; intros gs th σ Hi Hth Hrun.
  - simpl in Hrun. by simplify_eq.
  - rewrite run_cons in Hrun. simpl in Hrun. simpl map. rewrite run_cons. simpl.
    rewrite Hi. destruct (step r path th σ) as [th1 σ1] eqn:Hstep. simpl in *.
    destruct (is_finished th1) eqn:Hth1.
    + destruct th1 as [| | | | |e1]; try done. rewrite run_Finished in Hrun.
      simplify_eq. rewrite (run_finished_goroutine _ _ _ _ _ e).
      * unfold record. rewrite Hth. by destruct first, e.
      * apply list_lookup_insert_eq. by eapply lookup_lt_Some.
    + assert (record first th th1 = first) as ->.
      { unfold record. rewrite Hth. by destruct first, th1. }
      rewrite (IH (<[i := th1]> gs) th1 σ1); [| |done..].
      * by rewrite list_insert_insert_eq.
      * apply list_lookup_insert_eq. by eapply lookup_lt_Some.
Qed.

Lemma goroutine_is_a_run r include node vars inc σ err σ' :
  matched r include →
  goroutine r include node vars inc σ = Some (err, σ') →
  ∃ schedule, run r schedule (Spawned node vars inc, σ) = (Finished err, σ').
Proof.
  intros Hrec. unfold goroutine.
  destruct (resolve r node vars inc) as [e|[[inc' child]|]] eqn:Hres.
  - intros [= <- <-]. exists [[]]. simpl. by rewrite Hres.
  - destruct (include child σ) as [[[e|] σ1]|] eqn:Hinc; [| |done].
    + intros [= <- <-].
      destruct (Hrec _ _ _ _ (KGo node inc' child) Hinc) as (s & Hs).
      exists ([] :: s). rewrite run_cons. simpl. by rewrite Hres.
    + destruct (link (graph σ1) node inc' child) as [g e] eqn:Hlink.
      intros [= <- <-].
      destruct (Hrec _ _ _ _ (KGo node inc' child) Hinc) as (s & Hs).
      exists ([] :: s ++ [[]]). rewrite run_cons. simpl. rewrite Hres.
      rewrite run_app, Hs. simpl. by rewrite Hlink.
  - intros [= <- <-]. exists [[]]. simpl. by rewrite Hres.
Qed.

Lemma goroutines_are_a_run r include node vars incs k first done σ err σ' :
  matched r include →
  forallb is_finished done = true →
  goroutines (goroutine r include node vars) incs first σ = Some (err, σ') →
  ∃ schedule gs,
    run r schedule
      (Waiting k first (done ++ map (λ kv, Spawned node vars (snd kv)) incs), σ)
      = (Waiting k err gs, σ') ∧
    forallb is_finished gs = true.
Proof.
  intros Hrec. revert first done σ.
  induction incs as [|kv incs IH]; intros first done σ Hdone Hrun; simpl in *.
  - simplify_eq. exists [], done. by rewrite app_nil_r.
  - destruct (goroutine r include node vars (snd kv) σ) as [[e σ1]|] eqn:Hg; [|done].
    destruct (goroutine_is_a_run _ _ _ _ _ _ _ _ Hrec Hg) as (s & Hs).
    destruct (IH (first_error first e) (done ++ [Finished e]) σ1) as (s' & gs & Hs' & Hgs).
    { rewrite forallb_app, Hdone. done. }
    { done. }
    exists (map (cons (length done)) s ++ s'), gs. split; [|done].
    rewrite run_app.
    rewrite (run_goroutine r k first _ (length done) (Spawned node vars (snd kv)) s σ e σ1);
      [| |done..].
    + rewrite <- Hs'. f_equal. f_equal.
      rewrite insert_app_r_alt by done. rewrite Nat.sub_diag. simpl.
      by rewrite <- app_assoc.
    + rewrite lookup_app_r by done. by rewrite Nat.sub_diag.
Qed.

Lemma include_body_is_a_run r include : matched r include → matched r (include_body r include).
Proof.
  intros Hrec node σ err σ' k. unfold include_body.
  destruct (AddVertex (graph σ) (Location_of node) None) as [e|g] eqn:Hadd.
  - case_decide; intros [= <- <-]; exists [[]]; simpl; rewrite Hadd;
      [by rewrite decide_True|by rewrite decide_False].
  - destruct (readNode r node (world σ)) as [[e|[tf node']] w] eqn:Hread.
    + intros [= <- <-]. exists [[]; []]. simpl. rewrite Hadd. simpl. by rewrite Hread.
    + intros Hgo.
      destruct (goroutines_are_a_run r include node' _ _ k None [] _ _ _ Hrec eq_refl Hgo)
        as (s & gs & Hs & Hgs).
      exists ([] :: [] :: s ++ [[]]). rewrite !run_cons. simpl. rewrite Hadd. simpl.
      rewrite Hread. simpl. rewrite run_app. unfold spawn. simpl in Hs. rewrite Hs.
      simpl. by rewrite Hgs.
Qed.

(** Every result of [include] as it reads is the result of a run of the
    machine, so what holds of all runs holds of it. *)
Lemma include_is_a_run r fuel : matched r (include r fuel).
Proof.
  induction fuel as [|fuel IH]; simpl; apply include_body_is_a_run; [|done].
  by intros node σ err σ' k.
Qed.

Lemma Reader_Read_is_a_run r fuel node w res :
  Reader_Read r fuel node w = Some res →
  ∃ schedule, Read_result (run r schedule (start node w)) = Some res.
Proof.
  unfold Reader_Read.
  destruct (include r fuel node _) as [[err σ]|] eqn:Hinc; [|done].
  destruct (include_is_a_run r fuel _ _ _ _ KRead Hinc) as (s & Hs).
  intros Hres. exists s. unfold start. rewrite Hs. unfold Read_result. simpl.
  by destruct err.
Qed.
End IncludeRefinement.

(** ** The claims about [include] *)
Section IncludeClaims.
Context {Node RemoteNode : Type} `{!Collaborators Node RemoteNode}.
Implicit Types (t th : thread Node) (gs : list (thread Node)) (σ : Shared Node) (k : kont Node).

Lemma focus_leaf path t : is_waiting t = false → focus path t = Some t.
Proof. by destruct t, path. Qed.

Lemma step_leaf r path t σ : is_waiting t = false → step r path t σ = step r [] t σ.
Proof. by destruct t, path. Qed.

(** A step of a thread that does not wait and does not come to wait is a
    step of the thread under focus, and moves nothing else. *)
Lemma step_focus r path t σ th :
  focus path t = Some th →
  is_waiting th = false →
  is_waiting (fst (step r [] th σ)) = false →
  snd (step r path t σ) = snd (step r [] th σ) ∧
  focus path (fst (step r path t σ)) = Some (fst (step r [] th σ)).
Proof.
  revert t. induction path as [|i path IH]; intros t Hfocus Hth Hth'.
  - assert (th = t) as -> by (destruct t; simpl in Hfocus; congruence).
    split; [done|]. by destruct (fst (step r [] t σ)).
  - destruct t as [| | |k first gs| |];
      try (rewrite focus_leaf in Hfocus by done; simplify_eq;
           rewrite step_leaf by done; split; [done|by apply focus_leaf]).
    simpl in *. destruct (gs !! i) as [g|] eqn:Hi; [|done]. simpl in Hfocus.
    destruct (IH g Hfocus Hth Hth') as [Hσ Hf].
    destruct (step r path g σ) as [g' σ']. simpl in *. split; [done|].
    rewrite list_lookup_insert_eq by (by eapply lookup_lt_Some). done.
Qed.

(** A goroutine that has returned an error makes every thread above it a
    failed one. *)
Lemma focus_failed path t e : focus path t = Some (Finished (Some e)) → failed t = true.
Proof.
  revert t. induction path as [|i path IH]; intros t Hfocus.
  - destruct t; by simplify_eq/=.
  - destruct t as [| | |k first gs| |]; try by simplify_eq/=.
    simpl in Hfocus. destruct (gs !! i) as [g|] eqn:Hi; [|done]. simpl in Hfocus.
    apply failed_Waiting. right. apply Exists_exists. exists g.
    split; [by eapply list_elem_of_lookup_2|by apply IH].
Qed.

Lemma Read_result_failed (c : thread Node * Shared Node) g :
  failed (fst c) = true → Read_result c ≠ Some (inr g).
Proof. unfold Read_result. by destruct (fst c) as [| | | | |[]]. Qed.

Lemma start_recorded (root : Node) w : recorded (fst (start root w)) = true.
Proof. done. Qed.

(** Once a goroutine of a run has returned an error, [Read] cannot return a
    graph, however the run goes on. *)
Lemma run_fails r root w schedule path e schedule' g :
  let c := run r schedule (start root w) in
  focus path (fst c) = Some (Finished (Some e)) →
  Read_result (run r schedule' c) ≠ Some (inr g).
Proof.
  intros c Hfocus. apply Read_result_failed, run_failed.
  - apply run_recorded, start_recorded.
  - by eapply focus_failed.
Qed.

(** What every run keeps true of the locations it loads. *)
Lemma run_loaded_once r root w schedule :
  let c := run r schedule (start root w) in
  NoDup (loaded (snd c)) ∧
  (∀ l, l ∈ loaded (snd c) → l ∈ dom (vertices (graph (snd c)))) ∧
  (∃ evs, trace (world (snd c)) = trace w ++ evs ∧
          (parses evs ≤ length (loaded (snd c)))%nat) ∧
  (∀ g, Read_result c = Some (inr g) →
        dom (vertices g) = list_to_set (loaded (snd c))).
Proof.
  intros c.
  destruct (run_claimed_once r schedule (start root w)) as [Hnd Hdom].
  { simpl. apply NoDup_nil_2. }
  { simpl. apply dom_empty_L. }
  fold c in Hnd, Hdom. split; [by apply NoDup_app in Hnd as (? & _ & _)|].
  split; [|split].
  - intros l Hl. rewrite Hdom. apply elem_of_list_to_set, elem_of_app. by left.
  - destruct (run_parses r schedule (start root w)) as (evs & Htrace & Hparses).
    exists evs. split; [done|]. simpl in Hparses. fold c in Hparses. lia.
  - unfold Read_result. intros g Hg. destruct (fst c) as [| | | | |[e|]] eqn:Hc;
      simplify_eq. rewrite Hdom. simpl. by rewrite app_nil_r.
Qed.

(** C1. For every location, the reader hands the document at that location
    to [readNode] (which loads and parses it, and whose includes are then
    explored) at most once in a run, whatever the schedule: [include] first
    claims the vertex of [node.Location()], and when the vertex exists it
    returns success at once and leaves graph, cache and trace as they are.
    No location is loaded twice, the run parses no more often than it
    loads, and when [Read] returns a graph, its vertices are the locations
    loaded, each of them once; so it is for [include] as it reads. *)
Theorem each_location_loaded_at_most_once r :
  (∀ path t σ k node,
     focus path t = Some (Claiming k node) →
     is_Some (vertices (graph σ) !! Location_of node) →
     snd (step r path t σ) = σ ∧
     focus path (fst (step r path t σ)) = Some (return_to k None)) ∧
  (∀ root w schedule,
     let c := run r schedule (start root w) in
     NoDup (loaded (snd c)) ∧
     (∀ l, l ∈ loaded (snd c) → l ∈ dom (vertices (graph (snd c)))) ∧
     (∃ evs, trace (world (snd c)) = trace w ++ evs ∧
             (parses evs ≤ length (loaded (snd c)))%nat) ∧
     (∀ g, Read_result c = Some (inr g) →
           dom (vertices g) = list_to_set (loaded (snd c)))) ∧
  (∀ fuel node σ,
     is_Some (vertices (graph σ) !! Location_of node) →
     include r fuel node σ = Some (None, σ)) ∧
  (∀ fuel root w err σ,
     include r fuel root (mkShared NewTaskfileGraph w []) = Some (err, σ) →
     NoDup (loaded σ) ∧
     (err = None → dom (vertices (graph σ)) = list_to_set (loaded σ))).
Proof.
  split; [|split; [|split]].
  - intros path t σ k node Hfocus [v Hv].
    assert (step r [] (Claiming k node) σ = (return_to k None, σ)) as Hstep.
    { simpl. unfold AddVertex. by rewrite Hv. }
    destruct (step_focus r path t σ _ Hfocus) as [Hσ Hf]; [done|..].
    + rewrite Hstep. by destruct k.
    + by rewrite Hstep in Hσ, Hf.
  - apply run_loaded_once.
  - intros fuel node σ [v Hv]. destruct fuel; simpl; unfold include_body, AddVertex;
      by rewrite Hv.
  - intros fuel root w err σ Hinc.
    destruct (include_is_a_run r fuel _ _ _ _ KRead Hinc) as (s & Hs).
    destruct (run_loaded_once r root w s) as (Hnd & _ & _ & Hdom). unfold start in *.
    rewrite Hs in Hnd, Hdom. simpl in *. split; [done|]. intros ->.
    by apply (Hdom (graph σ)).
Qed.

(** C2. The graph never has a cycle, whatever the schedule, and so for
    [include] as it reads. When the edge from the location of the current
    node to that of the child, between two vertices of the graph, would
    close a cycle, the goroutine returns the cycle error that names the two
    locations and the graph is left as it was: the edge is not added, and
    [Read] cannot return a graph any more. *)
Theorem graph_stays_acyclic r root w schedule :
  let c := run r schedule (start root w) in
  acyclic (edges (graph (snd c))) ∧
  (∀ path node include includeNode e,
     focus path (fst c) = Some (Linking node include includeNode) →
     is_Some (vertices (graph (snd c)) !! Location_of node) →
     is_Some (vertices (graph (snd c)) !! Location_of includeNode) →
     ¬ acyclic (<[(Location_of node, Location_of includeNode) := e]>
                  (edges (graph (snd c)))) →
     let c' := step r path (fst c) (snd c) in
     snd c' = snd c ∧
     focus path (fst c') =
       Some (Finished (Some (TaskfileCycleError (Location_of node)
                               (Location_of includeNode)))) ∧
     ∀ schedule' g, Read_result (run r schedule' c') ≠ Some (inr g)) ∧
  (∀ fuel err σ,
     include r fuel root (mkShared NewTaskfileGraph w []) = Some (err, σ) →
     acyclic (edges (graph σ))).
Proof.
  intros c.
  assert (acyclic (edges (graph (snd c)))) as Hac.
  { apply run_acyclic. simpl. apply acyclic_empty. }
  split; [done|]. split; cycle 1.
  { intros fuel err σ Hinc.
    destruct (include_is_a_run r fuel _ _ _ _ KRead Hinc) as (s & Hs).
    pose proof (run_acyclic r s (start root w)) as Hs'. unfold start in Hs'.
    rewrite Hs in Hs'. apply Hs'. simpl. apply acyclic_empty. }
  intros path node include includeNode e Hfocus Hsrc Hdst Hcycle c'.
  assert (link (graph (snd c)) node include includeNode =
          (graph (snd c), Some (TaskfileCycleError (Location_of node)
                                  (Location_of includeNode)))) as Hlink.
  { destruct (edges (graph (snd c)) !! (Location_of node, Location_of includeNode))
      as [edge|] eqn:He.
    - destruct Hcycle. apply acyclic_update; [eauto|done].
    - rewrite link_new by done. destruct (createsCycle _ _ _) eqn:Hc; [done|].
      destruct Hcycle. apply acyclic_insert; [done|].
      intros Hp%createsCycle_spec. congruence. }
  destruct (step_focus r path (fst c) (snd c) _ Hfocus) as [Hσ Hf]; [done|..].
  { simpl. by destruct (link _ _ _ _). }
  simpl in Hσ, Hf. rewrite Hlink in Hσ, Hf. simpl in Hσ, Hf.
  fold c' in Hσ, Hf. split; [rewrite Hσ; by destruct (snd c)|]. split; [done|].
  intros schedule' g.
  assert (c' = run r (schedule ++ [path]) (start root w)) as ->.
  { rewrite run_app. done. }
  by eapply (run_fails r root w (schedule ++ [path])).
Qed.

(** C3. When the graph has an edge for the pair of locations, another
    include for the pair is merged into it: the one edge of the pair then
    carries the list it had with the new include appended, and its weight is
    the length of that list; no edge is added and the others are untouched.
    So two includes of one document that resolve to the same target give one
    edge that carries both, with weight 2; and in every run, whatever the
    schedule, the weight of an edge is the number of includes it carries. *)
Theorem existing_edge_is_merged r node include includeNode :
  let src := Location_of node in
  let dst := Location_of includeNode in
  (∀ g edge,
     edges g !! (src, dst) = Some edge →
     let g' := fst (link g node include includeNode) in
     snd (link g node include includeNode) = None ∧
     edges g' !! (src, dst) =
       Some (mkEdge (Edge_Data edge ++ [include])
                    (Z.of_nat (length (Edge_Data edge ++ [include])))) ∧
     dom (edges g') = dom (edges g) ∧
     (∀ pair, pair ≠ (src, dst) → edges g' !! pair = edges g !! pair)) ∧
  (∀ path t σ edge,
     focus path t = Some (Linking node include includeNode) →
     edges (graph σ) !! (src, dst) = Some edge →
     focus path (fst (step r path t σ)) = Some (Finished None) ∧
     edges (graph (snd (step r path t σ))) =
       <[(src, dst) := mkEdge (Edge_Data edge ++ [include])
                         (Z.of_nat (length (Edge_Data edge ++ [include])))]>
         (edges (graph σ))) ∧
  (∀ g first firstNode,
     Location_of firstNode = dst →
     edges g !! (src, dst) = None →
     is_Some (vertices g !! src) → is_Some (vertices g !! dst) →
     createsCycle g src dst = false →
     let g' := fst (link (fst (link g node first firstNode)) node include includeNode) in
     edges g' = <[(src, dst) := mkEdge [first; include] 2]> (edges g)) ∧
  (∀ root w schedule pair edge,
     edges (graph (snd (run r schedule (start root w)))) !! pair = Some edge →
     Edge_Data edge ≠ [] ∧ Edge_Weight edge = Z.of_nat (length (Edge_Data edge))).
Proof.
  intros src dst. split; [|split; [|split]]; cycle 3.
  { intros root w schedule. apply run_weighted. intros pair edge. simpl.
    by rewrite lookup_empty. }
  - intros g edge He g'. subst g'. rewrite (link_existing _ _ _ _ _ He). simpl.
    split; [done|]. split; [by rewrite lookup_insert_eq|]. split.
    + rewrite dom_insert_L. apply elem_of_dom_2 in He.
      apply set_eq. intros pair. rewrite elem_of_union, elem_of_singleton.
      split; [intros [->|]; done|by right].
    + intros pair Hne. by rewrite lookup_insert_ne.
  - intros path t σ edge Hfocus He.
    destruct (step_focus r path t σ _ Hfocus) as [Hσ Hf]; [done|..].
    { simpl. by destruct (link _ _ _ _). }
    simpl in Hσ, Hf. rewrite (link_existing _ _ _ _ _ He) in Hσ, Hf.
    by rewrite Hσ, Hf.
  - intros g first firstNode Hloc He Hs Hd Hc g'. subst g' src dst.
    rewrite <- Hloc in *. rewrite (link_new g node first firstNode) by done.
    rewrite Hc. simpl.
    erewrite link_existing.
    2:{ rewrite <- Hloc. simpl. apply lookup_insert_eq. }
    simpl. rewrite <- Hloc. by rewrite insert_insert_eq.
Qed.

End IncludeClaims.

(** ** The theorems about [include] at work *)
Module IncludeExamples.
Import Example.

(** In the diamond, under the round-robin schedule, the goroutines of B and
    of C both come to claim D; the one of B claims it, and the one of C finds
    the vertex and goes on to its edge without a second load. *)
Lemma each_location_loaded_at_most_once_witness :
  let C := collaborators diamond in
  let c6 := run_rounds online 6 (start (ELocal "A") empty_world) in
  let c := step online [0; 0]%nat (fst c6) (snd c6) in
  let d := plain "d" "D" false in
  (focus [1; 0]%nat (fst c) = Some (Claiming (KGo (ELocal "C") d (ELocal "D")) (ELocal "D")) ∧
   is_Some (vertices (graph (snd c)) !! "D")) ∧
  (snd (step online [1; 0]%nat (fst c) (snd c)) = snd c ∧
   focus [1; 0]%nat (fst (step online [1; 0]%nat (fst c) (snd c)))
     = Some (Linking (ELocal "C") d (ELocal "D"))).
Proof.
  intros C c6 c d. split.
  - split; [vm_compute; reflexivity|]. vm_compute. eauto.
  - apply (proj1 (each_location_loaded_at_most_once online)
             [1; 0]%nat (fst c) (snd c) (KGo (ELocal "C") d (ELocal "D")) (ELocal "D")).
    + vm_compute. reflexivity.
    + vm_compute. eauto.
Defined.

(** The diamond, depth first and round robin: every document is loaded
    once, and the graph has the four vertices and the four edges. *)
Example diamond_depth_first :
  let C := collaborators diamond in
  let c := run_leftmost online 40 (start (ELocal "A") empty_world) in
  fst c = Finished None ∧
  loaded (snd c) = ["A"; "B"; "D"; "C"] ∧
  dom (vertices (graph (snd c))) = {["A"; "B"; "C"; "D"]} ∧
  dom (edges (graph (snd c))) = {[("A", "B"); ("A", "C"); ("B", "D"); ("C", "D")]}.
Proof. intros C c. repeat split; by_evaluation. Qed.

Example diamond_round_robin :
  let C := collaborators diamond in
  let c := run_rounds online 20 (start (ELocal "A") empty_world) in
  fst c = Finished None ∧
  loaded (snd c) = ["A"; "B"; "C"; "D"] ∧
  dom (vertices (graph (snd c))) = {["A"; "B"; "C"; "D"]} ∧
  dom (edges (graph (snd c))) = {[("A", "B"); ("A", "C"); ("B", "D"); ("C", "D")]}.
Proof. intros C c. repeat split; by_evaluation. Qed.

(** The diamond as [Read] reads: the recursion goes two calls deep. *)
Example diamond_as_it_reads :
  let C := collaborators diamond in
  shape (Reader_Read online 2 (ELocal "A") empty_world)
    = Some (inr ({["A"; "B"; "C"; "D"]},
                 {[("A", "B"); ("A", "C"); ("B", "D"); ("C", "D")]})) ∧
  Reader_Read online 1 (ELocal "A") empty_world = None.
Proof. intros C. split; by_evaluation. Qed.

(** A includes B and B includes A: the edge from B to A is in the graph when
    the goroutine of A comes to its edge to B, which is refused. *)
Lemma graph_stays_acyclic_witness :
  let C := collaborators loop in
  let schedule := leftmost_schedule online 9 (start (ELocal "A") empty_world) in
  let c := run online schedule (start (ELocal "A") empty_world) in
  let b := plain "b" "B" false in
  (focus [0%nat] (fst c) = Some (Linking (ELocal "A") b (ELocal "B")) ∧
   is_Some (vertices (graph (snd c)) !! "A") ∧
   is_Some (vertices (graph (snd c)) !! "B") ∧
   ¬ acyclic (<[("A", "B") := mkEdge [b] 1]> (edges (graph (snd c))))) ∧
  (acyclic (edges (graph (snd c))) ∧
   let c' := step online [0%nat] (fst c) (snd c) in
   snd c' = snd c ∧
   focus [0%nat] (fst c') = Some (Finished (Some (TaskfileCycleError "A" "B"))) ∧
   ∀ schedule' g, Read_result (run online schedule' c') ≠ Some (inr g)).
Proof.
  intros C schedule c b.
  assert (¬ acyclic (<[("A", "B") := mkEdge [b] 1]> (edges (graph (snd c))))) as Hcycle.
  { intros Hac. apply (Hac "A"). apply tc_l with "B".
    - unfold edge_rel. vm_compute. eauto.
    - apply tc_once. unfold edge_rel. vm_compute. eauto. }
  split.
  - split; [vm_compute; reflexivity|]. split; [vm_compute; eauto|].
    split; [vm_compute; eauto|]. exact Hcycle.
  - destruct (graph_stays_acyclic online (ELocal "A") empty_world schedule) as [Hac Hlink].
    split; [exact Hac|].
    apply (proj1 Hlink [0%nat] (ELocal "A") b (ELocal "B") (mkEdge [b] 1)).
    + vm_compute. reflexivity.
    + vm_compute. eauto.
    + vm_compute. eauto.
    + exact Hcycle.
Defined.

Example loop_is_refused :
  let C := collaborators loop in
  let c := run_leftmost online 40 (start (ELocal "A") empty_world) in
  Read_result c = Some (inl (TaskfileCycleError "A" "B")) ∧
  dom (edges (graph (snd c))) = {[("B", "A")]}.
Proof. intros C c. split; by_evaluation. Qed.

(** A includes B under the namespaces x and y: when the goroutine of y comes
    to its edge, the edge of x is there, and y is merged into it. *)
Lemma existing_edge_is_merged_witness :
  let C := collaborators twice in
  let c := run_leftmost online 9 (start (ELocal "A") empty_world) in
  let x := plain "x" "B" false in
  let y := plain "y" "B" false in
  (focus [1%nat] (fst c) = Some (Linking (ELocal "A") y (ELocal "B")) ∧
   edges (graph (snd c)) !! ("A", "B") = Some (mkEdge [x] 1)) ∧
  (focus [1%nat] (fst (step online [1%nat] (fst c) (snd c))) = Some (Finished None) ∧
   edges (graph (snd (step online [1%nat] (fst c) (snd c)))) =
     <[("A", "B") := mkEdge [x; y] 2]> (edges (graph (snd c)))).
Proof.
  intros C c x y. split.
  - split; vm_compute; reflexivity.
  - assert (focus [1%nat] (fst c) = Some (Linking (ELocal "A") y (ELocal "B"))) as Hfocus
      by (vm_compute; reflexivity).
    assert (edges (graph (snd c)) !! ("A", "B") = Some (mkEdge [x] 1)) as Hedge
      by (vm_compute; reflexivity).
    exact (proj1 (proj2 (existing_edge_is_merged online (ELocal "A") y (ELocal "B")))
             [1%nat] (fst c) (snd c) (mkEdge [x] 1) Hfocus Hedge).
Defined.

Example loop_as_it_reads :
  let C := collaborators loop in
  Reader_Read online 2 (ELocal "A") empty_world = Some (inl (TaskfileCycleError "A" "B")).
Proof. intros C. by_evaluation. Qed.

Example twice_is_one_edge :
  let C := collaborators twice in
  let c := run_rounds online 20 (start (ELocal "A") empty_world) in
  fst c = Finished None ∧
  edges (graph (snd c)) !! ("A", "B")
    = Some (mkEdge [plain "y" "B" false; plain "x" "B" false] 2) ∧
  dom (edges (graph (snd c))) = {[("A", "B")]}.
Proof. intros C c. repeat split; by_evaluation. Qed.


Example optional_include_is_dropped :
  let C := collaborators (unreachable true) in
  let c := run_leftmost online 40 (start (ELocal "A") empty_world) in
  fst c = Finished None ∧
  dom (vertices (graph (snd c))) = {["A"; "B"]} ∧
  dom (edges (graph (snd c))) = {[("A", "B")]}.
Proof. intros C c. repeat split; by_evaluation. Qed.

Example required_include_fails :
  let C := collaborators (unreachable false) in
  Read_result (run_rounds online 20 (start (ELocal "A") empty_world))
    = Some (inl (ErrOther "unreachable host")).
Proof. vm_compute. reflexivity. Qed.
End IncludeExamples.

(** ** More on [loadNode]: what it does on each of its paths *)

(** The events of a computation, once its trace is a list added to that of
    the world it started in. *)
Ltac trace_events :=
  unfold events_of; cbn [fst snd cache trace];
  repeat (rewrite <- app_assoc); rewrite ?drop_app_length, ?drop_all; cbn [app].

Section LoadNodePaths.
Context {Node RemoteNode : Type} `{!Collaborators Node RemoteNode}.
Implicit Types (r : Reader) (n : Node) (remote : RemoteNode) (w : World Node).

(** The run of [loadNode] when the fetch gives a document. *)
Lemma loadNode_fetched r n remote w src :
  asRemote n = Some remote → offline r = false → cache_opened r w →
  fetch_answer r remote w = inr src →
  loadNode r n w =
    match checksumSource src with
    | inl e => (inl e, mkWorld (cache w) (trace w ++ fetched_events r remote))
    | inr sum =>
        let prompt := trust_prompt (remote_Location remote) (cachedChecksum_of remote w) sum in
        if decide (prompt ≠ EmptyString) then
          match prompt_answer r remote w prompt with
          | Some _ =>
              (inl (TaskfileNotTrustedError (remote_Location remote)),
               mkWorld (cache w) (trace w ++ fetched_events r remote ++ [EvPrompt prompt]))
          | None =>
              match write_fault r remote w prompt with
              | Some e =>
                  (inl e,
                   mkWorld (cache w)
                     (trace w ++ accepted_events r remote prompt
                              ++ [EvCacheWrite (ofRemote remote)]))
              | None =>
                  (inr (ofRemote (writtenNode remote src)),
                   mkWorld (<[remote_Location remote := mkCacheEntry src sum]> (cache w))
                     (trace w ++ accepted_events r remote prompt
                              ++ [EvCacheWrite (ofRemote remote)]))
              end
          end
        else (inr (ofRemote remote), mkWorld (cache w) (trace w ++ fetched_events r remote))
    end.
Proof.
  intros Hn Hoff Hopen Hfetch.
  unfold cache_opened, fetch_answer, prompt_answer, write_fault, accepted_events,
    fetched_events, cachedChecksum_of, loadNode in *.
  rewrite Hn, Hoff. run_monad. rewrite Hopen. run_monad. rewrite Hfetch. run_monad.
  destruct (cache w !! remote_Location remote) as [ce|]; run_monad;
    (destruct (checksumSource src) as [e|sum] eqn:Hsum; run_monad;
     [by rewrite <- !app_assoc|]);
    cbn zeta; (case_decide; [|by rewrite <- !app_assoc]); run_monad;
    rewrite <- !app_assoc; cbn [app];
    (destruct (Prompt _ _); run_monad; [by rewrite <- ?app_assoc|]);
    rewrite <- !app_assoc; cbn [app];
    (destruct (cache_write_fault _ _); run_monad; rewrite ?Hsum; run_monad;
     by rewrite <- ?app_assoc).
Qed.

(** X1. [loadNode] writes to the cache only with the consent of the user:
    it shows at most one prompt, writes at most once, and a write comes
    after a prompt that was answered with yes; when it does not write, the
    cache is as it was. *)
Theorem cache_written_only_on_consent r n w :
  let evs := events_of (loadNode r n) w in
  (count is_prompt evs ≤ 1)%nat ∧
  (count is_cache_write evs ≤ count is_prompt evs)%nat ∧
  (count is_cache_write evs = 0%nat → cache (snd (loadNode r n w)) = cache w) ∧
  (count is_cache_write evs = 1%nat →
   ∃ before msg after,
     evs = before ++ EvPrompt msg :: after ∧
     Prompt (trace w ++ before) msg = None ∧
     count is_cache_write before = 0%nat).
Proof.
  intros evs. subst evs. unfold events_of, loadNode. destruct (asRemote n) as [remote|].
  - run_cases; trace_events; unfold count; cbn.
    all: (split; [lia|]); (split; [lia|]);
      (split; [done || lia|]); try (intros; discriminate).
    all: intros _; eexists [_; _; _; _; _], _, _; (split; [reflexivity|]);
      (split; [|reflexivity]); rewrite <- ?app_assoc in *; cbn [app] in *; eassumption.
  - run_monad. trace_events. cbn. repeat split; try lia; try done.
Qed.

(** X2. In offline mode [loadNode] asks nothing of the user and compares
    nothing: it shows no prompt, computes no checksum and writes nothing to
    the cache, which it leaves as it was. What it returns is the copy the
    cache gives; an error of the cache is returned as it is, unless it says
    that the copy does not exist. *)
Theorem offline_never_asks r n remote w :
  asRemote n = Some remote →
  offline r = true →
  cache (snd (loadNode r n w)) = cache w ∧
  (∀ e, e ∈ events_of (loadNode r n) w →
        is_prompt e = false ∧ is_checksum e = false ∧ is_cache_write e = false) ∧
  (∀ ce, cache_opened r w → read_fault_offline r remote w = None →
         cache w !! remote_Location remote = Some ce →
         fst (loadNode r n w) = inr (cachedNode remote (ce_source ce)) ∧
         EvLog ("task: [" +:+ remote_Location remote +:+ "] Fetched cached copy" +:+ nl)
           ∈ events_of (loadNode r n) w) ∧
  (∀ e, cache_opened r w → read_fault_offline r remote w = Some e →
        fst (loadNode r n w) =
          inl (if errors_Is e ErrNotExist
               then TaskfileCacheNotFoundError (remote_Location remote) else e)).
Proof.
  intros Hn Hoff. split; [|split; [|split]].
  - unfold loadNode. rewrite Hn, Hoff. run_cases; done.
  - intros e. unfold events_of, loadNode. rewrite Hn, Hoff.
    run_cases; intros He; each_event He; done.
  - intros ce Hopen Hfault Hce.
    unfold events_of, loadNode, cache_opened, read_fault_offline in *. rewrite Hn, Hoff.
    run_monad. rewrite Hopen. run_monad. rewrite Hfault. run_monad. rewrite Hce.
    run_monad. split; [done|]. trace_events. set_solver.
  - intros e Hopen Hfault.
    unfold loadNode, cache_opened, read_fault_offline in *. rewrite Hn, Hoff.
    run_monad. rewrite Hopen. run_monad. rewrite Hfault. run_monad.
    by destruct (errors_Is e ErrNotExist).
Qed.

(** X3. An error of the fetch that is not a network timeout is returned as
    it is, and the cache is not consulted: nothing happens after the fetch. *)
Theorem fetch_error_is_returned r n remote w err :
  asRemote n = Some remote →
  offline r = false →
  cache_opened r w →
  fetch_answer r remote w = inl err →
  errors_As_timeout err = None →
  loadNode r n w =
    (inl err,
     mkWorld (cache w) (trace w ++ [EvNewCache (tempDir r); EvRead (ofRemote remote)])).
Proof.
  intros Hn Hoff Hopen Hfetch Hte.
  unfold cache_opened, fetch_answer, loadNode in *.
  rewrite Hn, Hoff. run_monad. rewrite Hopen. run_monad. rewrite Hfetch. run_monad.
  rewrite Hte. run_monad. by rewrite <- app_assoc.
Qed.

(** X4. What the errors of a timed-out fetch carry. With a forced download
    the error has the timeout of the error of the fetch, whatever the
    timeout of the reader is; after a fallback that finds no copy it has the
    timeout of the reader. Both name the location of the node, not the
    address in the error of the fetch. A fallback in which the cache fails
    otherwise returns the error of the cache, and the timeout is lost. *)
Theorem timeout_error_carries r n remote w err uri t checked :
  asRemote n = Some remote →
  offline r = false →
  cache_opened r w →
  fetch_answer r remote w = inl err →
  errors_As_timeout err = Some (uri, t, checked) →
  (download r = true →
   fst (loadNode r n w) = inl (TaskfileNetworkTimeoutError (remote_Location remote) t false)) ∧
  (download r = false → read_fault_fallback r remote w = None →
   cache w !! remote_Location remote = None →
   fst (loadNode r n w)
     = inl (TaskfileNetworkTimeoutError (remote_Location remote) (timeout r) true)) ∧
  (∀ e, download r = false → read_fault_fallback r remote w = Some e →
        errors_Is e ErrNotExist = false →
        fst (loadNode r n w) = inl e).
Proof.
  intros Hn Hoff Hopen Hfetch Hte.
  rewrite (loadNode_timeout r n remote w err _ Hn Hoff Hopen Hfetch Hte).
  split; [|split].
  - by intros ->.
  - intros -> -> ->. done.
  - intros e -> -> ->. done.
Qed.

(** X5. Whether a download is forced matters only when the fetch times
    out: in offline mode, and whenever the fetch answers with a document or
    with an error that is not a timeout, [loadNode] does the same with the
    option and without it. *)
Theorem download_only_matters_on_timeout r n w forced :
  offline r = true ∨
  (∀ remote err, asRemote n = Some remote → fetch_answer r remote w = inl err →
                 errors_As_timeout err = None) →
  loadNode (with_download r forced) n w = loadNode r n w.
Proof.
  intros Hcase. unfold loadNode, with_download. cbn [offline download tempDir timeout].
  destruct (asRemote n) as [remote|] eqn:Hn; [|done].
  destruct (offline r) eqn:Hoff; [done|].
  destruct Hcase as [|Hcase]; [done|]. specialize (Hcase remote).
  unfold fetch_answer in Hcase. run_monad.
  destruct (NewCache (trace w) (tempDir r)); run_monad; [done|].
  destruct (Read _ (ofRemote remote)) as [err|src]; run_monad; [|done].
  by rewrite (Hcase err).
Qed.

(** X6. A remote node is not loaded without a cache: when the cache cannot
    be opened, [loadNode] returns the error as it is before it reads
    anything, in offline mode or not, and [readNode] reads and parses
    nothing. When the checksum of the fetched document cannot be computed,
    the error is returned as it is and no prompt is shown. *)
Theorem cache_and_checksum_failures r n remote w :
  asRemote n = Some remote →
  (∀ e, NewCache (trace w) (tempDir r) = Some e →
        loadNode r n w = (inl e, mkWorld (cache w) (trace w ++ [EvNewCache (tempDir r)])) ∧
        readNode r n w = (inl e, mkWorld (cache w) (trace w ++ [EvNewCache (tempDir r)]))) ∧
  (∀ src e, offline r = false → cache_opened r w →
            fetch_answer r remote w = inr src → checksumSource src = inl e →
            loadNode r n w = (inl e, mkWorld (cache w) (trace w ++ fetched_events r remote))).
Proof.
  intros Hn. split.
  - intros e He.
    assert (loadNode r n w = (inl e, mkWorld (cache w) (trace w ++ [EvNewCache (tempDir r)])))
      as Hload.
    { unfold loadNode. rewrite Hn. run_monad. rewrite He. by run_monad. }
    split; [done|]. rewrite (readNode_load_error r n w e); by rewrite Hload.
  - intros src e Hoff Hopen Hfetch Hsum.
    rewrite (loadNode_fetched r n remote w src Hn Hoff Hopen Hfetch). by rewrite Hsum.
Qed.

(** X7. When a prompt is shown and the user accepts, [loadNode] writes the
    fetched document to the cache, once, and returns the node that the
    write gives back, not the node it fetched from; when the write fails its
    error is returned as it is. *)
Theorem accepted_prompt_caches r n remote w src sum :
  asRemote n = Some remote →
  offline r = false →
  cache_opened r w →
  fetch_answer r remote w = inr src →
  checksumSource src = inr sum →
  cachedChecksum_of remote w = EmptyString ∨ sum ≠ cachedChecksum_of remote w →
  prompt_answer r remote w
    (trust_prompt (remote_Location remote) (cachedChecksum_of remote w) sum) = None →
  let prompt := trust_prompt (remote_Location remote) (cachedChecksum_of remote w) sum in
  events_of (loadNode r n) w
    = accepted_events r remote prompt ++ [EvCacheWrite (ofRemote remote)] ∧
  fst (loadNode r n w) =
    match write_fault r remote w prompt with
    | Some e => inl e
    | None => inr (ofRemote (writtenNode remote src))
    end.
Proof.
  intros Hn Hoff Hopen Hfetch Hsum Hcase Hans prompt.
  assert (prompt ≠ EmptyString) as Hp.
  { unfold prompt. rewrite trust_prompt_empty. intros [? ?]. destruct Hcase; congruence. }
  unfold events_of. subst prompt.
  rewrite (loadNode_fetched r n remote w src Hn Hoff Hopen Hfetch), Hsum. cbn zeta.
  rewrite decide_True by done. rewrite Hans.
  destruct (write_fault r remote w _); cbn [fst snd trace];
    by rewrite drop_app_length.
Qed.

(** X8. Which prompt is shown for a fetched document. With no checksum in
    the cache (the empty string) it is the prompt of a source that is not
    trusted yet, also when the checksum of the document is the empty string
    itself; with another checksum than the cached one it is the prompt of a
    source that has changed; and no other prompt is ever shown. *)
Theorem prompt_shown r n remote w src sum msg :
  asRemote n = Some remote →
  offline r = false →
  cache_opened r w →
  fetch_answer r remote w = inr src →
  checksumSource src = inr sum →
  EvPrompt msg ∈ events_of (loadNode r n) w ↔
    (cachedChecksum_of remote w = EmptyString ∧
     msg = Sprintf taskfileUntrustedPrompt (remote_Location remote)) ∨
    (cachedChecksum_of remote w ≠ EmptyString ∧ sum ≠ cachedChecksum_of remote w ∧
     msg = Sprintf taskfileChangedPrompt (remote_Location remote)).
Proof.
  intros Hn Hoff Hopen Hfetch Hsum.
  assert (EvPrompt msg ∈ events_of (loadNode r n) w ↔
          trust_prompt (remote_Location remote) (cachedChecksum_of remote w) sum ≠ EmptyString ∧
          msg = trust_prompt (remote_Location remote) (cachedChecksum_of remote w) sum) as ->.
  { unfold events_of.
    rewrite (loadNode_fetched r n remote w src Hn Hoff Hopen Hfetch), Hsum. cbn zeta.
    set (prompt := trust_prompt _ _ _).
    unfold accepted_events, fetched_events.
    case_decide as Hp; [destruct (prompt_answer r remote w prompt);
                        [|destruct (write_fault r remote w prompt)]|];
      cbn [fst snd trace]; rewrite <- ?app_assoc, drop_app_length; cbn [app];
      rewrite !elem_of_cons, elem_of_nil; split.
    all: try (intros [? ?]; subst; tauto).
    all: intros Hin; repeat (destruct Hin as [Hin|Hin]; try discriminate);
      try done; try (by simplify_eq). }
  unfold trust_prompt. repeat case_decide; split.
  all: try (intros [? ?]); try (intros [[? ?]|(? & ? & ?)]); subst; try tauto; try done.
  all: try (left; split; [done|reflexivity]); try (right; done).
  all: split; [|reflexivity]; by apply Sprintf_nonempty.
Qed.
(** X9. The copy in the cache is read only as a fallback: in offline
    mode, or after a fetch that timed out when no download is forced. A
    fetch that answers, with a document or with another error, is never
    followed by a read of the cached copy. *)
Theorem cached_copy_read_only_as_fallback r n remote w e :
  asRemote n = Some remote →
  e ∈ events_of (loadNode r n) w →
  is_cache_read e = true →
  offline r = true ∨
  (download r = false ∧
   ∃ err te, fetch_answer r remote w = inl err ∧ errors_As_timeout err = Some te).
Proof.
  intros Hn. unfold events_of, loadNode, fetch_answer. rewrite Hn.
  run_cases; intros He; each_event He; intros Hread; try discriminate;
    try (by left); right; (split; [done|]); eauto.
Qed.
End LoadNodePaths.

(** ** More on [readNode] *)

Section ReadNodePaths.
Context {Node RemoteNode : Type} `{!Collaborators Node RemoteNode}.
Implicit Types (r : Reader) (n : Node) (remote : RemoteNode) (w : World Node).

(** [readNode] is [loadNode], one read of the node it gives, and the
    decoding of what was read. *)
Lemma readNode_run r n w :
  readNode r n w =
    match loadNode r n w with
    | (inl e, w') => (inl e, w')
    | (inr node, w') =>
        match Read (trace w') node with
        | inl e => (inl e, mkWorld (cache w') (trace w' ++ [EvRead node]))
        | inr src =>
            (readNode_decode node src,
             mkWorld (cache w') (trace w' ++ [EvRead node; EvUnmarshal node]))
        end
    end.
Proof.
  unfold readNode, readNode_decode, bind at 1.
  destruct (loadNode r n w) as [[e|node] w']; [done|].
  run_monad. destruct (Read (trace w') node) as [e|src]; run_monad; [done|].
  rewrite <- app_assoc. cbn [app].
  destruct (Unmarshal (FileContent src)) as [err|tf].
  - by destruct (errors_As_decode err).
  - by destruct (Taskfile_Version tf).
Qed.

(** X10. A remote document that is trusted already is fetched twice: once by
    [loadNode], for the checksum that is compared with the cached one, and
    once more by [readNode], for the content that is parsed. What is parsed
    is the answer to the second fetch, whatever the first one was. *)
Theorem trusted_remote_is_read_twice r n remote w src sum :
  asRemote n = Some remote →
  offline r = false →
  cache_opened r w →
  fetch_answer r remote w = inr src →
  checksumSource src = inr sum →
  cachedChecksum_of remote w = sum →
  sum ≠ EmptyString →
  let again := Read (trace w ++ fetched_events r remote) (ofRemote remote) in
  count is_read (events_of (readNode r n) w) = 2%nat ∧
  fst (readNode r n w) =
    match again with
    | inl e => inl e
    | inr src' => readNode_decode (ofRemote remote) src'
    end.
Proof.
  intros Hn Hoff Hopen Hfetch Hsum Hcached Hne again. subst again.
  assert (trust_prompt (remote_Location remote) (cachedChecksum_of remote w) sum
          = EmptyString) as Hp by (apply trust_prompt_empty; by subst).
  unfold events_of. rewrite readNode_run.
  rewrite (loadNode_fetched r n remote w src Hn Hoff Hopen Hfetch), Hsum. cbn zeta.
  rewrite Hp. rewrite decide_False by (intros ?; done). cbn [trace cache].
  unfold fetched_events.
  destruct (Read _ (ofRemote remote)) as [e|src']; cbn [fst snd trace];
    rewrite <- ?app_assoc, drop_app_length; done.
Qed.

(** X11. What [readNode] refuses after the node has been read. A document
    that does not parse gives the decode error of the parser, with the
    location and the content of the file and a padding of 2, when the error
    is or wraps one, and otherwise an invalid-Taskfile error that holds the
    error of the parser and the location made relative. A document that
    parses but has no schema version gives a version-check error with the
    location as it is. In each case the document has been read and parsed
    once, and nothing else has happened since [loadNode]. *)
Theorem readNode_refuses r n w node src :
  fst (loadNode r n w) = inr node →
  Read (trace (snd (loadNode r n w))) node = inr src →
  (∀ err, Unmarshal (FileContent src) = inl err →
     fst (readNode r n w) =
       inl (match errors_As_decode err with
            | Some (message, _) =>
                TaskfileDecodeError message (Some (Location_of node, FileContent src, 2))
            | None => TaskfileInvalidError (TryAbsToRel (Location_of node)) err
            end)) ∧
  (∀ tf, Unmarshal (FileContent src) = inr tf → Taskfile_Version tf = None →
     fst (readNode r n w) = inl (TaskfileVersionCheckError (Location_of node))) ∧
  cache (snd (readNode r n w)) = cache (snd (loadNode r n w)) ∧
  trace (snd (readNode r n w)) =
    trace (snd (loadNode r n w)) ++ [EvRead node; EvUnmarshal node].
Proof.
  intros Hload Hread. rewrite readNode_run.
  destruct (loadNode r n w) as [[e|node'] w']; simpl in Hload, Hread; [done|].
  simplify_eq. rewrite Hread. cbn [fst snd cache trace]. unfold readNode_decode.
  split; [|split; [|done]].
  - intros err ->. by destruct (errors_As_decode err) as [[m fi]|].
  - intros tf -> ->. done.
Qed.

(** X12. A task that is nil in the parsed document is nil in the document
    that [readNode] returns: the task made for it at line 213 is given to
    the loop variable only, so it is stamped and dropped. The tasks keep
    their names and their order. *)
Theorem nil_task_stays_nil r n w tf node :
  fst (readNode r n w) = inr (tf, node) →
  ∃ src parsed,
    Read (trace (snd (loadNode r n w))) node = inr src ∧
    Unmarshal (FileContent src) = inr parsed ∧
    map fst (Taskfile_Tasks tf) = map fst (Taskfile_Tasks parsed) ∧
    ∀ i name,
      Taskfile_Tasks parsed !! i = Some (name, None) ↔
      Taskfile_Tasks tf !! i = Some (name, None).
Proof.
  intros Hok. destruct (readNode_success r n w tf node Hok)
    as (src & parsed & Hload & Hread & Hparse & Hversion & ->).
  exists src, parsed. split; [done|]. split; [done|]. cbn [Taskfile_Tasks].
  unfold stamp_tasks. split.
  - rewrite map_map. by apply map_ext.
  - intros i name. rewrite list_lookup_fmap.
    destruct (Taskfile_Tasks parsed !! i) as [[name' [task|]]|]; cbn; split;
      intros ?; by simplify_eq.
Qed.
End ReadNodePaths.

(** ** More on [include]: the vertices and the edges along a run *)

Section IncludeInvariants.
Context {Node RemoteNode : Type} `{!Collaborators Node RemoteNode}.
Implicit Types (r : Reader) (t th : thread Node) (gs : list (thread Node)).
Implicit Types (σ : Shared Node) (k : kont Node).

Lemma failed_return_to k e : failed (return_to k (Some e)) = true.
Proof. by destruct k. Qed.

(** The list of the loaded locations grows at its end. *)
Lemma step_loaded r path t σ : loaded σ `prefix_of` loaded (snd (step r path t σ)).
Proof.
  revert path t σ.
  apply (step_ind (λ t σ t' σ', loaded σ `prefix_of` loaded σ')); [|done..].
  intros t σ. destruct t as [node vars inc|k node|k node|k first gs|node inc child|e]; simpl.
  - by destruct (resolve r node vars inc) as [|[[]|]].
  - destruct (AddVertex _ _ _); [case_decide|]; done.
  - destruct (readNode r node (world σ)) as [[err|[tf node']] w]; simpl;
      by apply prefix_app_r.
  - by destruct (forallb is_finished gs).
  - by destruct (link (graph σ) node inc child).
  - done.
Qed.

(** What one step does to a vertex: nothing, or it claims a location that
    was free, or it gives its document to a location that waited for it. A
    location that waited and does so no more has its document, unless the
    read has failed. *)
Lemma step_vertex r path t σ :
  (∀ l,
     vertices (graph (snd (step r path t σ))) !! l = vertices (graph σ) !! l ∨
     (vertices (graph σ) !! l = None ∧
      vertices (graph (snd (step r path t σ))) !! l = Some None ∧
      l ∈ pending (fst (step r path t σ))) ∨
     (l ∈ pending t ∧ l ∈ loaded (snd (step r path t σ)) ∧
      is_Some (vertices (graph σ) !! l) ∧
      ∃ tf, vertices (graph (snd (step r path t σ))) !! l = Some (Some tf) ∧
            is_Some (Taskfile_Version tf) ∧
            ∃ node node' w, l = Location_of node ∧
                            fst (readNode r node w) = inr (tf, node'))) ∧
  (∀ l, l ∈ pending t →
     l ∈ pending (fst (step r path t σ)) ∨ failed (fst (step r path t σ)) = true ∨
     vertices (graph σ) !! l = None ∨
     ∃ tf, vertices (graph (snd (step r path t σ))) !! l = Some (Some tf)).
Proof.
  revert path t σ.
  apply (step_ind (λ t σ t' σ',
    (∀ l,
       vertices (graph σ') !! l = vertices (graph σ) !! l ∨
       (vertices (graph σ) !! l = None ∧ vertices (graph σ') !! l = Some None ∧
        l ∈ pending t') ∨
       (l ∈ pending t ∧ l ∈ loaded σ' ∧ is_Some (vertices (graph σ) !! l) ∧
        ∃ tf, vertices (graph σ') !! l = Some (Some tf) ∧ is_Some (Taskfile_Version tf) ∧
              ∃ node node' w, l = Location_of node ∧
                              fst (readNode r node w) = inr (tf, node'))) ∧
    (∀ l, l ∈ pending t →
       l ∈ pending t' ∨ failed t' = true ∨ vertices (graph σ) !! l = None ∨
       ∃ tf, vertices (graph σ') !! l = Some (Some tf)))).
  - intros t σ. destruct t as [node vars inc|k node|k node|k first gs|node inc child|e]; simpl.
    + split; [|by intros l ?%elem_of_nil].
      destruct (resolve r node vars inc) as [|[[]|]]; by left.
    + split; [|by intros l ?%elem_of_nil].
      unfold AddVertex. destruct (vertices (graph σ) !! Location_of node) eqn:Hv; simpl.
      * by left.
      * intros l. destruct (decide (l = Location_of node)) as [->|Hne].
        -- right; left. rewrite lookup_insert_eq. repeat split; [done|].
           apply list_elem_of_here.
        -- left. by rewrite lookup_insert_ne.
    + pose proof (readNode_success r node (world σ)) as Hok.
      destruct (readNode r node (world σ)) as [[err|[tf node']] w] eqn:Hread; simpl.
      * split; [by left|]. intros l _. right; left. apply failed_return_to.
      * destruct (Hok tf node' eq_refl) as (src & parsed & _ & _ & _ & Hversion & Htf).
        split.
        -- intros l. destruct (decide (l = Location_of node)) as [->|Hne].
           ++ rewrite lookup_alter_eq.
              destruct (vertices (graph σ) !! Location_of node) as [v|] eqn:Hv; [|by left].
              right; right. split; [apply list_elem_of_here|].
              split; [apply elem_of_app; right; apply list_elem_of_here|].
              split; [done|]. exists tf. split; [done|]. split; [by rewrite Htf|].
              exists node, node', (world σ). by rewrite Hread.
           ++ left. by rewrite lookup_alter_ne.
        -- intros l ->%list_elem_of_singleton. rewrite lookup_alter_eq.
           destruct (vertices (graph σ) !! Location_of node) as [v|]; simpl; eauto.
    + destruct (forallb is_finished gs) eqn:Hfin; simpl.
      * split; [by left|]. intros l. by rewrite (pending_finished gs Hfin), elem_of_nil.
      * split; [by left|]. intros l ?. by left.
    + pose proof (link_vertices (graph σ) node inc child) as Hv.
      destruct (link (graph σ) node inc child) as [g err]. simpl in *. rewrite Hv.
      split; [by left|]. by intros l ?%elem_of_nil.
    + split; [by left|]. by intros l ?%elem_of_nil.
  - intros t σ. split; [by left|]. intros l ?. by left.
  - intros k first gs i th th' σ σ' Hi [H1 H2].
    destruct (flat_map_insert pending gs i th th' Hi) as (rest & Hgs & Hgs').
    assert (gs' : <[i := th']> gs !! i = Some th').
    { apply list_lookup_insert_eq. by eapply lookup_lt_Some. }
    assert (failed th' = true →
            failed (Waiting k (record first th th') (<[i := th']> gs)) = true) as Hfailed.
    { intros Hth'. apply failed_Waiting. right. apply Exists_exists. exists th'.
      split; [by eapply list_elem_of_lookup_2|done]. }
    simpl pending in *. split.
    + intros l. destruct (H1 l) as [HA|[(? & ? & Hin)|(Hin & ? & ? & ?)]].
      * by left.
      * right; left. repeat split; [done..|]. rewrite Hgs'. apply elem_of_app. by left.
      * right; right. repeat split; [|done..]. rewrite Hgs. apply elem_of_app. by left.
    + intros l. rewrite Hgs, Hgs', !elem_of_app. intros [Hl|Hl]; [|by left; right].
      destruct (H2 l Hl) as [?|[?|[?|?]]]; eauto.
Qed.

(** No step removes a vertex. *)
Lemma step_vertex_kept r path t σ l :
  is_Some (vertices (graph σ) !! l) →
  is_Some (vertices (graph (snd (step r path t σ))) !! l).
Proof.
  intros Hl. destruct (proj1 (step_vertex r path t σ) l)
    as [->|[(Hnone & _)|(_ & _ & _ & tf & -> & _)]]; [done| |done].
  rewrite Hnone in Hl. by destruct Hl.
Qed.

Lemma run_vertex_kept r schedule (c : thread Node * Shared Node) l :
  is_Some (vertices (graph (snd c)) !! l) →
  is_Some (vertices (graph (snd (run r schedule c))) !! l).
Proof.
  revert c. induction schedule as [|path schedule IH]; intros c Hl; [done|].
  simpl. apply IH. by apply step_vertex_kept.
Qed.

(** A step keeps the vertices in order. *)
Lemma step_consistent r path t σ :
  consistent t σ → consistent (fst (step r path t σ)) (snd (step r path t σ)).
Proof.
  intros (Hnd & Hdom & Hrec & HK & HJ & HV).
  destruct (step_claimed_once r path t σ Hnd Hdom) as [Hnd' Hdom'].
  destruct (step_failed r path t σ Hrec) as [Hrec' Hfailed].
  destruct (step_vertex r path t σ) as [H1 H2].
  pose proof (step_loaded r path t σ) as Hloaded.
  destruct (step_claims r path t σ) as (new & Hnew & Hdomnew & Hperm).
  split; [done|]. split; [done|]. split; [done|]. split; [|split].
  - intros l Hl.
    assert (l ∉ loaded (snd (step r path t σ))) as Hnot.
    { intros Hin. apply NoDup_app in Hnd' as (_ & Hdisj & _). by apply (Hdisj l). }
    destruct (H1 l) as [HA|[(? & ? & ?)|(? & ? & _)]]; [|done|done].
    rewrite HA.
    assert (l ∈ new ++ loaded σ ++ pending t) as Hin.
    { rewrite <- Hperm. apply elem_of_app. by right. }
    apply elem_of_app in Hin as [Hin|Hin]; [|apply elem_of_app in Hin as [Hin|Hin]].
    + exfalso. destruct Hnew as [->|(l' & -> & Hl')]; [by apply elem_of_nil in Hin|].
      apply list_elem_of_singleton in Hin as ->.
      assert (l' ∈ dom (vertices (graph (snd (step r path t σ))))) as Hd.
      { rewrite Hdomnew. apply elem_of_union. left.
        apply elem_of_list_to_set, list_elem_of_here. }
      apply elem_of_dom in Hd. rewrite HA, Hl' in Hd. by destruct Hd.
    + exfalso. apply Hnot. by eapply elem_of_prefix.
    + by apply HK.
  - intros l Hl. destruct (H1 l) as [HA|[(? & ? & ?)|(_ & _ & _ & tf & Htf & _)]].
    + rewrite HA in Hl. destruct (HJ l Hl) as [Hp|Hf]; [|right; by apply Hfailed].
      destruct (H2 l Hp) as [?|[?|[Hnone|(tf & Htf)]]]; [by left|by right|..].
      * congruence.
      * congruence.
    + by left.
    + congruence.
  - intros l tf Hl. destruct (H1 l) as [HA|[(? & ? & ?)|(_ & _ & _ & tf' & Htf & ? & _)]].
    + rewrite HA in Hl. by eapply HV.
    + congruence.
    + congruence.
Qed.

Lemma run_consistent r schedule (c : thread Node * Shared Node) :
  consistent (fst c) (snd c) →
  consistent (fst (run r schedule c)) (snd (run r schedule c)).
Proof.
  revert c. induction schedule as [|path schedule IH]; intros c Hc; [done|].
  simpl. apply IH. by apply step_consistent.
Qed.

Lemma start_consistent (root : Node) w : consistent (fst (start root w)) (snd (start root w)).
Proof.
  unfold start, NewTaskfileGraph. simpl.
  split; [apply NoDup_nil_2|]. split; [apply dom_empty_L|]. split; [done|].
  repeat split.
  - by intros l ?%elem_of_nil.
  - intros l. simpl. rewrite lookup_empty. discriminate.
  - intros l tf. simpl. rewrite lookup_empty. discriminate.
Qed.

(** The update of an edge keeps the edges there are, and adds to the end
    of their lists only. *)
Lemma link_grows g node inc child pair e :
  edges g !! pair = Some e →
  ∃ e', edges (fst (link g node inc child)) !! pair = Some e' ∧
        Edge_Data e `prefix_of` Edge_Data e'.
Proof.
  intros He.
  destruct (edges g !! (Location_of node, Location_of child)) as [edge|] eqn:Hedge.
  - rewrite (link_existing _ _ _ _ _ Hedge). simpl.
    destruct (decide (pair = (Location_of node, Location_of child))) as [->|Hne].
    + rewrite lookup_insert_eq. eexists. split; [done|]. simpl. simplify_eq.
      by apply prefix_app_r.
    + rewrite lookup_insert_ne by done. eauto.
  - unfold link, Edge_of. rewrite Hedge. rewrite decide_True by done.
    unfold AddEdge. rewrite Hedge.
    repeat case_match; simplify_eq; simpl; eauto.
    rewrite lookup_insert_ne; [eauto|]. intros <-. congruence.
Qed.

Lemma step_edges r path t σ pair e :
  edges (graph σ) !! pair = Some e →
  ∃ e', edges (graph (snd (step r path t σ))) !! pair = Some e' ∧
        Edge_Data e `prefix_of` Edge_Data e'.
Proof.
  revert path t σ.
  apply (step_ind (λ t σ t' σ',
    edges (graph σ) !! pair = Some e →
    ∃ e', edges (graph σ') !! pair = Some e' ∧ Edge_Data e `prefix_of` Edge_Data e'));
    [|by eauto..].
  intros t σ He. destruct t as [node vars inc|k node|k node|k first gs|node inc child|e0]; simpl.
  - destruct (resolve r node vars inc) as [|[[]|]]; eauto.
  - unfold AddVertex. destruct (vertices (graph σ) !! Location_of node); simpl; eauto.
  - destruct (readNode r node (world σ)) as [[err|[tf node']] w]; simpl; eauto.
  - destruct (forallb is_finished gs); eauto.
  - pose proof (link_grows (graph σ) node inc child pair e He) as Hl.
    by destruct (link (graph σ) node inc child).
  - eauto.
Qed.

Lemma grows_refl g : grows g g.
Proof. repeat split; eauto. Qed.

Lemma grows_trans g1 g2 g3 : grows g1 g2 → grows g2 g3 → grows g1 g3.
Proof.
  intros (Ha & Hb & Hc) (Ha' & Hb' & Hc'). repeat split; eauto.
  intros pair e He. destruct (Hc pair e He) as (e' & He' & Hp).
  destruct (Hc' pair e' He') as (e'' & He'' & Hp'). exists e''. split; [done|].
  by etrans.
Qed.

Lemma step_grows r path t σ :
  consistent t σ → grows (graph σ) (graph (snd (step r path t σ))).
Proof.
  intros (Hnd & Hdom & Hrec & HK & HJ & HV). split; [|split].
  - intros l. apply step_vertex_kept.
  - intros l tf Hl.
    destruct (proj1 (step_vertex r path t σ) l) as [HA|[(? & ? & ?)|(Hp & _)]].
    + by rewrite HA.
    + congruence.
    + apply HK in Hp. congruence.
  - intros pair e. apply step_edges.
Qed.

Lemma run_grows r schedule (c : thread Node * Shared Node) :
  consistent (fst c) (snd c) →
  grows (graph (snd c)) (graph (snd (run r schedule c))) ∧
  loaded (snd c) `prefix_of` loaded (snd (run r schedule c)).
Proof.
  revert c. induction schedule as [|path schedule IH]; intros c Hc.
  - split; [apply grows_refl|done].
  - simpl. destruct (IH _ (step_consistent r path _ _ Hc)) as [Hg Hl]. split.
    + eapply grows_trans; [by apply step_grows|done].
    + etrans; [apply step_loaded|done].
Qed.

(** X13. When the first [Read] on a reader as [NewReader] makes it (its
    graph is empty) returns a graph, every vertex of the graph holds a
    document, and the document has a schema version: no vertex is left with
    the nil it was claimed with. So it is whatever the schedule of the
    goroutines, and for [include] as it reads. It is not so for a later
    [Read] on the same reader, which returns the graph as the first one left
    it, with a vertex that holds nil if the first one failed on it. *)
Theorem returned_graph_is_filled r root w g :
  (∃ schedule, Read_result (run r schedule (start root w)) = Some (inr g)) ∨
  (∃ fuel, Reader_Read r fuel root w = Some (inr g)) →
  filled g.
Proof.
  intros Hg.
  assert (∃ schedule, Read_result (run r schedule (start root w)) = Some (inr g))
    as (schedule & Hres).
  { destruct Hg as [?|(fuel & Hread)]; [done|]. by eapply Reader_Read_is_a_run. }
  destruct (run_consistent r schedule _ (start_consistent root w))
    as (_ & _ & _ & _ & HJ & HV).
  unfold Read_result in Hres.
  destruct (fst (run r schedule (start root w))) as [| | | | |[e|]] eqn:Hc; simplify_eq.
  intros l v Hl. destruct v as [tf|].
  - exists tf. split; [done|]. by eapply HV.
  - destruct (HJ l Hl) as [Hp|Hf]; [by apply elem_of_nil in Hp|done].
Qed.

(** X14. Along a run the graph only grows, whatever the schedule: a vertex
    stays, the document a vertex holds is never replaced, an edge stays, and
    the list of includes of an edge is only added to at its end. Nor is a
    location taken off the list of the loaded ones, or an event off the
    trace. *)
Theorem graph_only_grows r root w schedule schedule' :
  let c := run r schedule (start root w) in
  let c' := run r schedule' c in
  grows (graph (snd c)) (graph (snd c')) ∧
  loaded (snd c) `prefix_of` loaded (snd c') ∧
  trace (world (snd c)) `prefix_of` trace (world (snd c')).
Proof.
  intros c c'.
  destruct (run_grows r schedule' c (run_consistent r schedule _ (start_consistent root w)))
    as [Hg Hl].
  split; [done|]. split; [done|].
  destruct (run_parses r schedule' c) as (evs & Htrace & _).
  unfold c'. rewrite Htrace. by apply prefix_app_r.
Qed.
(** [loadNode] gives a node of the location it was given, when the
    handles of the cache keep the location. *)
Lemma loadNode_location r (n node : Node) w :
  handles_keep_location →
  fst (loadNode r n w) = inr node → Location_of node = Location_of n.
Proof.
  intros (Hremote & Hcached & Hwritten). unfold loadNode.
  destruct (asRemote n) as [remote|] eqn:Hn; [|by intros [= ->]].
  specialize (Hremote n remote Hn). specialize (Hcached remote).
  specialize (Hwritten remote). unfold remote_Location in *.
  run_cases; intros ?; simplify_eq; congruence.
Qed.

(** X15. Every vertex holds the document of its own location. The vertex
    is named by the location of the node as [include] was given it, and the
    document by the location of the node as [loadNode] returned it; the two
    agree, whatever the schedule, when the copy that the cache gives for a
    remote node and the node that a write to the cache gives have the
    location of the remote node. *)
Theorem vertex_holds_its_own_document r root w schedule l tf :
  handles_keep_location →
  vertices (graph (snd (run r schedule (start root w)))) !! l = Some (Some tf) →
  Taskfile_Location tf = l.
Proof.
  intros Hkeep.
  cut (∀ c : thread Node * Shared Node,
         (∀ l tf, vertices (graph (snd c)) !! l = Some (Some tf) → Taskfile_Location tf = l) →
         ∀ l tf, vertices (graph (snd (run r schedule c))) !! l = Some (Some tf) →
                 Taskfile_Location tf = l).
  { intros Hrun. apply Hrun. intros l' tf'. unfold start, NewTaskfileGraph. simpl.
    rewrite lookup_empty. discriminate. }
  clear l tf. induction schedule as [|path schedule IH]; intros c Hc; [done|].
  rewrite run_cons. apply IH. simpl. intros l tf Hl.
  destruct (proj1 (step_vertex r path (fst c) (snd c)) l)
    as [HA|[(? & ? & ?)|(_ & _ & _ & tf' & Htf & _ & node & node' & w' & -> & Hread)]].
  - rewrite HA in Hl. by apply Hc.
  - congruence.
  - assert (tf' = tf) as -> by congruence.
    destruct (readNode_success r node w' tf node' Hread)
      as (src & parsed & Hload & _ & _ & _ & ->).
    simpl. by eapply loadNode_location.
Qed.
End IncludeInvariants.

(** ** More on [include] and [Read]: local documents, the root, a second read *)

Section IncludePaths.
Context {Node RemoteNode : Type} `{!Collaborators Node RemoteNode}.
Implicit Types (r : Reader) (t th : thread Node) (gs : list (thread Node)).
Implicit Types (σ : Shared Node) (k : kont Node) (w : World Node).

(** What [resolve] has done when it gives an include and a node. *)
Lemma resolve_inv r node vars inc inc' child :
  resolve r node vars inc = inr (Some (inc', child)) →
  ∃ taskfile dir entrypoint dir',
    Replace (Include_Taskfile inc) vars = inr taskfile ∧
    Replace (Include_Dir inc) vars = inr dir ∧
    ResolveEntrypoint node taskfile = inr entrypoint ∧
    ResolveDir node dir = inr dir' ∧
    NewNode entrypoint dir' (insecure r) (timeout r) node = inr child ∧
    inc' = mkInclude (Include_Namespace inc) taskfile dir'
             (Include_Optional inc) (Include_Internal inc) (Include_Flatten inc)
             (Include_Aliases inc) (Include_AdvancedImport inc) (Include_Vars inc).
Proof.
  unfold resolve, Replace_fields.
  destruct (Replace (Include_Taskfile inc) vars) as [|taskfile] eqn:Ht; [done|].
  destruct (Replace (Include_Dir inc) vars) as [|dir] eqn:Hd; [done|].
  destruct (ResolveEntrypoint node taskfile) as [|entrypoint] eqn:He; [done|].
  destruct (ResolveDir node dir) as [|dir'] eqn:Hd'; [done|].
  destruct (NewNode entrypoint dir' _ _ node) as [|child'] eqn:Hnew; cbn.
  - by destruct (Include_Optional inc).
  - intros ?; simplify_eq. by exists taskfile, dir, entrypoint, dir'.
Qed.

(** [readNode] on a local node: one read of the file, and its decoding. *)
Lemma readNode_local r n w :
  is_local n = true →
  readNode r n w =
    match Read (trace w) n with
    | inl e => (inl e, mkWorld (cache w) (trace w ++ [EvRead n]))
    | inr src =>
        (readNode_decode n src, mkWorld (cache w) (trace w ++ [EvRead n; EvUnmarshal n]))
    end.
Proof.
  unfold is_local. intros Hn. rewrite readNode_run, loadNode_local; [done|].
  by destruct (asRemote n).
Qed.

Lemma readNode_decode_node (n : Node) src tf node :
  readNode_decode n src = inr (tf, node) → node = n.
Proof.
  unfold readNode_decode. repeat case_match; intros ?; by simplify_eq.
Qed.

Lemma reads_local_return_to k err : reads_local (return_to k err) = true.
Proof. by destruct k, err. Qed.

Lemma reads_local_spawn (node : Node) tf : forallb reads_local (spawn node tf) = true.
Proof. unfold spawn. apply forallb_Forall, Forall_fmap, Forall_true. done. Qed.

(** A step of a run whose nodes are local reads and parses files, and does
    nothing else that is seen. *)
Lemma step_local r path t σ :
  (∀ entrypoint dir i timeout parent n,
     NewNode entrypoint dir i timeout parent = inr n → is_local n = true) →
  reads_local t = true →
  reads_local (fst (step r path t σ)) = true ∧
  cache (world (snd (step r path t σ))) = cache (world σ) ∧
  ∃ evs, trace (world (snd (step r path t σ))) = trace (world σ) ++ evs ∧
         Forall (λ e, is_file_event e = true) evs.
Proof.
  intros Hnew. revert path t σ.
  apply (step_ind (λ t σ t' σ',
    reads_local t = true →
    reads_local t' = true ∧ cache (world σ') = cache (world σ) ∧
    ∃ evs, trace (world σ') = trace (world σ) ++ evs ∧
           Forall (λ e, is_file_event e = true) evs)).
  - intros t σ Hlocal.
    assert (∀ σ, ∃ evs : list (Event Node),
              trace (world σ) = trace (world σ) ++ evs ∧
              Forall (λ e, is_file_event e = true) evs) as Hnone.
    { intros σ0. exists []. by rewrite app_nil_r. }
    destruct t as [node vars inc|k node|k node|k first gs|node inc child|e]; simpl.
    + destruct (resolve r node vars inc) as [|[[inc' child]|]] eqn:Hres; simpl;
        (split; [|split; [done|apply Hnone]]); try done.
      destruct (resolve_inv _ _ _ _ _ _ Hres) as (? & ? & ? & ? & _ & _ & _ & _ & Hn & _).
      by eapply Hnew.
    + destruct (AddVertex _ _ _); [case_decide|]; simpl;
        rewrite ?reads_local_return_to; (split; [done|split; [done|apply (Hnone σ)]]).
    + simpl in Hlocal. rewrite (readNode_local r node (world σ) Hlocal).
      destruct (Read (trace (world σ)) node) as [e|src]; simpl.
      * rewrite reads_local_return_to. split; [done|]. split; [done|].
        exists [EvRead node]. split; [done|]. by repeat constructor.
      * destruct (readNode_decode node src) as [e|[tf node']] eqn:Hdec; simpl.
        -- rewrite reads_local_return_to. split; [done|]. split; [done|].
           exists [EvRead node; EvUnmarshal node]. split; [done|]. by repeat constructor.
        -- split; [apply reads_local_spawn|]. split; [done|].
           exists [EvRead node; EvUnmarshal node]. split; [done|]. by repeat constructor.
    + destruct (forallb is_finished gs); simpl; rewrite ?reads_local_return_to;
        (split; [done|split; [done|apply (Hnone σ)]]).
    + destruct (link (graph σ) node inc child); simpl.
      split; [done|]. split; [done|]. apply (Hnone σ).
    + split; [done|]. split; [done|]. apply (Hnone σ).
  - intros t σ Hlocal. split; [done|]. split; [done|]. exists []. by rewrite app_nil_r.
  - intros k first gs i th th' σ σ' Hi IH Hlocal. simpl in Hlocal.
    apply forallb_Forall in Hlocal.
    destruct (IH (Forall_lookup_1 _ _ _ _ Hlocal Hi)) as (Hth' & Hcache & Hevs).
    split; [|done]. simpl. apply forallb_Forall. by apply Forall_insert.
Qed.

Lemma run_local r schedule (c : thread Node * Shared Node) :
  (∀ entrypoint dir i timeout parent n,
     NewNode entrypoint dir i timeout parent = inr n → is_local n = true) →
  reads_local (fst c) = true →
  reads_local (fst (run r schedule c)) = true ∧
  cache (world (snd (run r schedule c))) = cache (world (snd c)) ∧
  ∃ evs, trace (world (snd (run r schedule c))) = trace (world (snd c)) ++ evs ∧
         Forall (λ e, is_file_event e = true) evs.
Proof.
  intros Hnew. revert c. induction schedule as [|path schedule IH]; intros c Hc.
  - split; [done|]. split; [done|]. exists []. by rewrite app_nil_r.
  - simpl. destruct (step_local r path (fst c) (snd c) Hnew Hc) as (Hc' & Hcache & evs & Ht & Hevs).
    destruct (IH _ Hc') as (Hc'' & Hcache' & evs' & Ht' & Hevs').
    split; [done|]. split; [congruence|]. exists (evs ++ evs'). split.
    + by rewrite Ht', Ht, app_assoc.
    + by apply Forall_app.
Qed.

(** [include] on a location that is a vertex returns at once. *)
Lemma include_claimed r fuel node σ :
  is_Some (vertices (graph σ) !! Location_of node) →
  include r fuel node σ = Some (None, σ).
Proof.
  intros [v Hv]. destruct fuel; simpl; unfold include_body, AddVertex; by rewrite Hv.
Qed.

(** After [include] on the empty graph, the location it was called on is a
    vertex. *)
Lemma include_claims_root r fuel root w err σ :
  include r fuel root (mkShared NewTaskfileGraph w []) = Some (err, σ) →
  is_Some (vertices (graph σ) !! Location_of root).
Proof.
  intros Hinc. destruct (include_is_a_run r fuel _ _ _ _ KRead Hinc) as (s & Hs).
  destruct s as [|path s]; [done|]. rewrite run_cons in Hs. simpl in Hs.
  rewrite step_leaf in Hs by done. simpl in Hs.
  unfold AddVertex, NewTaskfileGraph in Hs. simpl in Hs. rewrite lookup_empty in Hs.
  simpl in Hs.
  pose proof (run_vertex_kept r s
    (Reading KRead root, mkShared (mkGraph (<[Location_of root := None]> ∅) ∅) w [])
    (Location_of root)) as Hkept.
  rewrite Hs in Hkept. apply Hkept. simpl. by rewrite lookup_insert_eq.
Qed.

(** X16. A run in which every node is local (the root, and every node that
    [NewNode] builds) never enters the remote workflow, whatever the
    schedule: the cache is not opened, read or written, nothing is fetched
    or compared, no prompt is shown and nothing is logged. All that is seen
    of the run are the reads and the parses of files, and the cache is as it
    was. *)
Theorem local_run_stays_local r root w schedule :
  (∀ entrypoint dir i timeout parent n,
     NewNode entrypoint dir i timeout parent = inr n → is_local n = true) →
  is_local root = true →
  let c := run r schedule (start root w) in
  cache (world (snd c)) = cache w ∧
  ∃ evs, trace (world (snd c)) = trace w ++ evs ∧
         Forall (λ e, is_file_event e = true) evs.
Proof.
  intros Hnew Hroot c.
  destruct (run_local r schedule (start root w) Hnew Hroot) as (_ & Hcache & Hevs).
  done.
Qed.

(** X17. [Read] on a root whose document includes nothing returns the
    graph of one vertex, the location of the root as it was given, with the
    document that [readNode] returned and no edge; when [readNode] fails on
    the root, [Read] fails with its error as it is. Neither needs a
    recursive call. *)
Theorem read_of_the_root r fuel root w :
  (∀ err, fst (readNode r root w) = inl err →
          Reader_Read r fuel root w = Some (inl err)) ∧
  (∀ tf node, fst (readNode r root w) = inr (tf, node) →
              Taskfile_Includes tf = [] →
              Reader_Read r fuel root w
                = Some (inr (mkGraph {[Location_of root := Some tf]} ∅))).
Proof.
  assert (include r fuel root (mkShared NewTaskfileGraph w []) =
          include_body r (match fuel with
                          | O => λ _ _, None
                          | S fuel => include r fuel
                          end) root (mkShared NewTaskfileGraph w [])) as Hbody
    by by destruct fuel.
  unfold Reader_Read. rewrite Hbody. unfold include_body, AddVertex, NewTaskfileGraph.
  cbn [graph vertices edges world loaded]. rewrite lookup_empty.
  destruct (readNode r root w) as [[e|[tf node]] w']; cbn [fst]; split.
  - by intros err [= ->].
  - done.
  - done.
  - intros tf' node' [= <- <-] ->. cbn.
    by rewrite alter_insert_eq, insert_empty.
Qed.

(** X18. A second [Read] on a reader returns at once: the location of the
    root is a vertex of the graph that the reader holds, so [include]
    returns nil, and [Read] gives the graph as the first [Read] left it,
    without an error and without reading anything, also when the first
    [Read] had failed. *)
Theorem second_read_returns_at_once r fuel root w res σ :
  Reader_Read_again r fuel root (mkShared NewTaskfileGraph w []) = Some (res, σ) →
  ∀ fuel', Reader_Read_again r fuel' root σ = Some (inr (graph σ), σ).
Proof.
  unfold Reader_Read_again at 1.
  destruct (include r fuel root _) as [[err σ']|] eqn:Hinc; [|done].
  intros Hres fuel'.
  assert (σ' = σ) as -> by (destruct err; by simplify_eq).
  unfold Reader_Read_again.
  by rewrite (include_claimed r fuel' root σ (include_claims_root _ _ _ _ _ _ Hinc)).
Qed.

(** X19. What a goroutine puts on the edge and what it builds the node of
    the included document from. The include on the edge has the Taskfile
    field after the templating, not the resolved entrypoint, the directory
    after the templating and the resolution, and its other fields as they
    were; the node is built from the resolved entrypoint and the resolved
    directory, with the insecure option and the timeout of the reader, as a
    child of the node that was read. *)
Theorem resolved_include r node vars inc inc' child :
  resolve r node vars inc = inr (Some (inc', child)) →
  ∃ taskfile dir entrypoint dir',
    Replace (Include_Taskfile inc) vars = inr taskfile ∧
    Replace (Include_Dir inc) vars = inr dir ∧
    ResolveEntrypoint node taskfile = inr entrypoint ∧
    ResolveDir node dir = inr dir' ∧
    NewNode entrypoint dir' (insecure r) (timeout r) node = inr child ∧
    Include_Taskfile inc' = taskfile ∧
    Include_Dir inc' = dir' ∧
    Include_Namespace inc' = Include_Namespace inc ∧
    Include_Optional inc' = Include_Optional inc ∧
    Include_Internal inc' = Include_Internal inc ∧
    Include_Flatten inc' = Include_Flatten inc ∧
    Include_Aliases inc' = Include_Aliases inc ∧
    Include_AdvancedImport inc' = Include_AdvancedImport inc ∧
    Include_Vars inc' = Include_Vars inc.
Proof.
  intros Hres.
  destruct (resolve_inv _ _ _ _ _ _ Hres)
    as (taskfile & dir & entrypoint & dir' & ? & ? & ? & ? & ? & ->).
  exists taskfile, dir, entrypoint, dir'. by repeat split.
Qed.
End IncludePaths.

(** ** More on [include]: every document is parsed once and linked *)

Section IncludeComplete.
Context {Node RemoteNode : Type} `{!Collaborators Node RemoteNode}.
Implicit Types (r : Reader) (t th : thread Node) (gs : list (thread Node)).
Implicit Types (σ : Shared Node) (k : kont Node) (w : World Node) (g : TaskfileGraph).

(** [readNode] parses exactly once when it returns a document. *)
Lemma readNode_parses_exactly r n w tf node :
  fst (readNode r n w) = inr (tf, node) →
  ∃ evs, trace (snd (readNode r n w)) = trace w ++ evs ∧ parses evs = 1%nat.
Proof.
  unfold readNode, loadNode.
  run_cases; intros ?; simplify_eq;
    (eexists; split; [rewrite <- ?app_assoc; try reflexivity; symmetry; apply app_nil_r
                     |unfold parses; simpl; lia]).
Qed.

(** Unless a goroutine has failed, a step parses as often as it loads. *)
Lemma step_parses_exactly r path t σ :
  ∃ evs,
    trace (world (snd (step r path t σ))) = trace (world σ) ++ evs ∧
    (failed (fst (step r path t σ)) = true ∨
     (parses evs + length (loaded σ))%nat = length (loaded (snd (step r path t σ)))).
Proof.
  revert path t σ.
  apply (step_ind (λ t σ t' σ',
    ∃ evs, trace (world σ') = trace (world σ) ++ evs ∧
           (failed t' = true ∨ (parses evs + length (loaded σ))%nat = length (loaded σ')))).
  - intros t σ.
    destruct t as [node vars inc|k node|k node|k first gs|node inc child|e]; simpl.
    + exists []. rewrite app_nil_r. destruct (resolve r node vars inc) as [|[[]|]]; eauto.
    + exists []. rewrite app_nil_r. destruct (AddVertex _ _ _); [case_decide|]; eauto.
    + pose proof (readNode_parses_exactly r node (world σ)) as Hok.
      destruct (readNode_parses_once r node (world σ)) as (evs0 & Htrace0 & _).
      destruct (readNode r node (world σ)) as [[err|[tf node']] w]; simpl in *.
      * exists evs0. split; [done|]. left. apply failed_return_to.
      * destruct (Hok tf node' eq_refl) as (evs & Htrace & Hparses).
        exists evs. split; [done|]. right. rewrite length_app. simpl. lia.
    + exists []. rewrite app_nil_r. destruct (forallb is_finished gs); eauto.
    + exists []. rewrite app_nil_r. destruct (link (graph σ) node inc child); eauto.
    + exists []. rewrite app_nil_r. eauto.
  - intros t σ. exists []. rewrite app_nil_r. eauto.
  - intros k first gs i th th' σ σ' Hi (evs & Htrace & Hcase).
    exists evs. split; [done|]. destruct Hcase as [Hf|?]; [left|by right].
    apply failed_Waiting. right. apply Exists_exists. exists th'. split; [|done].
    eapply list_elem_of_lookup_2. apply list_lookup_insert_eq. by eapply lookup_lt_Some.
Qed.

Lemma run_parses_exactly r schedule (c : thread Node * Shared Node) :
  recorded (fst c) = true →
  ∃ evs,
    trace (world (snd (run r schedule c))) = trace (world (snd c)) ++ evs ∧
    (failed (fst (run r schedule c)) = true ∨
     (parses evs + length (loaded (snd c)))%nat = length (loaded (snd (run r schedule c)))).
Proof.
  revert c. induction schedule as [|path schedule IH]; intros c Hrec.
  - exists []. rewrite app_nil_r. eauto.
  - simpl. destruct (step_parses_exactly r path (fst c) (snd c)) as (evs & Htrace & Hcase).
    destruct (step_failed r path (fst c) (snd c) Hrec) as [Hrec' _].
    destruct (IH (step r path (fst c) (snd c)) Hrec') as (evs' & Htrace' & Hcase').
    exists (evs ++ evs'). split; [by rewrite Htrace', Htrace, app_assoc|].
    destruct Hcase' as [?|Hn']; [by left|].
    destruct Hcase as [Hf|Hn].
    + left. by apply (run_failed r schedule (step r path (fst c) (snd c))).
    + right. rewrite parses_app. lia.
Qed.

(** X20. When the first [Read] on a reader as [NewReader] makes it (its
    graph is empty) returns a graph, the run has parsed exactly as many
    documents as the graph has vertices, whatever the schedule: with no
    location loaded twice, each vertex has been parsed exactly once. A later
    [Read] on the same reader parses nothing. *)
Theorem each_vertex_parsed_exactly_once r root w schedule g :
  Read_result (run r schedule (start root w)) = Some (inr g) →
  ∃ evs,
    trace (world (snd (run r schedule (start root w)))) = trace w ++ evs ∧
    parses evs = size (dom (vertices g)).
Proof.
  intros Hres.
  destruct (run_parses_exactly r schedule (start root w) eq_refl) as (evs & Htrace & Hcase).
  destruct (run_claimed_once r schedule (start root w)) as [Hnd Hdom].
  { simpl. apply NoDup_nil_2. }
  { simpl. apply dom_empty_L. }
  unfold Read_result in Hres.
  destruct (fst (run r schedule (start root w))) as [| | | | |[e|]] eqn:Hc; simplify_eq.
  exists evs. split; [done|]. destruct Hcase as [?|Hn]; [done|].
  simpl in *. rewrite app_nil_r in *. rewrite Hdom, size_list_to_set by done. lia.
Qed.

(** *** The includes of every document are in the graph *)

Lemma thread_ind' (P : thread Node → Prop) :
  (∀ t, is_waiting t = false → P t) →
  (∀ k first gs, Forall P gs → P (Waiting k first gs)) →
  ∀ t, P t.
Proof.
  intros Hleaf Hwait. fix IH 1.
  intros [node vars inc|k node|k node|k first gs|node inc child|e];
    try (by apply Hleaf).
  apply Hwait. induction gs as [|th gs IHgs]; constructor; [apply IH|apply IHgs].
Qed.

Lemma tending_Waiting r g l tf k first gs :
  tending r g l tf (Waiting k first gs) ↔
  (∃ n w node,
     Location_of n = l ∧ fst (readNode r n w) = inr (tf, node) ∧
     Forall2 (λ kv th, works_on r g node (Merge GetEnviron (Taskfile_Vars tf)) (snd kv) th)
             (Taskfile_Includes tf) gs) ∨
  Exists (tending r g l tf) gs.
Proof.
  simpl. apply or_iff_compat_l. induction gs as [|th gs IH].
  - split; [done|]. by intros ?%Exists_nil.
  - rewrite Exists_cons. by rewrite IH.
Qed.

Lemma extends_refl g : extends g g.
Proof. split; eauto. Qed.

Lemma step_extends r path t σ : extends (graph σ) (graph (snd (step r path t σ))).
Proof.
  split.
  - intros l. apply step_vertex_kept.
  - intros pair e. apply step_edges.
Qed.

Lemma linked_extends r g g' node vars inc :
  extends g g' → linked r g node vars inc → linked r g' node vars inc.
Proof.
  intros (Hv & He). unfold linked.
  destruct (resolve r node vars inc) as [|[[inc' child]|]]; [done| |done].
  intros (Hchild & e & Hedge & Hin). split; [by apply Hv|].
  destruct (He _ _ Hedge) as (e' & Hedge' & Hprefix). exists e'. split; [done|].
  by eapply elem_of_prefix.
Qed.

Lemma document_linked_extends r g g' l tf :
  extends g g' → document_linked r g l tf → document_linked r g' l tf.
Proof.
  intros Hg (n & w & node & Hl & Hread & Hall). exists n, w, node.
  split; [done|]. split; [done|].
  eapply Forall_impl; [done|]. intros kv. by apply linked_extends.
Qed.

Lemma works_on_extends r g g' node vars inc th :
  extends g g' → works_on r g node vars inc th → works_on r g' node vars inc th.
Proof.
  intros Hg. pose proof Hg as (Hv & _).
  destruct th as [node0 vars0 inc0|[|n0 i0 c0] c|[|n0 i0 c0] c|[|n0 i0 c0] first gs
                 |n0 i0 c0|[e|]]; simpl; try done.
  - intros (? & ? & ? & ?). eauto.
  - intros (? & ? & ?). eauto.
  - intros (? & ? & ?). eauto.
  - by apply linked_extends.
Qed.

Lemma tending_extends r g g' l tf t :
  extends g g' → tending r g l tf t → tending r g' l tf t.
Proof.
  intros Hg. induction t as [t Hleaf|k first gs IH] using thread_ind'.
  - by destruct t.
  - rewrite !tending_Waiting. intros [(n & w & node & Hl & Hread & Hall)|Hex].
    + left. exists n, w, node. split; [done|]. split; [done|].
      eapply Forall2_impl; [done|]. intros kv th. by apply works_on_extends.
    + right. apply Exists_exists in Hex as (th & Hin & Hth).
      apply Exists_exists. exists th. split; [done|].
      by apply (proj1 (Forall_forall _ _) IH).
Qed.

(** The update of an edge that gives no error leaves the include on the
    edge. *)
Lemma link_done g (node : Node) inc child g' :
  link g node inc child = (g', None) →
  vertices g' = vertices g ∧
  ∃ e, edges g' !! (Location_of node, Location_of child) = Some e ∧ inc ∈ Edge_Data e.
Proof.
  intros Hlink.
  assert (g' = fst (link g node inc child)) as -> by by rewrite Hlink.
  split; [apply link_vertices|].
  destruct (edges g !! (Location_of node, Location_of child)) as [edge|] eqn:Hedge.
  - rewrite (link_existing _ _ _ _ _ Hedge). simpl. rewrite lookup_insert_eq.
    eexists. split; [done|]. simpl. apply elem_of_app. right. apply list_elem_of_here.
  - revert Hlink. unfold link, Edge_of. rewrite Hedge, decide_True by done.
    unfold AddEdge. rewrite Hedge.
    repeat case_match; simplify_eq; simpl; try done; intros _.
    rewrite lookup_insert_eq. eexists. split; [done|]. apply list_elem_of_here.
Qed.

(** The goroutines that a document is given to work on its includes. *)
Lemma spawn_works_on r g (node : Node) tf :
  Forall2 (λ kv th, works_on r g node (Merge GetEnviron (Taskfile_Vars tf)) (snd kv) th)
          (Taskfile_Includes tf) (spawn node tf).
Proof.
  unfold spawn. apply Forall2_fmap_r, Forall_Forall2_diag, Forall_true. done.
Qed.

(** What one step does to the goroutine that takes it, to the documents
    whose includes are being explored, and to the documents in the graph. *)
Lemma step_linking r path t σ :
  extends (graph σ) (graph (snd (step r path t σ))) ∧
  (∀ node vars inc,
     works_on r (graph σ) node vars inc t →
     works_on r (graph (snd (step r path t σ))) node vars inc (fst (step r path t σ))) ∧
  (recorded t = true →
   ∀ l tf, tending r (graph σ) l tf t →
     tending r (graph (snd (step r path t σ))) l tf (fst (step r path t σ)) ∨
     failed (fst (step r path t σ)) = true ∨
     document_linked r (graph (snd (step r path t σ))) l tf) ∧
  (∀ l tf, vertices (graph (snd (step r path t σ))) !! l = Some (Some tf) →
     vertices (graph σ) !! l = Some (Some tf) ∨
     tending r (graph (snd (step r path t σ))) l tf (fst (step r path t σ))).
Proof.
  revert path t σ.
  apply (step_ind (λ t σ t' σ',
    extends (graph σ) (graph σ') ∧
    (∀ node vars inc,
       works_on r (graph σ) node vars inc t → works_on r (graph σ') node vars inc t') ∧
    (recorded t = true →
     ∀ l tf, tending r (graph σ) l tf t →
       tending r (graph σ') l tf t' ∨ failed t' = true ∨ document_linked r (graph σ') l tf) ∧
    (∀ l tf, vertices (graph σ') !! l = Some (Some tf) →
       vertices (graph σ) !! l = Some (Some tf) ∨ tending r (graph σ') l tf t'))).
  - intros t σ. split; [apply step_extends|].
    destruct t as [node vars inc|k node|k node|k first gs|node inc child|e]; simpl.
    + split; [|split; [done|]].
      * intros node0 vars0 inc0 (-> & -> & ->).
        destruct (resolve r node0 vars0 inc0) as [|[[inc' child]|]] eqn:Hres; simpl;
          [done|done|].
        unfold linked. by rewrite Hres.
      * intros l tf. destruct (resolve r node vars inc) as [|[[]|]]; by left.
    + unfold AddVertex. destruct (vertices (graph σ) !! Location_of node) eqn:Hv; simpl.
      * split; [|split; [done|by left]].
        intros node0 vars0 inc0. destruct k as [|n0 i0 c0]; [done|].
        intros (-> & -> & Hres). simpl. split; [done|]. split; [done|]. by rewrite Hv.
      * split; [|split; [done|]].
        -- intros node0 vars0 inc0. destruct k as [|n0 i0 c0]; [done|].
           intros (-> & -> & Hres). simpl. repeat split; try done.
           by rewrite lookup_insert_eq.
        -- intros l tf. destruct (decide (l = Location_of node)) as [->|Hne].
           ++ by rewrite lookup_insert_eq.
           ++ rewrite lookup_insert_ne by done. by left.
    + destruct (readNode r node (world σ)) as [[err|[tf node']] w] eqn:Hread; simpl.
      * split; [|split; [done|by left]].
        intros node0 vars0 inc0. by destruct k as [|n0 i0 c0].
      * split; [|split; [done|]].
        -- intros node0 vars0 inc0. destruct k as [|n0 i0 c0]; [done|].
           intros (-> & -> & Hres & Hc). simpl. split; [done|]. split; [done|].
           by apply lookup_alter_is_Some.
        -- intros l tf'. destruct (decide (l = Location_of node)) as [->|Hne].
           ++ rewrite lookup_alter_eq.
              destruct (vertices (graph σ) !! Location_of node) as [v|]; [|done].
              simpl. intros [= <-]. right. left. exists node, (world σ), node'.
              split; [done|]. split; [by rewrite Hread|]. apply spawn_works_on.
           ++ rewrite lookup_alter_ne by done. by left.
    + destruct (forallb is_finished gs) eqn:Hfin; simpl.
      * split; [|split; [|by left]].
        -- intros node0 vars0 inc0. destruct k as [|n0 i0 c0]; [done|].
           intros (-> & Hres & Hc). by destruct first.
        -- intros Hrec l tf Htend.
           apply (proj1 (tending_Waiting r (graph σ) l tf k first gs)) in Htend
             as [(n & w & node & Hl & Hread & Hall)|Hex].
           ++ apply (recorded_Waiting k) in Hrec as [_ Hrec].
              destruct first as [e|]; [right; left; apply failed_return_to|].
              right; right. exists n, w, node. split; [done|]. split; [done|].
              specialize (Hrec eq_refl). apply forallb_Forall in Hfin.
              clear Hread. revert Hrec Hfin.
              induction Hall as [|kv th incs gs' Hw Hall IH]; [done|].
              intros [Hr Hrec]%Forall_cons [Hf Hfin]%Forall_cons.
              constructor; [|by apply IH].
              by destruct th as [| | | | |[e|]].
           ++ exfalso. apply Exists_exists in Hex as (th & Hin & Hth).
              apply forallb_Forall in Hfin.
              pose proof (proj1 (Forall_forall _ _) Hfin th Hin) as Hf.
              by destruct th.
      * split; [done|]. split; [by left|by left].
    + pose proof (link_done (graph σ) node inc child) as Hdone.
      pose proof (link_vertices (graph σ) node inc child) as Hsame.
      destruct (link (graph σ) node inc child) as [g' err]. simpl in *.
      split; [|split; [done|]].
      * intros node0 vars0 inc0 (-> & Hres & Hc). destruct err as [e|]; [done|].
        destruct (Hdone g' eq_refl) as (Hv & e & Hedge & Hin).
        simpl. unfold linked. rewrite Hres. split; [by rewrite Hv|]. by exists e.
      * intros l tf. rewrite Hsame. by left.
    + split; [done|]. split; [done|by left].
  - intros t σ. split; [apply extends_refl|]. split; [done|]. split; [by left|by left].
  - intros k first gs i th th' σ σ' Hi (Hext & Ha & Hb & Hc).
    assert (<[i := th']> gs !! i = Some th') as Hi'.
    { apply list_lookup_insert_eq. by eapply lookup_lt_Some. }
    split; [done|]. split; [|split].
    + intros node vars inc. destruct k as [|n0 i0 c0]; [done|].
      intros (-> & Hres & Hv). simpl. split; [done|]. split; [done|].
      by apply (proj1 Hext).
    + intros Hrec l tf Htend.
      apply (recorded_Waiting k) in Hrec as [Hall _].
      pose proof (Forall_lookup_1 _ _ _ _ Hall Hi) as Hth.
      apply tending_Waiting in Htend as [(n & w & node & Hl & Hread & Hworks)|Hex].
      * left. apply tending_Waiting. left. exists n, w, node.
        split; [done|]. split; [done|].
        destruct (Forall2_lookup_r _ _ _ _ _ Hworks Hi) as (kv & Hkv & Hw).
        rewrite <- (list_insert_id (Taskfile_Includes tf) i kv Hkv).
        apply Forall2_insert; [|by apply Ha].
        eapply Forall2_impl; [done|]. intros kv' th0. by apply works_on_extends.
      * apply Exists_exists in Hex as (th0 & Hin & Hth0).
        apply list_elem_of_lookup in Hin as (j & Hj).
        destruct (decide (j = i)) as [->|Hne].
        -- assert (th0 = th) as -> by congruence.
           destruct (Hb Hth l tf Hth0) as [Ht|[Hf|Hd]].
           ++ left. apply tending_Waiting. right. apply Exists_exists. exists th'.
              split; [by eapply list_elem_of_lookup_2|done].
           ++ right; left. apply failed_Waiting. right. apply Exists_exists. exists th'.
              split; [by eapply list_elem_of_lookup_2|done].
           ++ by right; right.
        -- left. apply tending_Waiting. right. apply Exists_exists. exists th0. split.
           ++ eapply list_elem_of_lookup_2. by rewrite list_lookup_insert_ne.
           ++ by eapply tending_extends.
    + intros l tf Hl. destruct (Hc l tf Hl) as [?|Ht]; [by left|]. right.
      apply tending_Waiting. right. apply Exists_exists. exists th'.
      split; [by eapply list_elem_of_lookup_2|done].
Qed.

Lemma step_linking_kept r path t σ :
  recorded t = true → linking r t σ →
  linking r (fst (step r path t σ)) (snd (step r path t σ)).
Proof.
  intros Hrec Hlinking l tf Hl.
  destruct (step_linking r path t σ) as (Hext & _ & Hb & Hc).
  destruct (Hc l tf Hl) as [Hold|?]; [|by right; right].
  destruct (Hlinking l tf Hold) as [Hd|[Hf|Ht]].
  - left. by eapply document_linked_extends.
  - right; left. by apply (step_failed r path t σ Hrec).
  - destruct (Hb Hrec l tf Ht) as [?|[?|?]]; eauto.
Qed.

Lemma run_linking r schedule (c : thread Node * Shared Node) :
  recorded (fst c) = true → linking r (fst c) (snd c) →
  linking r (fst (run r schedule c)) (snd (run r schedule c)).
Proof.
  revert c. induction schedule as [|path schedule IH]; intros c Hrec Hc; [done|].
  simpl. apply IH.
  - by apply (step_failed r path (fst c) (snd c) Hrec).
  - by apply step_linking_kept.
Qed.

(** X21. The graph that the first [Read] on a reader as [NewReader] makes
    it (its graph is empty) returns has every include of every document,
    whatever the schedule of the goroutines, and so for [include] as it
    reads: for a document at a vertex, read from a node of the location of
    the vertex, each include was resolved without an error and, unless it
    was optional and dropped, the location of the included node is a vertex
    and the edge to it from the location of the node that was read carries
    the include as it was resolved. It is not so for a later [Read] on the
    same reader after a failed one, which returns the graph as it was left. *)
Theorem returned_graph_is_linked r root w g l tf :
  (∃ schedule, Read_result (run r schedule (start root w)) = Some (inr g)) ∨
  (∃ fuel, Reader_Read r fuel root w = Some (inr g)) →
  vertices g !! l = Some (Some tf) →
  document_linked r g l tf.
Proof.
  intros Hg Hl.
  assert (∃ schedule, Read_result (run r schedule (start root w)) = Some (inr g))
    as (schedule & Hres).
  { destruct Hg as [?|(fuel & Hread)]; [done|]. by eapply Reader_Read_is_a_run. }
  assert (linking r (fst (start root w)) (snd (start root w))) as Hstart.
  { intros l' tf'. unfold start, NewTaskfileGraph. simpl. rewrite lookup_empty. discriminate. }
  pose proof (run_linking r schedule (start root w) eq_refl Hstart) as Hrun.
  unfold Read_result in Hres.
  destruct (fst (run r schedule (start root w))) as [| | | | |[e|]] eqn:Hc; simplify_eq.
  destruct (Hrun l tf Hl) as [?|[?|?]]; done.
Qed.
End IncludeComplete.

(** ** Examples of the paths of [loadNode] and [readNode] *)
Module PathExamples.
Import Example Faulty.

Lemma offline_never_asks_witness :
  let C := collaborators (remote_doc fetched None) in
  let n := ERemote url in
  (asRemote n = Some url ∧ offline offline_reader = true) ∧
  (fst (loadNode offline_reader n trusted_world) = inr (ECached url) ∧
   cache (snd (loadNode offline_reader n trusted_world)) = cache trusted_world).
Proof.
  intros C n.
  assert (asRemote n = Some url) as H1 by reflexivity.
  assert (offline offline_reader = true) as H2 by reflexivity.
  destruct (offline_never_asks offline_reader n url trusted_world H1 H2)
    as (Hcache & _ & Hcopy & _).
  split; [by split|]. split; [|exact Hcache].
  apply (Hcopy (mkCacheEntry (mkSource "T" "/remote") "sum of T")); by_evaluation.
Defined.

Lemma fetch_error_is_returned_witness :
  let C := collaborators (remote_doc no_fetch None) in
  let n := ERemote url in
  (asRemote n = Some url ∧ offline online = false ∧ cache_opened online empty_world ∧
   fetch_answer online url empty_world = inl (ErrOther "no network") ∧
   errors_As_timeout (ErrOther "no network") = None) ∧
  loadNode online n empty_world =
    (inl (ErrOther "no network"), mkWorld ∅ [EvNewCache "/tmp"; EvRead (ERemote url)]).
Proof.
  intros C n.
  assert (asRemote n = Some url) as H1 by reflexivity.
  assert (offline online = false) as H2 by reflexivity.
  assert (cache_opened online empty_world) as H3 by reflexivity.
  assert (fetch_answer online url empty_world = inl (ErrOther "no network")) as H4
    by reflexivity.
  assert (errors_As_timeout (ErrOther "no network") = None) as H5 by reflexivity.
  split; [by repeat split|].
  exact (fetch_error_is_returned online n url empty_world _ H1 H2 H3 H4 H5).
Defined.

(** The fetch gives up after 99 where the reader is set to 10. *)
Lemma timeout_error_carries_witness :
  let C := collaborators (remote_doc (timed_out 99) None) in
  let n := ERemote url in
  let err := Wrapped "fetch" (TaskfileNetworkTimeoutError url 99 false) in
  (asRemote n = Some url ∧ offline forced = false ∧ offline online = false ∧
   cache_opened forced empty_world ∧ cache_opened online empty_world ∧
   fetch_answer forced url empty_world = inl err ∧
   fetch_answer online url empty_world = inl err ∧
   errors_As_timeout err = Some (url, 99, false)) ∧
  (fst (loadNode forced n empty_world) = inl (TaskfileNetworkTimeoutError url 99 false) ∧
   fst (loadNode online n empty_world) = inl (TaskfileNetworkTimeoutError url 10 true)).
Proof.
  intros C n err.
  assert (asRemote n = Some url) as H1 by reflexivity.
  assert (offline forced = false) as H2 by reflexivity.
  assert (offline online = false) as H2' by reflexivity.
  assert (cache_opened forced empty_world) as H3 by reflexivity.
  assert (cache_opened online empty_world) as H3' by reflexivity.
  assert (fetch_answer forced url empty_world = inl err) as H4 by reflexivity.
  assert (fetch_answer online url empty_world = inl err) as H4' by reflexivity.
  assert (errors_As_timeout err = Some (url, 99, false)) as H5 by reflexivity.
  split; [by repeat split|]. split.
  - apply (proj1 (timeout_error_carries forced n url empty_world err url 99 false
                    H1 H2 H3 H4 H5)). reflexivity.
  - apply (proj1 (proj2 (timeout_error_carries online n url empty_world err url 99 false
                           H1 H2' H3' H4' H5))); by_evaluation.
Defined.

Lemma download_only_matters_on_timeout_witness :
  let C := collaborators (remote_doc fetched None) in
  let n := ERemote url in
  (offline online = true ∨
   ∀ remote err, asRemote n = Some remote → fetch_answer online remote trusted_world = inl err →
                 errors_As_timeout err = None) ∧
  loadNode (with_download online true) n trusted_world = loadNode online n trusted_world.
Proof.
  intros C n.
  assert (offline online = true ∨
          ∀ remote err, asRemote n = Some remote →
                        fetch_answer online remote trusted_world = inl err →
                        errors_As_timeout err = None) as H1.
  { right. intros remote err _ Hfetch. discriminate Hfetch. }
  split; [exact H1|].
  exact (download_only_matters_on_timeout online n trusted_world true H1).
Defined.

Lemma cache_and_checksum_failures_witness :
  (let C := faulty no_cache in
   asRemote (ERemote url) = Some url ∧
   loadNode online (ERemote url) empty_world
     = (inl (ErrOther "no temp dir"), mkWorld ∅ [EvNewCache "/tmp"]) ∧
   loadNode offline_reader (ERemote url) empty_world
     = (inl (ErrOther "no temp dir"), mkWorld ∅ [EvNewCache "/tmp"])) ∧
  (let C := faulty no_checksum in
   fst (loadNode online (ERemote url) empty_world) = inl (ErrOther "unreadable")).
Proof.
  split.
  - intros C.
    assert (asRemote (ERemote url) = Some url) as H1 by reflexivity.
    split; [exact H1|]. split.
    + apply (proj1 (cache_and_checksum_failures online (ERemote url) url empty_world H1)
               (ErrOther "no temp dir")). reflexivity.
    + apply (proj1 (cache_and_checksum_failures offline_reader (ERemote url) url
                      empty_world H1) (ErrOther "no temp dir")). reflexivity.
  - intros C.
    assert (asRemote (ERemote url) = Some url) as H1 by reflexivity.
    rewrite (proj2 (cache_and_checksum_failures online (ERemote url) url empty_world H1)
               (mkSource "T" "/remote") (ErrOther "unreadable")); reflexivity.
Defined.

Lemma accepted_prompt_caches_witness :
  (let C := faulty no_faults in
   asRemote (ERemote url) = Some url ∧ offline online = false ∧
   cache_opened online empty_world ∧
   fetch_answer online url empty_world = inr (mkSource "T" "/remote") ∧
   checksumSource (mkSource "T" "/remote") = inr "sum of T" ∧
   cachedChecksum_of url empty_world = EmptyString ∧
   fst (loadNode online (ERemote url) empty_world) = inr (ERemote url) ∧
   count is_cache_write (events_of (loadNode online (ERemote url)) empty_world) = 1%nat) ∧
  (let C := faulty disk_full in
   fst (loadNode online (ERemote url) empty_world) = inl (ErrOther "disk full")).
Proof.
  split; intros C.
  - assert (asRemote (ERemote url) = Some url) as H1 by reflexivity.
    assert (offline online = false) as H2 by reflexivity.
    assert (cache_opened online empty_world) as H3 by reflexivity.
    assert (fetch_answer online url empty_world = inr (mkSource "T" "/remote")) as H4
      by reflexivity.
    assert (checksumSource (mkSource "T" "/remote") = inr "sum of T") as H5 by reflexivity.
    assert (cachedChecksum_of url empty_world = EmptyString) as H6 by reflexivity.
    destruct (accepted_prompt_caches online (ERemote url) url empty_world
                (mkSource "T" "/remote") "sum of T" H1 H2 H3 H4 H5 (or_introl H6) eq_refl)
      as [Hevents Hnode].
    refine (conj H1 (conj H2 (conj H3 (conj H4 (conj H5 (conj H6 (conj Hnode _))))))).
    rewrite Hevents. reflexivity.
  - assert (asRemote (ERemote url) = Some url) as H1 by reflexivity.
    assert (offline online = false) as H2 by reflexivity.
    assert (cache_opened online empty_world) as H3 by reflexivity.
    assert (fetch_answer online url empty_world = inr (mkSource "T" "/remote")) as H4
      by reflexivity.
    assert (checksumSource (mkSource "T" "/remote") = inr "sum of T") as H5 by reflexivity.
    assert (cachedChecksum_of url empty_world = EmptyString) as H6 by reflexivity.
    destruct (accepted_prompt_caches online (ERemote url) url empty_world
                (mkSource "T" "/remote") "sum of T" H1 H2 H3 H4 H5 (or_introl H6) eq_refl)
      as [_ Hnode].
    exact Hnode.
Defined.

Lemma prompt_shown_witness :
  let C := collaborators (remote_doc fetched None) in
  let n := ERemote url in
  (asRemote n = Some url ∧ offline online = false ∧ cache_opened online stale_world ∧
   fetch_answer online url stale_world = inr (mkSource "T" "/remote") ∧
   checksumSource (mkSource "T" "/remote") = inr "sum of T") ∧
  (EvPrompt (Sprintf taskfileChangedPrompt url) ∈ events_of (loadNode online n) stale_world ∧
   (EvPrompt (Sprintf taskfileUntrustedPrompt url)
      ∉ events_of (loadNode online n) stale_world) ∧
   EvPrompt (Sprintf taskfileUntrustedPrompt url) ∈ events_of (loadNode online n) empty_world).
Proof.
  intros C n.
  assert (asRemote n = Some url) as H1 by reflexivity.
  assert (offline online = false) as H2 by reflexivity.
  assert (cache_opened online stale_world) as H3 by reflexivity.
  assert (fetch_answer online url stale_world = inr (mkSource "T" "/remote")) as H4
    by reflexivity.
  assert (checksumSource (mkSource "T" "/remote") = inr "sum of T") as H5 by reflexivity.
  split; [by repeat split|]. split; [|split].
  - apply (prompt_shown online n url stale_world _ _ _ H1 H2 H3 H4 H5).
    right. repeat split; vm_compute; discriminate.
  - intros Hin.
    apply (prompt_shown online n url stale_world _ _ _ H1 H2 H3 H4 H5) in Hin
      as [[Hnone _]|(_ & _ & Hmsg)]; [discriminate Hnone|].
    vm_compute in Hmsg. discriminate Hmsg.
  - apply (prompt_shown online n url empty_world (mkSource "T" "/remote") "sum of T" _
             H1 H2 eq_refl eq_refl H5).
    left. split; reflexivity.
Defined.

Lemma cached_copy_read_only_as_fallback_witness :
  let C := collaborators (remote_doc (timed_out 10) None) in
  let n := ERemote url in
  let e := EvCacheRead (ERemote url) in
  (asRemote n = Some url ∧ e ∈ events_of (loadNode online n) stale_world ∧
   is_cache_read e = true) ∧
  (offline online = true ∨
   (download online = false ∧
    ∃ err te, fetch_answer online url stale_world = inl err ∧
              errors_As_timeout err = Some te)).
Proof.
  intros C n e.
  assert (asRemote n = Some url) as H1 by reflexivity.
  assert (e ∈ events_of (loadNode online n) stale_world) as H2.
  { apply list_elem_of_further, list_elem_of_further, list_elem_of_here. }
  assert (is_cache_read e = true) as H3 by reflexivity.
  split; [by repeat split|].
  exact (cached_copy_read_only_as_fallback online n url stale_world e H1 H2 H3).
Defined.

(** The document changes on the network between the two fetches: the one
    that is compared with the cache is T, the one that is parsed is T2. *)
Lemma trusted_remote_is_read_twice_witness :
  let C := faulty moving in
  let n := ERemote url in
  (asRemote n = Some url ∧ offline online = false ∧ cache_opened online trusted_world ∧
   fetch_answer online url trusted_world = inr (mkSource "T" "/remote") ∧
   checksumSource (mkSource "T" "/remote") = inr "sum of T" ∧
   cachedChecksum_of url trusted_world = "sum of T" ∧ "sum of T" ≠ EmptyString) ∧
  (count is_read (events_of (readNode online n) trusted_world) = 2%nat ∧
   fst (readNode online n trusted_world) =
     inr (mkTaskfile url (Some "3") ∅
            [("T2", Some (mkTask "T2" (mkLocation url "/remote")))] [], n)).
Proof.
  intros C n.
  assert (asRemote n = Some url) as H1 by reflexivity.
  assert (offline online = false) as H2 by reflexivity.
  assert (cache_opened online trusted_world) as H3 by reflexivity.
  assert (fetch_answer online url trusted_world = inr (mkSource "T" "/remote")) as H4
    by reflexivity.
  assert (checksumSource (mkSource "T" "/remote") = inr "sum of T") as H5 by reflexivity.
  assert (cachedChecksum_of url trusted_world = "sum of T") as H6 by by_evaluation.
  assert ("sum of T" ≠ EmptyString) as H7 by discriminate.
  split; [by repeat split|].
  exact (trusted_remote_is_read_twice online n url trusted_world _ _ H1 H2 H3 H4 H5 H6 H7).
Defined.

Lemma readNode_refuses_witness :
  let C := faulty broken in
  (fst (loadNode online (ELocal "T") empty_world) = inr (ELocal "T") ∧
   Read (trace (snd (loadNode online (ELocal "T") empty_world))) (ELocal "T")
     = inr (mkSource "T" "/work")) ∧
  (fst (readNode online (ELocal "T") empty_world)
     = inl (TaskfileDecodeError "line 3: bad indentation" (Some ("T", "T", 2))) ∧
   fst (readNode online (ELocal "Z") empty_world)
     = inl (TaskfileInvalidError "./Z" (ErrOther "not yaml")) ∧
   fst (readNode online (ELocal "V") empty_world) = inl (TaskfileVersionCheckError "V")).
Proof.
  intros C.
  assert (∀ name, fst (loadNode online (ELocal name) empty_world) = inr (ELocal name))
    as Hload by reflexivity.
  assert (∀ name, Read (trace (snd (loadNode online (ELocal name) empty_world)))
                    (ELocal name) = inr (mkSource name "/work")) as Hread by reflexivity.
  split; [split; [apply Hload|apply Hread]|]. split; [|split].
  - apply (proj1 (readNode_refuses online (ELocal "T") empty_world (ELocal "T")
                    (mkSource "T" "/work") (Hload "T") (Hread "T"))
             (Wrapped "yaml" (TaskfileDecodeError "line 3: bad indentation" None))).
    reflexivity.
  - apply (proj1 (readNode_refuses online (ELocal "Z") empty_world (ELocal "Z")
                    (mkSource "Z" "/work") (Hload "Z") (Hread "Z"))
             (ErrOther "not yaml")).
    reflexivity.
  - apply (proj1 (proj2 (readNode_refuses online (ELocal "V") empty_world (ELocal "V")
                           (mkSource "V" "/work") (Hload "V") (Hread "V")))
             (mkTaskfile EmptyString None ∅ [] [])); reflexivity.
Defined.

Lemma nil_task_stays_nil_witness :
  let C := collaborators (remote_doc fetched None) in
  let n := ERemote url in
  let tf := mkTaskfile url (Some "3") ∅
              [("build", Some (mkTask "build" (mkLocation url "/remote")));
               ("lint", Some (mkTask "lint" (mkLocation "elsewhere" "/remote")));
               ("none", None)] [] in
  fst (readNode online n empty_world) = inr (tf, n) ∧
  ∃ src parsed,
    Read (trace (snd (loadNode online n empty_world))) n = inr src ∧
    Unmarshal (FileContent src) = inr parsed ∧
    map fst (Taskfile_Tasks tf) = map fst (Taskfile_Tasks parsed) ∧
    ∀ i name,
      Taskfile_Tasks parsed !! i = Some (name, None) ↔
      Taskfile_Tasks tf !! i = Some (name, None).
Proof.
  intros C n tf.
  assert (fst (readNode online n empty_world) = inr (tf, n)) as H1 by (vm_compute; reflexivity).
  split; [exact H1|].
  exact (nil_task_stays_nil online n empty_world tf n H1).
Defined.
End PathExamples.

(** ** Examples of whole reads *)
Module ReadExamples.
Import Example Faulty.

Lemma returned_graph_is_filled_witness :
  let C := collaborators diamond in
  let c := run online (leftmost_schedule online 40 (start (ELocal "A") empty_world))
             (start (ELocal "A") empty_world) in
  ((∃ schedule, Read_result (run online schedule (start (ELocal "A") empty_world))
                  = Some (inr (graph (snd c)))) ∨
   (∃ fuel, Reader_Read online fuel (ELocal "A") empty_world = Some (inr (graph (snd c))))) ∧
  filled (graph (snd c)).
Proof.
  intros C c.
  assert ((∃ schedule, Read_result (run online schedule (start (ELocal "A") empty_world))
                         = Some (inr (graph (snd c)))) ∨
          (∃ fuel, Reader_Read online fuel (ELocal "A") empty_world
                     = Some (inr (graph (snd c))))) as H1.
  { left. exists (leftmost_schedule online 40 (start (ELocal "A") empty_world)).
    fold c. unfold Read_result.
    assert (fst c = Finished None) as -> by (vm_compute; reflexivity). reflexivity. }
  split; [exact H1|].
  exact (returned_graph_is_filled online (ELocal "A") empty_world (graph (snd c)) H1).
Defined.

Lemma vertex_holds_its_own_document_witness :
  let C := collaborators diamond in
  let schedule := leftmost_schedule online 40 (start (ELocal "A") empty_world) in
  let tf := mkTaskfile "D" (Some "3") ∅ [] [] in
  (handles_keep_location ∧
   vertices (graph (snd (run online schedule (start (ELocal "A") empty_world)))) !! "D"
     = Some (Some tf)) ∧
  Taskfile_Location tf = "D".
Proof.
  intros C schedule tf.
  assert handles_keep_location as H1.
  { split; [|split].
    - intros [p|u|u] remote [= <-]. reflexivity.
    - reflexivity.
    - reflexivity. }
  assert (vertices (graph (snd (run online schedule (start (ELocal "A") empty_world)))) !! "D"
          = Some (Some tf)) as H2 by (vm_compute; reflexivity).
  split; [by split|].
  exact (vertex_holds_its_own_document online (ELocal "A") empty_world schedule "D" tf H1 H2).
Defined.

Lemma local_run_stays_local_witness :
  let C := collaborators diamond in
  let c := run online (leftmost_schedule online 40 (start (ELocal "A") empty_world))
             (start (ELocal "A") empty_world) in
  ((∀ entrypoint dir i timeout parent n,
      NewNode entrypoint dir i timeout parent = inr n → is_local n = true) ∧
   is_local (ELocal "A") = true) ∧
  (cache (world (snd c)) = cache empty_world ∧
   ∃ evs, trace (world (snd c)) = trace empty_world ++ evs ∧
          Forall (λ e, is_file_event e = true) evs).
Proof.
  intros C c.
  assert (∀ entrypoint dir (i : bool) (timeout : Z) (parent n : ENode),
            NewNode entrypoint dir i timeout parent = inr n → is_local n = true) as H1.
  { intros entrypoint dir i timeout parent n [= <-]. reflexivity. }
  assert (is_local (ELocal "A") = true) as H2 by reflexivity.
  split; [by split|].
  exact (local_run_stays_local online (ELocal "A") empty_world
           (leftmost_schedule online 40 (start (ELocal "A") empty_world)) H1 H2).
Defined.

(** The first [Read] fails on the cycle of A and B; the second one gives
    the graph it left, without an error. *)
Lemma second_read_returns_at_once_witness :
  let C := collaborators loop in
  ∃ σ,
    Reader_Read_again online 2 (ELocal "A") (mkShared NewTaskfileGraph empty_world [])
      = Some (inl (TaskfileCycleError "A" "B"), σ) ∧
    Reader_Read_again online 0 (ELocal "A") σ = Some (inr (graph σ), σ).
Proof.
  intros C.
  assert (fst <$> Reader_Read_again online 2 (ELocal "A")
                    (mkShared NewTaskfileGraph empty_world [])
          = Some (inl (TaskfileCycleError "A" "B"))) as Hfirst by (vm_compute; reflexivity).
  destruct (Reader_Read_again online 2 (ELocal "A")
              (mkShared NewTaskfileGraph empty_world [])) as [[res σ]|] eqn:H1;
    [|discriminate Hfirst].
  injection Hfirst as ->. exists σ. split; [reflexivity|].
  exact (second_read_returns_at_once online 2 (ELocal "A") empty_world _ σ H1 0%nat).
Defined.

Lemma resolved_include_witness :
  let C := collaborators diamond in
  let b := plain "b" "B" false in
  resolve online (ELocal "A") ∅ b = inr (Some (b, ELocal "B")) ∧
  ∃ taskfile dir entrypoint dir',
    Replace (Include_Taskfile b) ∅ = inr taskfile ∧
    Replace (Include_Dir b) ∅ = inr dir ∧
    ResolveEntrypoint (ELocal "A") taskfile = inr entrypoint ∧
    ResolveDir (ELocal "A") dir = inr dir' ∧
    NewNode entrypoint dir' (insecure online) (timeout online) (ELocal "A")
      = inr (ELocal "B") ∧
    Include_Taskfile b = taskfile ∧
    Include_Dir b = dir' ∧
    Include_Namespace b = Include_Namespace b ∧
    Include_Optional b = Include_Optional b ∧
    Include_Internal b = Include_Internal b ∧
    Include_Flatten b = Include_Flatten b ∧
    Include_Aliases b = Include_Aliases b ∧
    Include_AdvancedImport b = Include_AdvancedImport b ∧
    Include_Vars b = Include_Vars b.
Proof.
  intros C b.
  assert (resolve online (ELocal "A") ∅ b = inr (Some (b, ELocal "B"))) as H1 by reflexivity.
  split; [exact H1|].
  exact (resolved_include online (ELocal "A") ∅ b b (ELocal "B") H1).
Defined.

Lemma each_vertex_parsed_exactly_once_witness :
  let C := collaborators diamond in
  let schedule := leftmost_schedule online 40 (start (ELocal "A") empty_world) in
  let c := run online schedule (start (ELocal "A") empty_world) in
  Read_result c = Some (inr (graph (snd c))) ∧
  ∃ evs, trace (world (snd c)) = trace empty_world ++ evs ∧
         parses evs = size (dom (vertices (graph (snd c)))).
Proof.
  intros C schedule c.
  assert (Read_result c = Some (inr (graph (snd c)))) as H1.
  { unfold Read_result.
    assert (fst c = Finished None) as -> by (vm_compute; reflexivity). reflexivity. }
  split; [exact H1|]. subst c.
  exact (each_vertex_parsed_exactly_once online (ELocal "A") empty_world schedule _ H1).
Defined.

Lemma returned_graph_is_linked_witness :
  let C := collaborators diamond in
  let c := run online (leftmost_schedule online 40 (start (ELocal "A") empty_world))
             (start (ELocal "A") empty_world) in
  let tf := mkTaskfile "A" (Some "3") ∅ []
              [("b", plain "b" "B" false); ("c", plain "c" "C" false)] in
  (((∃ schedule, Read_result (run online schedule (start (ELocal "A") empty_world))
                   = Some (inr (graph (snd c)))) ∨
    (∃ fuel, Reader_Read online fuel (ELocal "A") empty_world = Some (inr (graph (snd c))))) ∧
   vertices (graph (snd c)) !! "A" = Some (Some tf)) ∧
  document_linked online (graph (snd c)) "A" tf.
Proof.
  intros C c tf.
  assert ((∃ schedule, Read_result (run online schedule (start (ELocal "A") empty_world))
                         = Some (inr (graph (snd c)))) ∨
          (∃ fuel, Reader_Read online fuel (ELocal "A") empty_world
                     = Some (inr (graph (snd c))))) as H1.
  { left. exists (leftmost_schedule online 40 (start (ELocal "A") empty_world)).
    fold c. unfold Read_result.
    assert (fst c = Finished None) as -> by (vm_compute; reflexivity). reflexivity. }
  assert (vertices (graph (snd c)) !! "A" = Some (Some tf)) as H2 by (vm_compute; reflexivity).
  split; [by split|].
  exact (returned_graph_is_linked online (ELocal "A") empty_world (graph (snd c)) "A" tf H1 H2).
Defined.

(** A remote document whose content changes between the fetch that is
    compared and the fetch that is parsed: the trusted checksum is that of
    T, the document in the graph is T2. *)
Example moving_document_is_parsed_unchecked :
  let C := faulty moving in
  let c := run_leftmost online 10 (start (ERemote url) trusted_world) in
  fst c = Finished None ∧
  cache (world (snd c)) = cache trusted_world ∧
  count is_prompt (trace (world (snd c))) = 0%nat ∧
  (Taskfile_Tasks <$> (vertices (graph (snd c)) !! url ≫= id))
    = Some [("T2", Some (mkTask "T2" (mkLocation url "/remote")))].
Proof. intros C c. repeat split; vm_compute; reflexivity. Qed.

(** A [Read] after a failed one: the first fails on B, which does not
    parse; the second returns the graph as it was left, without an error,
    and the vertex of B holds nil. *)
Example read_after_a_failed_read :
  let C := collaborators half_read in
  match Reader_Read_again online 2 (ELocal "A")
          (mkShared NewTaskfileGraph empty_world []) with
  | Some (inl e, σ) =>
      e = TaskfileInvalidError "B" (ErrOther "not a taskfile") ∧
      match Reader_Read_again online 0 (ELocal "A") σ with
      | Some (inr g, _) => vertices g !! "B" = Some None
      | _ => False
      end
  | _ => False
  end.
Proof. vm_compute. split; reflexivity. Qed.
End ReadExamples.
